(** * MixMerge: the audio merge job pipeline

    A shallow embedding of the audio subsystem of the application:
    the storage layer of [server/storage.ts] (class [DatabaseStorage], the
    instance exported as [storage]) and the [/api/mixmerge/...] routes of
    [server/routes.ts], together with the background task that the merge
    route schedules with [setImmediate].

    Tables are lists of rows in insertion order; a [where] clause is a
    filter over the rows, [returning()] yields the rows touched.  A
    database statement is atomic, and an awaited one has taken effect
    when its [await] returns.  The progress writes of the background task
    are not awaited: each is in flight from the moment it is issued and
    takes effect at some later time, in any order.  The statements of the
    routes are taken to succeed; those of the background task, which has
    no caller to answer to, may also be rejected, and a rejected
    statement changes nothing.  Time stamps are integers supplied by the
    caller of an operation, numeric ids are integers. *)

From Stdlib Require Import ZArith QArith Qround String List Lia.
From stdpp Require Import base tactics option list relations sorting strings gmap.

Local Open Scope string_scope.
Local Open Scope list_scope.
Local Open Scope Z_scope.

(** ** Data model *)

(** The four values ever written to [mergeJobs.status]. *)
Inductive JobStatus := pending | processing | completed | failed.

#[global] Instance JobStatus_eq_dec : EqDecision JobStatus.
Proof. solve_decision. Defined.

(** Progress values are fractions as the encoder reports them; two are
    the same when numerator and denominator are. *)
#[global] Instance Q_eq_dec : EqDecision Q.
Proof. solve_decision. Defined.

Module AudioFile.
Record t := mk {
  id : Z;
  filename : string;
  originalName : string;
  size : Z;
  duration : Z;
  mimeType : string;
  uploadedBy : string;
  uploadedAt : Z
}.
End AudioFile.

Module MergeJob.
Record t := mk {
  id : Z;
  name : string;
  status : JobStatus;
  progress : Z;
  outputFile : option string;
  removeSilence : bool;
  outputFormat : string;
  createdBy : string;
  createdAt : Z;
  completedAt : option Z
}.
End MergeJob.

Module MergeJobFile.
Record t := mk { jobId : Z; audioFileId : Z }.
End MergeJobFile.

(** [InsertAudioFile]: the columns the upload route supplies. *)
Module InsertAudioFile.
Record t := mk {
  filename : string;
  originalName : string;
  size : Z;
  duration : Z;
  mimeType : string;
  uploadedBy : string
}.
End InsertAudioFile.

(** [InsertMergeJob]: the columns the merge route supplies. *)
Module InsertMergeJob.
Record t := mk {
  name : string;
  status : JobStatus;
  removeSilence : bool;
  outputFormat : string;
  createdBy : string
}.
End InsertMergeJob.

(** [Partial<InsertMergeJob>]: the object given to [.set(...)]; an absent
    key leaves the column alone. *)
Module JobPatch.
Record t := mk {
  name : option string;
  status : option JobStatus;
  progress : option Z;
  outputFile : option string;
  removeSilence : option bool;
  outputFormat : option string;
  createdBy : option string;
  completedAt : option Z
}.

Definition apply (p : t) (j : MergeJob.t) : MergeJob.t :=
  MergeJob.mk
    (MergeJob.id j)
    (default (MergeJob.name j) (name p))
    (default (MergeJob.status j) (status p))
    (default (MergeJob.progress j) (progress p))
    (match outputFile p with Some f => Some f | None => MergeJob.outputFile j end)
    (default (MergeJob.removeSilence j) (removeSilence p))
    (default (MergeJob.outputFormat j) (outputFormat p))
    (default (MergeJob.createdBy j) (createdBy p))
    (MergeJob.createdAt j)
    (match completedAt p with Some d => Some d | None => MergeJob.completedAt j end).
End JobPatch.

(** The durable state: the three tables with their serial counters, and
    the files present on disk (paths relative to the working directory). *)
Record World := mkWorld {
  audioFiles : list AudioFile.t;
  mergeJobs : list MergeJob.t;
  mergeJobFiles : list MergeJobFile.t;
  audioFiles_seq : Z;
  mergeJobs_seq : Z;
  disk : list string
}.

Definition empty_world : World := mkWorld [] [] [] 1 1 [].

(** ** A state monad over [World] for the [async] storage methods *)

Definition M (A : Type) : Type := World → A * World.

#[global] Instance M_ret : MRet M := λ A (a : A) (w : World), (a, w).
#[global] Instance M_bind : MBind M :=
  λ A B (k : A → M B) (c : M A) (w : World), let (a, w') := c w in k a w'.

Definition get_world : M World := λ w, (w, w).
Definition put_world (w : World) : M unit := λ _, (tt, w).

Fixpoint mapM_M {A B : Type} (f : A → M B) (l : list A) : M (list B) :=
  match l with
  | [] => mret []
  | a :: l' => b ← f a; bs ← mapM_M f l'; mret (b :: bs)
  end.

(** JavaScript truthiness of a string ([if (userId)], [name || ...]). *)
Definition truthy_string (s : string) : bool :=
  match s with EmptyString => false | _ => true end.

(** ** Storage layer: [DatabaseStorage] *)

(** The order of [orderBy(desc(audioFiles.uploadedAt))]. *)
Definition uploadedAt_desc (a b : AudioFile.t) : Prop :=
  AudioFile.uploadedAt b ≤ AudioFile.uploadedAt a.

(** The order of [orderBy(desc(mergeJobs.createdAt))]. *)
Definition createdAt_desc (a b : MergeJob.t) : Prop :=
  MergeJob.createdAt b ≤ MergeJob.createdAt a.

#[global] Instance uploadedAt_desc_dec : RelDecision uploadedAt_desc.
Proof. intros a b. unfold uploadedAt_desc. apply _. Defined.

#[global] Instance createdAt_desc_dec : RelDecision createdAt_desc.
Proof. intros a b. unfold createdAt_desc. apply _. Defined.

(** [getAudioFiles(userId?)]: [query.where(..)] sets the condition on
    the query object itself, and it is called only when [userId] is
    truthy. *)
Definition getAudioFiles (userId : option string) : M (list AudioFile.t) :=
  w ← get_world;
  let rows :=
    match userId with
    | Some u =>
        if truthy_string u
        then filter (λ f, AudioFile.uploadedBy f = u) (audioFiles w)
        else audioFiles w
    | None => audioFiles w
    end in
  mret (merge_sort uploadedAt_desc rows).

(** [getAudioFile(id)]: the first row of the selection. *)
Definition getAudioFile (id : Z) : M (option AudioFile.t) :=
  w ← get_world;
  mret (head (filter (λ f, AudioFile.id f = id) (audioFiles w))).

(** Modelled from the spec: the table declaration of [audioFiles]
    ([shared/schema.ts]) is not part of the sources; by the specification
    a row has a numeric identity and the time of its upload, here the next
    value of the serial counter and the time of the insert. *)
Definition audioFiles_defaults (id : Z) (file : InsertAudioFile.t) (now : Z) : AudioFile.t :=
  AudioFile.mk id
    (InsertAudioFile.filename file) (InsertAudioFile.originalName file)
    (InsertAudioFile.size file) (InsertAudioFile.duration file)
    (InsertAudioFile.mimeType file) (InsertAudioFile.uploadedBy file) now.

(** [createAudioFile(file)]. *)
Definition createAudioFile (file : InsertAudioFile.t) (now : Z) : M AudioFile.t :=
  w ← get_world;
  let newFile := audioFiles_defaults (audioFiles_seq w) file now in
  _ ← put_world (mkWorld (audioFiles w ++ [newFile]) (mergeJobs w) (mergeJobFiles w)
                   (audioFiles_seq w + 1) (mergeJobs_seq w) (disk w));
  mret newFile.

(** [deleteAudioFile(id, userId)]: deletes the rows matching both the id
    and the owner; true when a row was returned. *)
Definition deleteAudioFile (id : Z) (userId : string) : M bool :=
  w ← get_world;
  let hit := λ f, AudioFile.id f = id ∧ AudioFile.uploadedBy f = userId in
  let result := filter hit (audioFiles w) in
  _ ← put_world (mkWorld (filter (λ f, ¬ hit f) (audioFiles w)) (mergeJobs w)
                   (mergeJobFiles w) (audioFiles_seq w) (mergeJobs_seq w) (disk w));
  mret (bool_decide (0 < Z.of_nat (length result))).

(** [getMergeJobs(userId?)]. *)
Definition getMergeJobs (userId : option string) : M (list MergeJob.t) :=
  w ← get_world;
  let rows :=
    match userId with
    | Some u =>
        if truthy_string u
        then filter (λ j, MergeJob.createdBy j = u) (mergeJobs w)
        else mergeJobs w
    | None => mergeJobs w
    end in
  mret (merge_sort createdAt_desc rows).

(** [getMergeJob(id)]. *)
Definition getMergeJob (id : Z) : M (option MergeJob.t) :=
  w ← get_world;
  mret (head (filter (λ j, MergeJob.id j = id) (mergeJobs w))).

(** Modelled from the spec: the table declaration of [mergeJobs]
    ([shared/schema.ts]) is not part of the sources; by the specification
    a new job starts with progress 0, without output file and without
    completion time, and [createdAt] is the time of the insert. *)
Definition mergeJobs_defaults (id : Z) (job : InsertMergeJob.t) (now : Z) : MergeJob.t :=
  MergeJob.mk id
    (InsertMergeJob.name job) (InsertMergeJob.status job) 0 None
    (InsertMergeJob.removeSilence job) (InsertMergeJob.outputFormat job)
    (InsertMergeJob.createdBy job) now None.

(** [createMergeJob(job)]. *)
Definition createMergeJob (job : InsertMergeJob.t) (now : Z) : M MergeJob.t :=
  w ← get_world;
  let newJob := mergeJobs_defaults (mergeJobs_seq w) job now in
  _ ← put_world (mkWorld (audioFiles w) (mergeJobs w ++ [newJob]) (mergeJobFiles w)
                   (audioFiles_seq w) (mergeJobs_seq w + 1) (disk w));
  mret newJob.

Definition set_where_id (id : Z) (job : JobPatch.t) (j : MergeJob.t) : MergeJob.t :=
  if decide (MergeJob.id j = id) then JobPatch.apply job j else j.

(** [updateMergeJob(id, job)]: [update ... set ... where id = ...
    returning]; the first returned row, [undefined] when there is none. *)
Definition updateMergeJob (id : Z) (job : JobPatch.t) : M (option MergeJob.t) :=
  w ← get_world;
  let rows := set_where_id id job <$> mergeJobs w in
  _ ← put_world (mkWorld (audioFiles w) rows (mergeJobFiles w)
                   (audioFiles_seq w) (mergeJobs_seq w) (disk w));
  mret (head (filter (λ j, MergeJob.id j = id) rows)).

(** [addJobFiles(jobId, fileIds)]: one link per file id, in the order of
    the array. *)
Definition addJobFiles (jobId : Z) (fileIds : list Z) : M unit :=
  w ← get_world;
  let values := (λ fileId, MergeJobFile.mk jobId fileId) <$> fileIds in
  put_world (mkWorld (audioFiles w) (mergeJobs w) (mergeJobFiles w ++ values)
               (audioFiles_seq w) (mergeJobs_seq w) (disk w)).

(** [fs.unlinkSync] guarded by [fs.existsSync]: the path is gone
    afterwards, other paths stay. *)
Definition unlink_if_exists (path : string) : M unit :=
  w ← get_world;
  put_world (mkWorld (audioFiles w) (mergeJobs w) (mergeJobFiles w)
               (audioFiles_seq w) (mergeJobs_seq w)
               (filter (λ p, p ≠ path) (disk w))).

(** [deleteMergeJob(id, userId)], as it runs where [require] is defined
    (the module loaded as CommonJS): ownership is checked on the selected
    row; the output file is unlinked when the column is set; the links of
    the job go with the row ("cascade will handle job files").  No
    statement throws there, so the [catch] branch is not reached;
    [deleteMergeJob_loaded] below is the method under either loading. *)
Definition deleteMergeJob (id : Z) (userId : string) : M bool :=
  w ← get_world;
  match head (filter (λ j, MergeJob.id j = id) (mergeJobs w)) with
  | None => mret false
  | Some job =>
      if decide (MergeJob.createdBy job ≠ userId) then mret false
      else
        _ ← match MergeJob.outputFile job with
            | Some f => if truthy_string f then unlink_if_exists ("uploads/" +:+ f)
                        else mret tt
            | None => mret tt
            end;
        w1 ← get_world;
        let gone := filter (λ j, MergeJob.id j = id) (mergeJobs w1) in
        _ ← put_world (mkWorld (audioFiles w1)
                         (filter (λ j, MergeJob.id j ≠ id) (mergeJobs w1))
                         (filter (λ l, MergeJobFile.jobId l ≠ id) (mergeJobFiles w1))
                         (audioFiles_seq w1) (mergeJobs_seq w1) (disk w1));
        mret (bool_decide (0 < Z.of_nat (length gone)))
  end.

(** The world after the owner's [deleteMergeJob]. *)
Definition without_job (job : MergeJob.t) (w : World) : World :=
  mkWorld (audioFiles w)
    (filter (λ j, MergeJob.id j ≠ MergeJob.id job) (mergeJobs w))
    (filter (λ l, MergeJobFile.jobId l ≠ MergeJob.id job) (mergeJobFiles w))
    (audioFiles_seq w) (mergeJobs_seq w)
    (match MergeJob.outputFile job with
     | Some f => if truthy_string f
                 then filter (λ p, p ≠ "uploads/" +:+ f) (disk w) else disk w
     | None => disk w
     end).

(** How the module of the storage class is loaded.  The method calls
    [require('fs')] and [require('path')] in a file that otherwise uses
    [import]: [require] is defined in a CommonJS module and is not in an
    ES module, where the call throws a [ReferenceError]. *)
Inductive Loading := CommonJS | ESModule.

(** [deleteMergeJob(id, userId)] under either loading.  The calls of
    [require] are reached only for a job whose [outputFile] is set; what
    they throw in an ES module is caught by the method's own [catch],
    which returns [false], before any row is deleted. *)
Definition deleteMergeJob_loaded (loading : Loading) (id : Z) (userId : string) : M bool :=
  w ← get_world;
  match head (filter (λ j, MergeJob.id j = id) (mergeJobs w)) with
  | None => mret false
  | Some job =>
      if decide (MergeJob.createdBy job ≠ userId) then mret false
      else
        let delete_row : M bool :=
          w1 ← get_world;
          let gone := filter (λ j, MergeJob.id j = id) (mergeJobs w1) in
          _ ← put_world (mkWorld (audioFiles w1)
                           (filter (λ j, MergeJob.id j ≠ id) (mergeJobs w1))
                           (filter (λ l, MergeJobFile.jobId l ≠ id) (mergeJobFiles w1))
                           (audioFiles_seq w1) (mergeJobs_seq w1) (disk w1));
          mret (bool_decide (0 < Z.of_nat (length gone))) in
        match MergeJob.outputFile job with
        | Some f =>
            if truthy_string f
            then match loading with
                 | CommonJS => _ ← unlink_if_exists ("uploads/" +:+ f); delete_row
                 | ESModule => mret false
                 end
            else delete_row
        | None => delete_row
        end
  end.

(** ** Helpers of [server/audio.ts] *)

(** Modelled from the spec: [deleteFile] of [server/audio.ts] is not part
    of the sources; by the specification it removes the backing file from
    storage. *)
Definition deleteFile (filePath : string) : M unit := unlink_if_exists filePath.

(** Modelled from the spec: [upload.single('audio')] of [server/audio.ts]
    is not part of the sources; by the specification the uploaded file is
    stored, under its stored name, before the route runs. *)
Definition upload_single (file : option string) : M unit :=
  match file with
  | Some filename =>
      w ← get_world;
      put_world (mkWorld (audioFiles w) (mergeJobs w) (mergeJobFiles w)
                   (audioFiles_seq w) (mergeJobs_seq w)
                   (("uploads/" +:+ filename) :: disk w))
  | None => mret tt
  end.

(** Modelled from the spec: [mergeAudioFiles] of [server/audio.ts] is not
    part of the sources.  One run of the encoder is seen by its caller as
    a sequence of calls of the progress callback, followed by the
    resolution of the returned promise, once the output file is written,
    or by its rejection, which leaves no output behind.  The calls and the
    settlement are events of the server below; this is what the
    resolution leaves on disk. *)
Definition mergeAudioFiles (filePaths : list string) (outputPath : string)
    (removeSilence : option bool) (outputFormat : string) : M unit :=
  w ← get_world;
  put_world (mkWorld (audioFiles w) (mergeJobs w) (mergeJobFiles w)
               (audioFiles_seq w) (mergeJobs_seq w) (outputPath :: disk w)).

(** ** Requests and responses *)

(** The [fileIds] member of the request body, as the guard of the merge
    route tells its cases apart. *)
Inductive FileIdsField :=
  | FidsAbsent
  | FidsNotArray (truthy : bool)
  | FidsArray (ids : list Z).

Record MergeBody := mkMergeBody {
  body_fileIds : FileIdsField;
  body_removeSilence : option bool;
  body_outputFormat : option string;
  body_name : option string
}.

(** What the multer middleware leaves in [req.file]. *)
Record UploadedFile := mkUploadedFile {
  file_filename : string;
  file_originalname : string;
  file_size : Z;
  file_mimetype : string
}.

(** A request after [isAuthenticated]: [req.user.claims.sub],
    [parseInt(req.params.id)] (for a numeric parameter), [req.body] and
    [req.file]. *)
Record Request := mkRequest {
  user_sub : string;
  params_id : Z;
  body : MergeBody;
  file : option UploadedFile
}.

Inductive Response :=
  | Message (code : Z) (message : string)
  | JsonFiles (files : list AudioFile.t)
  | JsonFile (file : AudioFile.t)
  | JsonJobs (jobs : list MergeJob.t)
  | JsonJob (job : MergeJob.t).

(** [x || d] on an optional string. *)
Definition or_string (x : option string) (d : string) : string :=
  match x with
  | Some s => if truthy_string s then s else d
  | None => d
  end.

(** [x || false] on an optional boolean. *)
Definition or_false (x : option bool) : bool := default false x.

(** ** The background task of a merge job *)

(** Where the [setImmediate] callback stands: queued, past
    [await updateMergeJob(.., processing)], or inside
    [await mergeAudioFiles(..)] with the paths it computed. *)
Inductive Stage :=
  | Queued
  | Started
  | Encoding (filePaths : list string) (outputFilename : string).

(** The variables the callback closes over. *)
Record Task := mkTask {
  task_job : MergeJob.t;
  task_fileIds : list Z;
  task_removeSilence : option bool;
  task_stage : Stage
}.

Definition task_id (t : Task) : Z := MergeJob.id (task_job t).

(** The four objects the callback passes to [updateMergeJob]. *)
Definition patch_processing : JobPatch.t :=
  JobPatch.mk None (Some processing) None None None None None None.

Definition patch_progress (p : Q) : JobPatch.t :=
  JobPatch.mk None None (Some (Qfloor p)) None None None None None.

Definition patch_completed (outputFilename : string) (now : Z) : JobPatch.t :=
  JobPatch.mk None (Some completed) (Some 100) (Some outputFilename) None None None (Some now).

Definition patch_failed : JobPatch.t :=
  JobPatch.mk None (Some failed) None None None None None None.

(** [await storage.updateMergeJob(job.id, { status: "processing" })]. *)
Definition task_start (t : Task) : M unit :=
  _ ← updateMergeJob (task_id t) patch_processing;
  mret tt.

(** [`uploads/${file?.filename}`]. *)
Definition upload_path (file : option AudioFile.t) : string :=
  "uploads/" +:+ match file with Some f => AudioFile.filename f | None => "undefined" end.

(** The file paths and the output file name; [stamp] stands for
    [`${Date.now()}_${Math.random().toString(36).substr(2, 9)}`]. *)
Definition task_resolve (t : Task) (stamp : string) : M (list string * string) :=
  files ← mapM_M getAudioFile (task_fileIds t);
  let filePaths := upload_path <$> files in
  let extension :=
    if decide (MergeJob.outputFormat (task_job t) = "wav") then "wav" else "mp3" in
  let outputFilename := "merged_" +:+ stamp +:+ "." +:+ extension in
  mret (filePaths, outputFilename).

(** The progress callback:
    [storage.updateMergeJob(job.id, { progress: Math.floor(progress) })].
    The promise is not awaited: the callback issues the call and returns,
    and the call joins those in flight (the job id and the value
    reported). *)
Definition task_progress (t : Task) (progress : Q) (inflight : list (Z * Q))
    : list (Z * Q) :=
  inflight ++ [(task_id t, progress)].

(** The statement of a call in flight, when the database applies it. *)
Definition land (jobId : Z) (progress : Q) : M unit :=
  _ ← updateMergeJob jobId (patch_progress progress);
  mret tt.

(** The final update, after [await mergeAudioFiles(..)]. *)
Definition task_complete (t : Task) (outputFilename : string) (now : Z) : M unit :=
  _ ← updateMergeJob (task_id t) (patch_completed outputFilename now);
  mret tt.

(** The [catch] block:
    [await storage.updateMergeJob(job.id, { status: "failed" })]. *)
Definition task_catch (t : Task) : M unit :=
  _ ← updateMergeJob (task_id t) patch_failed;
  mret tt.

(** ** Routes of [server/routes.ts] *)

(** [GET /api/mixmerge/files]. *)
Definition route_get_files (req : Request) : M Response :=
  files ← getAudioFiles (Some (user_sub req));
  mret (JsonFiles files).

(** [POST /api/mixmerge/upload]; [metadata] is the duration found by
    [getAudioMetadata], [None] when the probe throws.  The response's
    [url] and [metadata] members are left out. *)
Definition route_upload (req : Request) (metadata : option Q) (now : Z) : M Response :=
  match file req with
  | None => mret (Message 400 "No file uploaded")
  | Some f =>
      match metadata with
      | None => mret (Message 500 "Failed to upload audio file")
      | Some d =>
          audioFile ← createAudioFile
            (InsertAudioFile.mk (file_filename f) (file_originalname f) (file_size f)
               (Qfloor d) (file_mimetype f) (user_sub req)) now;
          mret (JsonFile audioFile)
      end
  end.

(** [DELETE /api/mixmerge/files/:id]. *)
Definition route_delete_file (req : Request) : M Response :=
  let id := params_id req in
  let userId := user_sub req in
  file ← getAudioFile id;
  match file with
  | None => mret (Message 404 "File not found")
  | Some file =>
      deleted ← deleteAudioFile id userId;
      if negb deleted then mret (Message 403 "Access denied")
      else
        _ ← deleteFile ("uploads/" +:+ AudioFile.filename file);
        mret (Message 200 "File deleted successfully")
  end.

(** [GET /api/mixmerge/jobs]. *)
Definition route_get_jobs (req : Request) : M Response :=
  jobs ← getMergeJobs (Some (user_sub req));
  mret (JsonJobs jobs).

(** The guard of the merge route:
    [!fileIds || !Array.isArray(fileIds) || fileIds.length === 0]. *)
Definition fileIds_guard (f : FileIdsField) : option (list Z) :=
  match f with
  | FidsArray (id :: ids) => Some (id :: ids)
  | _ => None
  end.

(** [POST /api/mixmerge/merge], up to and including
    [await storage.createMergeJob(..)]. *)
Definition post_merge_create (req : Request) (now : Z) : M (Response + MergeJob.t) :=
  let userId := user_sub req in
  match fileIds_guard (body_fileIds (body req)) with
  | None => mret (inl (Message 400 "File IDs are required"))
  | Some _ =>
      job ← createMergeJob
        (InsertMergeJob.mk
           (or_string (body_name (body req)) "Untitled Merge")
           pending
           (or_false (body_removeSilence (body req)))
           (or_string (body_outputFormat (body req)) "mp3")
           userId) now;
      mret (inr job)
  end.

(** The rest of the route: [await storage.addJobFiles(job.id, fileIds)],
    [setImmediate(..)] and [res.json(job)].  The callback is returned as a
    queued task; nothing of it runs here. *)
Definition post_merge_link (req : Request) (job : MergeJob.t) : M (Task * Response) :=
  let fileIds := default [] (fileIds_guard (body_fileIds (body req))) in
  _ ← addJobFiles (MergeJob.id job) fileIds;
  mret (mkTask job fileIds (body_removeSilence (body req)) Queued, JsonJob job).

(** The whole route. *)
Definition route_post_merge (req : Request) (now : Z) : M (option Task * Response) :=
  r ← post_merge_create req now;
  match r with
  | inl res => mret (None, res)
  | inr job => '(t, res) ← post_merge_link req job; mret (Some t, res)
  end.

(** [GET /api/mixmerge/jobs/:id]. *)
Definition route_get_job (req : Request) : M Response :=
  let id := params_id req in
  job ← getMergeJob id;
  match job with
  | None => mret (Message 404 "Job not found")
  | Some job => mret (JsonJob job)
  end.

(** [DELETE /api/mixmerge/jobs/:id]. *)
Definition route_delete_job (req : Request) : M Response :=
  let id := params_id req in
  let userId := user_sub req in
  deleted ← deleteMergeJob id userId;
  if negb deleted then mret (Message 404 "Job not found or access denied")
  else mret (Message 200 "Job deleted successfully").

(** [DELETE /api/mixmerge/jobs/:id] under either loading of the storage
    module. *)
Definition route_delete_job_loaded (loading : Loading) (req : Request) : M Response :=
  let id := params_id req in
  let userId := user_sub req in
  deleted ← deleteMergeJob_loaded loading id userId;
  if negb deleted then mret (Message 404 "Job not found or access denied")
  else mret (Message 200 "Job deleted successfully").

(** ** The server as a transition system

    Requests and background tasks interleave at the [await]s.  The state
    holds the durable world, the merge requests suspended between
    [createMergeJob] and [addJobFiles], the callbacks handed to
    [setImmediate] that have not finished, the progress writes that were
    issued and have not settled, and the rejections that no handler
    took (one job id for each). *)

Record Server := mkServer {
  world : World;
  suspended : list (Request * MergeJob.t);
  tasks : list Task;
  inflight : list (Z * Q);
  unhandled : list Z
}.

Definition boot : Server := mkServer empty_world [] [] [] [].

(** What happens next.  A route runs (the merge route in two parts,
    around its [await] between the two inserts), or the callback of a job
    advances past one of its [await]s, or a progress write settles:
    - [EvStart]: the first update is applied;
    - [EvResolve]: [Promise.all] over the file lookups is fulfilled;
    - [EvReport]: the encoder calls the progress callback, which issues a
      write;
    - [EvLand], [EvLost]: a write in flight is applied, or its promise
      rejects, which nothing handles;
    - [EvResolved]: the encoder resolves and the final update is applied;
    - [EvRejected]: the promise awaited in the [try] block rejects (the
      first update, the file lookups or the encoder, as the stage tells)
      and the update of the [catch] block is applied;
    - [EvUnsaved]: the encoder resolves, the final update rejects and
      the update of the [catch] block is applied;
    - [EvEscaped]: the [try] block throws, after the encoder has written
      its output when [encoded], and the update of the [catch] block
      rejects as well: the promise of the callback rejects, and
      [setImmediate] has dropped it. *)
Inductive Event :=
  | EvUpload (req : Request) (metadata : option Q) (now : Z)
  | EvDeleteFile (req : Request)
  | EvMerge (req : Request) (now : Z)
  | EvMergeResume (jobId : Z)
  | EvDeleteJob (req : Request)
  | EvStart (jobId : Z)
  | EvResolve (jobId : Z) (stamp : string)
  | EvReport (jobId : Z) (progress : Q)
  | EvLand (jobId : Z) (progress : Q)
  | EvLost (jobId : Z) (progress : Q)
  | EvResolved (jobId : Z) (now : Z)
  | EvRejected (jobId : Z)
  | EvUnsaved (jobId : Z)
  | EvEscaped (jobId : Z) (encoded : bool).

Definition find_task (jobId : Z) (ts : list Task) : option Task :=
  head (filter (λ t, task_id t = jobId) ts).

Definition drop_task (jobId : Z) (ts : list Task) : list Task :=
  filter (λ t, task_id t ≠ jobId) ts.

Definition with_stage (t : Task) (st : Stage) : Task :=
  mkTask (task_job t) (task_fileIds t) (task_removeSilence t) st.

Definition set_stage (jobId : Z) (st : Stage) (ts : list Task) : list Task :=
  (λ t, if decide (task_id t = jobId) then with_stage t st else t) <$> ts.

Definition find_suspended (jobId : Z) (rs : list (Request * MergeJob.t))
    : option (Request * MergeJob.t) :=
  head (filter (λ r : Request * MergeJob.t, MergeJob.id r.2 = jobId) rs).

Definition drop_suspended (jobId : Z) (rs : list (Request * MergeJob.t))
    : list (Request * MergeJob.t) :=
  filter (λ r : Request * MergeJob.t, MergeJob.id r.2 ≠ jobId) rs.

(** One write less in flight: the first occurrence goes. *)
Fixpoint settle (x : Z * Q) (l : list (Z * Q)) : list (Z * Q) :=
  match l with
  | [] => []
  | y :: l' => if decide (y = x) then l' else y :: settle x l'
  end.

(** The world once the encoder of a task has resolved. *)
Definition after_encoding (t : Task) (filePaths : list string) (outputFilename : string)
    (w : World) : World :=
  (mergeAudioFiles filePaths ("uploads/" +:+ outputFilename) (task_removeSilence t)
     (MergeJob.outputFormat (task_job t)) w).2.

(** One step of the server.  An event that finds nothing to act on (no
    such suspended request, no such task, a task at another stage, no
    such write in flight) leaves the state as it is. *)
Definition step (s : Server) (e : Event) : Server :=
  match e with
  | EvUpload req metadata now =>
      let w := (upload_single (file_filename <$> file req) (world s)).2 in
      mkServer (route_upload req metadata now w).2 (suspended s) (tasks s)
        (inflight s) (unhandled s)
  | EvDeleteFile req =>
      mkServer (route_delete_file req (world s)).2 (suspended s) (tasks s)
        (inflight s) (unhandled s)
  | EvMerge req now =>
      match post_merge_create req now (world s) with
      | (inl _, w) => mkServer w (suspended s) (tasks s) (inflight s) (unhandled s)
      | (inr job, w) =>
          mkServer w (suspended s ++ [(req, job)]) (tasks s) (inflight s) (unhandled s)
      end
  | EvMergeResume jobId =>
      match find_suspended jobId (suspended s) with
      | None => s
      | Some (req, job) =>
          let '((t, _), w) := post_merge_link req job (world s) in
          mkServer w (drop_suspended jobId (suspended s)) (tasks s ++ [t])
            (inflight s) (unhandled s)
      end
  | EvDeleteJob req =>
      mkServer (route_delete_job req (world s)).2 (suspended s) (tasks s)
        (inflight s) (unhandled s)
  | EvStart jobId =>
      match find_task jobId (tasks s) with
      | Some t =>
          match task_stage t with
          | Queued =>
              mkServer (task_start t (world s)).2 (suspended s)
                (set_stage jobId Started (tasks s)) (inflight s) (unhandled s)
          | _ => s
          end
      | None => s
      end
  | EvResolve jobId stamp =>
      match find_task jobId (tasks s) with
      | Some t =>
          match task_stage t with
          | Started =>
              let '((filePaths, outputFilename), w) := task_resolve t stamp (world s) in
              mkServer w (suspended s)
                (set_stage jobId (Encoding filePaths outputFilename) (tasks s))
                (inflight s) (unhandled s)
          | _ => s
          end
      | None => s
      end
  | EvReport jobId p =>
      match find_task jobId (tasks s) with
      | Some t =>
          match task_stage t with
          | Encoding _ _ =>
              mkServer (world s) (suspended s) (tasks s)
                (task_progress t p (inflight s)) (unhandled s)
          | _ => s
          end
      | None => s
      end
  | EvLand jobId p =>
      if decide ((jobId, p) ∈ inflight s)
      then mkServer (land jobId p (world s)).2 (suspended s) (tasks s)
             (settle (jobId, p) (inflight s)) (unhandled s)
      else s
  | EvLost jobId p =>
      if decide ((jobId, p) ∈ inflight s)
      then mkServer (world s) (suspended s) (tasks s)
             (settle (jobId, p) (inflight s)) (unhandled s ++ [jobId])
      else s
  | EvResolved jobId now =>
      match find_task jobId (tasks s) with
      | Some t =>
          match task_stage t with
          | Encoding filePaths outputFilename =>
              let w := after_encoding t filePaths outputFilename (world s) in
              mkServer (task_complete t outputFilename now w).2 (suspended s)
                (drop_task jobId (tasks s)) (inflight s) (unhandled s)
          | _ => s
          end
      | None => s
      end
  | EvRejected jobId =>
      match find_task jobId (tasks s) with
      | Some t =>
          mkServer (task_catch t (world s)).2 (suspended s)
            (drop_task jobId (tasks s)) (inflight s) (unhandled s)
      | None => s
      end
  | EvUnsaved jobId =>
      match find_task jobId (tasks s) with
      | Some t =>
          match task_stage t with
          | Encoding filePaths outputFilename =>
              let w := after_encoding t filePaths outputFilename (world s) in
              mkServer (task_catch t w).2 (suspended s)
                (drop_task jobId (tasks s)) (inflight s) (unhandled s)
          | _ => s
          end
      | None => s
      end
  | EvEscaped jobId false =>
      match find_task jobId (tasks s) with
      | Some t =>
          mkServer (world s) (suspended s) (drop_task jobId (tasks s))
            (inflight s) (unhandled s ++ [jobId])
      | None => s
      end
  | EvEscaped jobId true =>
      match find_task jobId (tasks s) with
      | Some t =>
          match task_stage t with
          | Encoding filePaths outputFilename =>
              mkServer (after_encoding t filePaths outputFilename (world s)) (suspended s)
                (drop_task jobId (tasks s)) (inflight s) (unhandled s ++ [jobId])
          | _ => s
          end
      | None => s
      end
  end.

Definition run (s : Server) (es : list Event) : Server := foldl step s es.

(** The progress reports addressed to one job in a trace. *)
Definition reports_of (jobId : Z) (es : list Event) : list Q :=
  omap (λ e, match e with
             | EvReport i p => if decide (i = jobId) then Some p else None
             | _ => None
             end) es.

(** The row of a job, as a poll of [GET /api/mixmerge/jobs/:id] finds it. *)
Definition poll (s : Server) (jobId : Z) : option MergeJob.t :=
  (getMergeJob jobId (world s)).1.

(** The links of a job, in table order. *)
Definition links_of (w : World) (jobId : Z) : list Z :=
  MergeJobFile.audioFileId <$> filter (λ l, MergeJobFile.jobId l = jobId) (mergeJobFiles w).

(** ** Serving stored files *)

Inductive FileResponse :=
  | SendFile (filePath : string)
  | FileNotFound.

(** [GET /uploads/:filename]: [fs.existsSync] decides; the path sent is
    the one tested.  [filename] is a plain file name, as the stored names
    are; a parameter that decodes to a path through [../] is resolved by
    the file system and is not covered. *)
Definition route_get_upload (filename : string) (w : World) : FileResponse :=
  let filePath := "uploads/" +:+ filename in
  if decide (filePath ∈ disk w) then SendFile filePath else FileNotFound.

(** ** Invariants of the transition system *)


(** The part of it that does not depend on when the progress writes
    land. *)
Definition job_sound (j : MergeJob.t) : Prop :=
  (is_Some (MergeJob.outputFile j) ↔ MergeJob.status j = completed)
  ∧ (MergeJob.status j = completed → is_Some (MergeJob.completedAt j)).

Definition terminal (st : JobStatus) : Prop := st = completed ∨ st = failed.

(** The transitions of the status column; the last one is taken when the
    first update of the callback is rejected. *)
Inductive status_next : JobStatus → JobStatus → Prop :=
  | next_processing : status_next pending processing
  | next_completed : status_next processing completed
  | next_failed : status_next processing failed
  | next_failed_unstarted : status_next pending failed.

(** The status a job has while its task is at a given stage. *)
Definition stage_status (st : Stage) : JobStatus :=
  match st with Queued => pending | _ => processing end.

(** What holds in every state the server reaches: ids below the serial
    counter, every row well formed, and every row in step with the
    suspended request or the task that works on it. *)
Record invariant (s : Server) : Prop := mkInvariant {
  inv_jobs_fresh :
    Forall (λ j, MergeJob.id j < mergeJobs_seq (world s)) (mergeJobs (world s));
  inv_suspended_fresh :
    Forall (λ r : Request * MergeJob.t, MergeJob.id r.2 < mergeJobs_seq (world s))
      (suspended s);
  inv_tasks_fresh :
    Forall (λ t, task_id t < mergeJobs_seq (world s)) (tasks s);
  inv_apart :
    ∀ (r : Request * MergeJob.t) t,
      r ∈ suspended s → t ∈ tasks s → MergeJob.id r.2 ≠ task_id t;
  inv_job_sound : Forall job_sound (mergeJobs (world s));
  inv_suspended :
    ∀ (r : Request * MergeJob.t) j,
      r ∈ suspended s → j ∈ mergeJobs (world s) → MergeJob.id j = MergeJob.id r.2 →
      MergeJob.status j = pending;
  inv_tasks :
    ∀ t j,
      t ∈ tasks s → j ∈ mergeJobs (world s) → MergeJob.id j = task_id t →
      MergeJob.status j = stage_status (task_stage t)
}.

(** The primary key of [audioFiles]: ids are below the serial counter and
    no two rows share one. *)
Definition files_ok (w : World) : Prop :=
  Forall (λ f, AudioFile.id f < audioFiles_seq w) (audioFiles w)
  ∧ NoDup (AudioFile.id <$> audioFiles w).

(** How one event may change the row of job [i], the writes [fl] being
    in flight. *)
Inductive job_move (fl : list (Z * Q)) (i : Z) : Event → MergeJob.t → MergeJob.t → Prop :=
  | move_none e j : job_move fl i e j j
  | move_start j :
      MergeJob.status j = pending →
      job_move fl i (EvStart i) j
        (JobPatch.apply patch_processing j)
  | move_land j p :
      (i, p) ∈ fl →
      job_move fl i (EvLand i p) j
        (JobPatch.apply (patch_progress p) j)
  | move_resolved j f now :
      MergeJob.status j = processing →
      job_move fl i (EvResolved i now) j
        (JobPatch.apply (patch_completed f now) j)
  | move_rejected j :
      MergeJob.status j = pending ∨ MergeJob.status j = processing →
      job_move fl i (EvRejected i) j
        (JobPatch.apply patch_failed j)
  | move_unsaved j :
      MergeJob.status j = processing →
      job_move fl i (EvUnsaved i) j
        (JobPatch.apply patch_failed j).

(** What one step does to the [mergeJobs] table, to its counter, to the
    suspended requests and to the tasks. *)
Inductive step_effect (s s' : Server) : Event → Prop :=
  | effect_frame e :
      mergeJobs (world s') = mergeJobs (world s) →
      mergeJobs_seq (world s') = mergeJobs_seq (world s) →
      suspended s' = suspended s →
      tasks s' = tasks s →
      step_effect s s' e
  | effect_insert req now job :
      MergeJob.id job = mergeJobs_seq (world s) →
      MergeJob.status job = pending →
      MergeJob.progress job = 0 →
      MergeJob.outputFile job = None →
      mergeJobs (world s') = mergeJobs (world s) ++ [job] →
      mergeJobs_seq (world s') = mergeJobs_seq (world s) + 1 →
      suspended s' = suspended s ++ [(req, job)] →
      tasks s' = tasks s →
      step_effect s s' (EvMerge req now)
  | effect_resume req job t :
      (req, job) ∈ suspended s →
      task_job t = job →
      task_stage t = Queued →
      mergeJobs (world s') = mergeJobs (world s) →
      mergeJobs_seq (world s') = mergeJobs_seq (world s) →
      suspended s' = drop_suspended (MergeJob.id job) (suspended s) →
      tasks s' = tasks s ++ [t] →
      step_effect s s' (EvMergeResume (MergeJob.id job))
  | effect_delete req :
      mergeJobs (world s')
      = filter (λ j, MergeJob.id j ≠ params_id req) (mergeJobs (world s)) →
      mergeJobs_seq (world s') = mergeJobs_seq (world s) →
      suspended s' = suspended s →
      tasks s' = tasks s →
      step_effect s s' (EvDeleteJob req)
  | effect_start t :
      t ∈ tasks s →
      task_stage t = Queued →
      mergeJobs (world s')
      = set_where_id (task_id t) patch_processing <$> mergeJobs (world s) →
      mergeJobs_seq (world s') = mergeJobs_seq (world s) →
      suspended s' = suspended s →
      tasks s' = set_stage (task_id t) Started (tasks s) →
      step_effect s s' (EvStart (task_id t))
  | effect_resolve t stamp filePaths outputFilename :
      t ∈ tasks s →
      task_stage t = Started →
      mergeJobs (world s') = mergeJobs (world s) →
      mergeJobs_seq (world s') = mergeJobs_seq (world s) →
      suspended s' = suspended s →
      tasks s' = set_stage (task_id t) (Encoding filePaths outputFilename) (tasks s) →
      step_effect s s' (EvResolve (task_id t) stamp)
  | effect_land i p :
      (i, p) ∈ inflight s →
      mergeJobs (world s')
      = set_where_id i (patch_progress p) <$> mergeJobs (world s) →
      mergeJobs_seq (world s') = mergeJobs_seq (world s) →
      suspended s' = suspended s →
      tasks s' = tasks s →
      step_effect s s' (EvLand i p)
  | effect_resolved t now outputFilename :
      t ∈ tasks s →
      stage_status (task_stage t) = processing →
      mergeJobs (world s')
      = set_where_id (task_id t) (patch_completed outputFilename now) <$> mergeJobs (world s) →
      mergeJobs_seq (world s') = mergeJobs_seq (world s) →
      suspended s' = suspended s →
      tasks s' = drop_task (task_id t) (tasks s) →
      step_effect s s' (EvResolved (task_id t) now)
  | effect_rejected t :
      t ∈ tasks s →
      mergeJobs (world s')
      = set_where_id (task_id t) patch_failed <$> mergeJobs (world s) →
      mergeJobs_seq (world s') = mergeJobs_seq (world s) →
      suspended s' = suspended s →
      tasks s' = drop_task (task_id t) (tasks s) →
      step_effect s s' (EvRejected (task_id t))
  | effect_unsaved t :
      t ∈ tasks s →
      stage_status (task_stage t) = processing →
      mergeJobs (world s')
      = set_where_id (task_id t) patch_failed <$> mergeJobs (world s) →
      mergeJobs_seq (world s') = mergeJobs_seq (world s) →
      suspended s' = suspended s →
      tasks s' = drop_task (task_id t) (tasks s) →
      step_effect s s' (EvUnsaved (task_id t))
  | effect_escaped t encoded :
      t ∈ tasks s →
      mergeJobs (world s') = mergeJobs (world s) →
      mergeJobs_seq (world s') = mergeJobs_seq (world s) →
      suspended s' = suspended s →
      tasks s' = drop_task (task_id t) (tasks s) →
      step_effect s s' (EvEscaped (task_id t) encoded).

(** ** Sample data *)

Module Sample.
Definition no_body : MergeBody := mkMergeBody FidsAbsent None None None.

Definition upload_of (user filename : string) : Request :=
  mkRequest user 0 no_body (Some (mkUploadedFile filename filename 4096 "audio/mpeg")).

Definition merge_of (user : string) (ids : list Z) (format : string) : Request :=
  mkRequest user 0 (mkMergeBody (FidsArray ids) (Some true) (Some format) (Some "mix")) None.

Definition on_id (user : string) (id : Z) : Request :=
  mkRequest user id no_body None.

(** Alice has uploaded two files, Bob one. *)
Definition uploads : list Event :=
  [ EvUpload (upload_of "alice" "a1.mp3") (Some (5 # 2)%Q) 100;
    EvUpload (upload_of "bob" "b1.mp3") (Some (7 # 2)%Q) 110;
    EvUpload (upload_of "alice" "a2.mp3") (Some (3 # 1)%Q) 120 ].

(** Alice's merge of her two files, up to its callback in the queue. *)
Definition queued : list Event :=
  uploads ++
  [ EvMerge (merge_of "alice" [1; 3] "wav") 200;
    EvMergeResume 1 ].

(** The same, up to the middle of the encoding, each progress write
    landing as soon as it is issued. *)
Definition merging : list Event :=
  queued ++
  [ EvStart 1;
    EvResolve 1 "1700000000000_k3j9x0q2a";
    EvReport 1 (25 # 2)%Q; EvLand 1 (25 # 2)%Q;
    EvReport 1 (121 # 2)%Q; EvLand 1 (121 # 2)%Q ].

Definition merged : list Event :=
  merging ++ [ EvReport 1 (199 # 2)%Q; EvLand 1 (199 # 2)%Q; EvResolved 1 300 ].

(** The last write lands after the final update. *)
Definition overtaken : list Event :=
  merging ++ [ EvReport 1 (199 # 2)%Q; EvResolved 1 300; EvLand 1 (199 # 2)%Q ].

(** The states these traces lead to. *)
Definition uploaded : Server := Eval vm_compute in run boot uploads.
Definition encoding : Server := Eval vm_compute in run boot merging.
Definition finished : Server := Eval vm_compute in run boot merged.
End Sample.

(** * Todos: ticks and completion

    [addTodoTick], [completeAllTicks], [markTodoComplete] and [deleteTodo]
    of [DatabaseStorage], behind [PUT /api/todos/:id/tick],
    [.../complete-all], [.../complete] and [DELETE /api/todos/:id].  A row
    carries the columns these methods read or write, and its title for the
    rest; the table is passed in and out. *)

Module Todo.
Record t := mk {
  id : Z;
  title : string;
  assignedBy : string;
  assignedTo : string;
  currentTicks : Z;
  totalTicks : Z;
  status : string;
  completedAt : option Z;
  updatedAt : Z
}.
End Todo.

Module Todos.

(** [.set({ currentTicks, status, completedAt, updatedAt })] on one row. *)
Definition set_ticks (currentTicks : Z) (status : string) (completedAt : option Z)
    (updatedAt : Z) (r : Todo.t) : Todo.t :=
  Todo.mk (Todo.id r) (Todo.title r) (Todo.assignedBy r) (Todo.assignedTo r)
    currentTicks (Todo.totalTicks r) status completedAt updatedAt.

(** [addTodoTick(id, userId)]: the row is selected by id and assignee;
    the update is by id alone. *)
Definition addTodoTick (id : Z) (userId : string) (now : Z) (todos : list Todo.t)
    : option Todo.t * list Todo.t :=
  match head (filter (λ r, Todo.id r = id ∧ Todo.assignedTo r = userId) todos) with
  | None => (None, todos)
  | Some todo =>
      let newTicks := Z.min (Todo.currentTicks todo + 1) (Todo.totalTicks todo) in
      let isCompleted := bool_decide (Todo.totalTicks todo ≤ newTicks) in
      let rows :=
        (λ r, if decide (Todo.id r = id)
              then set_ticks newTicks
                     (if isCompleted then "completed" else "in_progress")
                     (if isCompleted then Some now else None) now r
              else r) <$> todos in
      (head (filter (λ r, Todo.id r = id) rows), rows)
  end.

(** [completeAllTicks(id, userId)]: [currentTicks] is set to the row's
    own [totalTicks]. *)
Definition completeAllTicks (id : Z) (userId : string) (now : Z) (todos : list Todo.t)
    : option Todo.t * list Todo.t :=
  let hit := λ r, Todo.id r = id ∧ Todo.assignedTo r = userId in
  let rows :=
    (λ r, if decide (hit r)
          then set_ticks (Todo.totalTicks r) "completed" (Some now) now r
          else r) <$> todos in
  (head (filter hit rows), rows).

(** [markTodoComplete(id, userId)]: the ticks are left alone. *)
Definition markTodoComplete (id : Z) (userId : string) (now : Z) (todos : list Todo.t)
    : option Todo.t * list Todo.t :=
  let hit := λ r, Todo.id r = id ∧ Todo.assignedTo r = userId in
  let rows :=
    (λ r, if decide (hit r)
          then set_ticks (Todo.currentTicks r) "completed" (Some now) now r
          else r) <$> todos in
  (head (filter hit rows), rows).

(** [deleteTodo(id, userId)]: the assigner and the assignee may delete. *)
Definition deleteTodo (id : Z) (userId : string) (todos : list Todo.t)
    : bool * list Todo.t :=
  let hit := λ r, Todo.id r = id
                  ∧ (Todo.assignedBy r = userId ∨ Todo.assignedTo r = userId) in
  (bool_decide (0 < Z.of_nat (length (filter hit todos))),
   filter (λ r, ¬ hit r) todos).

(** [addTodoTick] called once for each time of a list, in turn. *)
Fixpoint tick_each (id : Z) (userId : string) (nows : list Z) (todos : list Todo.t)
    : option Todo.t * list Todo.t :=
  match nows with
  | [] => (None, todos)
  | [now] => addTodoTick id userId now todos
  | now :: rest => tick_each id userId rest (addTodoTick id userId now todos).2
  end.

(** The row of a todo after [k] ticks, the last one at time [now]. *)
Definition ticked (k : Z) (now : Z) (r : Todo.t) : Todo.t :=
  let done := bool_decide (Todo.totalTicks r ≤ Todo.currentTicks r + k) in
  set_ticks (Z.min (Todo.currentTicks r + k) (Todo.totalTicks r))
    (if done then "completed" else "in_progress")
    (if done then Some now else None) now r.

End Todos.

Module TodoSample.
Definition todos : list Todo.t :=
  [ Todo.mk 1 "cut the intro" "alice" "bob" 1 3 "in_progress" None 10;
    Todo.mk 2 "thumbnail" "bob" "bob" 0 1 "pending" None 11;
    Todo.mk 3 "upload" "alice" "carol" 0 5 "pending" None 12 ].
Definition cut : Todo.t := Todo.mk 1 "cut the intro" "alice" "bob" 1 3 "in_progress" None 10.
End TodoSample.

(** * Pinboard polls: voting

    [votePinboardPoll] of [DatabaseStorage] behind
    [POST /api/pinboard/polls/:id/vote].  The [votes] column is a JSON
    object from user id to option index, or null. *)

Module Poll.
Record t := mk {
  id : Z;
  question : string;
  options : list string;
  votes : option (gmap string Z);
  createdBy : string;
  updatedAt : Z
}.
End Poll.

Module Polls.

(** [.set({ votes, updatedAt })] on one row. *)
Definition set_votes (votes : gmap string Z) (updatedAt : Z) (r : Poll.t) : Poll.t :=
  Poll.mk (Poll.id r) (Poll.question r) (Poll.options r) (Some votes)
    (Poll.createdBy r) updatedAt.

(** [votePinboardPoll(pollId, userId, optionIndex)]:
    [votes = poll.votes || {}; votes[userId] = optionIndex]. *)
Definition votePinboardPoll (pollId : Z) (userId : string) (optionIndex : Z) (now : Z)
    (polls : list Poll.t) : option Poll.t * list Poll.t :=
  match head (filter (λ r, Poll.id r = pollId) polls) with
  | None => (None, polls)
  | Some poll =>
      let votes := <[userId := optionIndex]> (default ∅ (Poll.votes poll)) in
      let rows :=
        (λ r, if decide (Poll.id r = pollId) then set_votes votes now r else r) <$> polls in
      (head (filter (λ r, Poll.id r = pollId) rows), rows)
  end.

Inductive VoteResponse :=
  | VoteMessage (code : Z) (message : string)
  | VoteJson (poll : Poll.t).

(** [POST /api/pinboard/polls/:id/vote]; [optionIndex] is [None] when
    [typeof optionIndex !== 'number'], and an integer number otherwise. *)
Definition route_vote (pollId : Z) (userId : string) (optionIndex : option Z) (now : Z)
    (polls : list Poll.t) : VoteResponse * list Poll.t :=
  match optionIndex with
  | None => (VoteMessage 400 "Option index is required", polls)
  | Some k =>
      match votePinboardPoll pollId userId k now polls with
      | (None, polls') => (VoteMessage 404 "Poll not found", polls')
      | (Some poll, polls') => (VoteJson poll, polls')
      end
  end.

End Polls.

Module PollSample.
Definition lunch : Poll.t :=
  Poll.mk 1 "Lunch?" ["pizza"; "sushi"] (Some {[ "alice" := 0 ]}) "alice" 10.
Definition polls : list Poll.t :=
  [ lunch; Poll.mk 2 "Release day?" ["mon"; "fri"] None "bob" 11 ].
End PollSample.

(** * System settings and the legacy role names

    [getSystemSettings], [getSystemSetting] and [setSystemSetting] of
    [DatabaseStorage], the admin route [PUT /api/admin/legacy-roles/:roleKey]
    that writes through them, and the client hook [useLegacyRoleNames]
    that reads the public listing [GET /api/system-settings]. *)

Module SystemSetting.
(** The columns the storage code reads and writes. *)
Record t := mk {
  key : string;
  value : string;
  updatedAt : Z
}.
End SystemSetting.

(** [req.session.user]. *)
Record SessionUser := mkSessionUser {
  session_id : string;
  session_role : string
}.

Module Settings.

Definition getSystemSettings (rows : list SystemSetting.t) : list SystemSetting.t := rows.

Definition getSystemSetting (key : string) (rows : list SystemSetting.t)
    : option SystemSetting.t :=
  head (filter (λ r, SystemSetting.key r = key) rows).

(** [setSystemSetting(key, value)]: update where the key exists, insert
    otherwise; the first returned row is the result. *)
Definition setSystemSetting (key value : string) (now : Z) (rows : list SystemSetting.t)
    : option SystemSetting.t * list SystemSetting.t :=
  match getSystemSetting key rows with
  | Some _ =>
      let rows' :=
        (λ r, if decide (SystemSetting.key r = key)
              then SystemSetting.mk (SystemSetting.key r) value now else r) <$> rows in
      (head (filter (λ r, SystemSetting.key r = key) rows'), rows')
  | None =>
      let created := SystemSetting.mk key value now in
      (Some created, rows ++ [created])
  end.

(** The key [`legacy_role_${roleKey}_name`]. *)
Definition legacy_role_key (roleKey : string) : string :=
  "legacy_role_" +:+ roleKey +:+ "_name".

(** [PUT /api/admin/legacy-roles/:roleKey] behind [isAuthenticated];
    the answer is the status code and the message. *)
Definition route_put_legacy_role (session : option SessionUser) (roleKey name : string)
    (now : Z) (rows : list SystemSetting.t) : (Z * string) * list SystemSetting.t :=
  match session with
  | None => ((401, "Not authenticated"), rows)
  | Some user =>
      if decide (session_role user ≠ "admin")
      then ((403, "Admin access required"), rows)
      else ((200, "Legacy role name updated successfully"),
            (setSystemSetting (legacy_role_key roleKey) name now rows).2)
  end.

(** [LEGACY_ROLES] of the hook: key, name, description. *)
Definition LEGACY_ROLES : list (string * string * string) :=
  [ ("admin", "Legacy Admin", "Full administrative access (legacy role)");
    ("manager", "Legacy Manager", "Team and project management access (legacy role)");
    ("employee", "Legacy Employee", "Basic team member access (legacy role)") ].

(** [getLegacyRoleName(roleKey)] over the fetched [systemSettings]:
    [setting?.value || LEGACY_ROLES.find(..)?.name || `Legacy ${roleKey}`]. *)
Definition getLegacyRoleName (systemSettings : list SystemSetting.t) (roleKey : string)
    : string :=
  let setting :=
    head (filter (λ s, SystemSetting.key s = legacy_role_key roleKey) systemSettings) in
  or_string (SystemSetting.value <$> setting)
    (or_string ((λ r, r.1.2) <$> head (filter (λ r, r.1.1 = roleKey) LEGACY_ROLES))
       ("Legacy " +:+ roleKey)).

End Settings.

(** ** The client's copy of the settings

    [useLegacyRoleNames] reads the data of the query
    [["/api/system-settings"]], fetched with [GET /api/system-settings]
    and kept for its [staleTime]; the rename mutation of the admin panel
    invalidates, on success, the queries [["/api/admin/users"]] and
    [["/api/admin/system-settings"]].  Of the query client this takes
    that [invalidateQueries] marks the queries whose key starts with the
    given key, and that the data of a query stays until the query is
    fetched again. *)

Module Cache.

(** A query of the cache: its key, whether it is marked invalid, and its
    data when it holds a settings listing. *)
Record Query := mkQuery {
  queryKey : list string;
  isInvalidated : bool;
  data : list SystemSetting.t
}.

(** [queryClient.invalidateQueries({ queryKey })]. *)
Definition invalidateQueries (key : list string) (cache : list Query) : list Query :=
  (λ q, if decide (key `prefix_of` queryKey q)
        then mkQuery (queryKey q) true (data q) else q) <$> cache.

(** [onSuccess] of [updateRoleNameMutation], as far as the cache goes. *)
Definition updateRoleName_onSuccess (cache : list Query) : list Query :=
  invalidateQueries ["/api/admin/system-settings"]
    (invalidateQueries ["/api/admin/users"] cache).

(** The queries of the hook's key. *)
Definition settings_queries (cache : list Query) : list Query :=
  filter (λ q, queryKey q = ["/api/system-settings"]) cache.

(** [const { data: systemSettings = [] } = useQuery({ queryKey:
    ["/api/system-settings"], .. })]. *)
Definition systemSettings (cache : list Query) : list SystemSetting.t :=
  match head (settings_queries cache) with
  | Some q => data q
  | None => []
  end.

End Cache.

Module SettingSample.
Definition rows : list SystemSetting.t :=
  [ SystemSetting.mk "site_name" "Studio" 1;
    SystemSetting.mk "legacy_role_manager_name" "Producer" 2 ].
Definition admin : SessionUser := mkSessionUser "u1" "admin".
End SettingSample.

(** * Roles and permissions

    [getRole], [deleteRole], [getUserRoles] and [getUserPermissions] of
    [DatabaseStorage], and the admin route [DELETE /api/admin/roles/:id]. *)

Module Role.
(** The columns the storage code reads; [permissions] and [isSystem]
    may be null. *)
Record t := mk {
  id : Z;
  name : string;
  permissions : option (list string);
  isSystem : option bool
}.
End Role.

Module UserRole.
Record t := mk {
  userId : string;
  roleId : Z
}.
End UserRole.

Module Roles.

Definition getRole (id : Z) (roles : list Role.t) : option Role.t :=
  head (filter (λ r, Role.id r = id) roles).

(** [deleteRole(id)]: the error thrown for a system role is caught by the
    method's own [catch], which returns [false]. *)
Definition deleteRole (id : Z) (roles : list Role.t) : bool * list Role.t :=
  match getRole id roles with
  | None => (false, roles)
  | Some role =>
      if or_false (Role.isSystem role) then (false, roles)
      else (true, filter (λ r, Role.id r ≠ id) roles)
  end.

(** [DELETE /api/admin/roles/:id] behind [isAuthenticated]. *)
Definition route_delete_role (session : option SessionUser) (id : Z) (roles : list Role.t)
    : (Z * string) * list Role.t :=
  match session with
  | None => ((401, "Not authenticated"), roles)
  | Some user =>
      if decide (session_role user ≠ "admin")
      then ((403, "Admin access required"), roles)
      else
        match deleteRole id roles with
        | (false, roles') => ((404, "Role not found or cannot be deleted"), roles')
        | (true, roles') => ((200, "Role deleted successfully"), roles')
        end
  end.

(** [getUserRoles(userId)]: [user_roles] left-joined with [roles] on the
    role id; an assignment without role carries [null] for the role. *)
Definition getUserRoles (userId : string) (userRoles : list UserRole.t)
    (roles : list Role.t) : list (UserRole.t * option Role.t) :=
  filter (λ item : UserRole.t * option Role.t, UserRole.userId item.1 = userId)
    (ur ← userRoles;
     match filter (λ r, Role.id r = UserRole.roleId ur) roles with
     | [] => [(ur, None)]
     | rs => (λ r, (ur, Some r)) <$> rs
     end).

(** [permissions.add(permission)] on a [Set], kept in insertion order. *)
Definition set_add (permissions : list string) (permission : string) : list string :=
  if decide (permission ∈ permissions) then permissions else permissions ++ [permission].

(** One round of the outer [forEach]; reading [permissions] of a null
    role throws. *)
Definition collect (permissions : list string) (userRole : UserRole.t * option Role.t)
    : option (list string) :=
  role ← userRole.2;
  Some (match Role.permissions role with
        | Some ps => foldl set_add permissions ps
        | None => permissions
        end).

(** [getUserPermissions(userId)]: [Array.from] of the set, or [[]] from
    the [catch]. *)
Definition getUserPermissions (userId : string) (userRoles : list UserRole.t)
    (roles : list Role.t) : list string :=
  let userRolesList := getUserRoles userId userRoles roles in
  default [] (foldl (λ acc userRole, acc ≫= λ permissions, collect permissions userRole)
                (Some []) userRolesList).

End Roles.

Module RoleSample.
Definition roles : list Role.t :=
  [ Role.mk 1 "Owner" (Some ["projects.view"; "projects.edit"]) (Some true);
    Role.mk 2 "Editor" (Some ["projects.view"; "todos.edit"]) (Some false);
    Role.mk 3 "Guest" None None ].
Definition userRoles : list UserRole.t :=
  [ UserRole.mk "ann" 1; UserRole.mk "ann" 2; UserRole.mk "ben" 3 ].
Definition admin : SessionUser := mkSessionUser "u1" "admin".
End RoleSample.

(** * The MixMerge page (client)

    The selection state of the page component and the handlers that feed
    the merge route. *)

Module MixMerge.

(** The [useState] cells the handlers read. *)
Record State := mkState {
  selectedFiles : list Z;
  removeSilence : bool;
  outputFormat : string;
  jobName : string
}.

(** [toggleFileSelection(fileId)], as the updater applied to [prev]. *)
Definition toggleFileSelection (fileId : Z) (prev : list Z) : list Z :=
  if decide (fileId ∈ prev) then filter (λ id, id ≠ fileId) prev else prev ++ [fileId].

(** [handleSelectAll()]: the new selection. *)
Definition handleSelectAll (audioFiles : list AudioFile.t) (selectedFiles : list Z) : list Z :=
  if decide (length selectedFiles = length audioFiles) then []
  else AudioFile.id <$> audioFiles.

(** [getTotalDuration()]: [file?.duration || 0] summed over the selection. *)
Definition getTotalDuration (audioFiles : list AudioFile.t) (selectedFiles : list Z) : Z :=
  foldl (λ total fileId,
           let file := head (filter (λ f, AudioFile.id f = fileId) audioFiles) in
           total + match file with Some f => AudioFile.duration f | None => 0 end)
    0 selectedFiles.

(** [getTotalSize()]. *)
Definition getTotalSize (audioFiles : list AudioFile.t) (selectedFiles : list Z) : Z :=
  foldl (λ total fileId,
           let file := head (filter (λ f, AudioFile.id f = fileId) audioFiles) in
           total + match file with Some f => AudioFile.size f | None => 0 end)
    0 selectedFiles.

(** [handleMerge()]: the body handed to [mergeMutation.mutate], or
    nothing when the toast is shown instead. *)
Definition handleMerge (st : State) : option MergeBody :=
  if decide (length (selectedFiles st) < 2)%nat then None
  else Some (mkMergeBody (FidsArray (selectedFiles st)) (Some (removeSilence st))
               (Some (outputFormat st))
               (Some (or_string (Some (jobName st)) "Untitled Merge"))).

End MixMerge.

Module MixMergeSample.
Definition audioFiles : list AudioFile.t :=
  [ AudioFile.mk 1 "a-1.mp3" "intro.mp3" 4000 12 "audio/mpeg" "ann" 100;
    AudioFile.mk 2 "a-2.mp3" "verse.mp3" 9000 45 "audio/mpeg" "ann" 90 ].
End MixMergeSample.

(** * Properties *)

(** ** Selections by id *)

Section selection.
Context {A : Type} (key : A → Z).

Lemma select_None (l : list A) (id : Z) :
  head (filter (λ x, key x = id) l) = None ↔ Forall (λ x, key x ≠ id) l.
Proof.
  rewrite head_None. induction l as [|x l IH]; [by split; [constructor|]|].
  rewrite filter_cons, Forall_cons. case_decide; [|tauto]. split; [done|tauto].
Qed.

Lemma select_Some (l : list A) (id : Z) (x : A) :
  head (filter (λ x, key x = id) l) = Some x → x ∈ l ∧ key x = id.
Proof.
  intros H. apply head_Some_elem_of in H.
  apply list_elem_of_filter in H. tauto.
Qed.


Lemma select_app (l k : list A) (id : Z) :
  head (filter (λ x, key x = id) (l ++ k))
  = match head (filter (λ x, key x = id) l) with
    | Some x => Some x
    | None => head (filter (λ x, key x = id) k)
    end.
Proof. rewrite filter_app, head_app. by destruct (filter _ l). Qed.

Lemma select_fmap (f : A → A) (l : list A) (id : Z) :
  (∀ x, key (f x) = key x) →
  head (filter (λ x, key x = id) (f <$> l)) = f <$> head (filter (λ x, key x = id) l).
Proof.
  intros Hf. induction l as [|x l IH]; [done|].
  rewrite fmap_cons, !filter_cons, Hf. by case_decide.
Qed.

Lemma select_delete (l : list A) (id id' : Z) :
  head (filter (λ x, key x = id') (filter (λ x, key x ≠ id) l))
  = if decide (id' = id) then None else head (filter (λ x, key x = id') l).
Proof.
  induction l as [|x l IH]; [by case_decide|].
  rewrite (filter_cons _ x l). destruct (decide (key x ≠ id)) as [Hne|Heq].
  - rewrite !filter_cons. destruct (decide (key x = id')) as [<-|?]; [|done].
    by rewrite decide_False.
  - rewrite IH, filter_cons. destruct (decide (key x = id')) as [<-|?]; [|done].
    destruct (decide (key x = id)); [done|]. by destruct Heq.
Qed.

Lemma select_unique (l : list A) (id : Z) (x y : A) :
  NoDup (key <$> l) → head (filter (λ x, key x = id) l) = Some x →
  y ∈ l → key y = id → y = x.
Proof.
  intros Hnd Hx Hy Hk. apply select_Some in Hx as [Hx Hkx].
  induction l as [|z l IH]; [by apply elem_of_nil in Hy|].
  rewrite fmap_cons in Hnd. apply NoDup_cons in Hnd as [Hz Hnd].
  apply elem_of_cons in Hx as [->|Hx], Hy as [->|Hy]; auto.
  - exfalso. apply Hz. apply list_elem_of_fmap. exists y. split; [congruence|done].
  - exfalso. apply Hz. apply list_elem_of_fmap. exists x. split; [congruence|done].
Qed.
End selection.

(** ** The storage layer *)

(** Unfolds the plumbing of the state monad, nothing else. *)
Ltac run_M :=
  cbv beta iota zeta delta [mbind M_bind mret M_ret get_world put_world] in *;
  cbn [fst snd] in *.

Lemma set_where_id_id (id : Z) (p : JobPatch.t) (j : MergeJob.t) :
  MergeJob.id (set_where_id id p j) = MergeJob.id j.
Proof. unfold set_where_id. by case_decide. Qed.

Lemma set_where_id_absent (id : Z) (p : JobPatch.t) (l : list MergeJob.t) :
  Forall (λ j, MergeJob.id j ≠ id) l → set_where_id id p <$> l = l.
Proof.
  induction 1 as [|j l Hj _ IH]; [done|].
  rewrite fmap_cons, IH. unfold set_where_id. by rewrite decide_False.
Qed.

(** C7 — [updateMergeJob] on an id without a [mergeJobs] row (for
    instance a job deleted while its task was running) returns
    [undefined] and writes nothing: the world after the call is the world
    before it. *)
Theorem updateMergeJob_absent_noop (w : World) (id : Z) (job : JobPatch.t) :
  (getMergeJob id w).1 = None →
  updateMergeJob id job w = (None, w).
Proof.
  unfold updateMergeJob, getMergeJob. run_M. intros Hnone.
  pose proof Hnone as Habs. apply select_None in Habs.
  rewrite set_where_id_absent, Hnone by done. by destruct w.
Qed.

Example sample_states :
  run boot Sample.uploads = Sample.uploaded
  ∧ run boot Sample.merging = Sample.encoding
  ∧ run boot Sample.merged = Sample.finished.
Proof. split_and!; vm_compute; reflexivity. Qed.

Lemma updateMergeJob_absent_noop_witness :
  updateMergeJob 2 patch_failed
    (world Sample.encoding)
  = (None, world Sample.encoding).
Proof. apply updateMergeJob_absent_noop. vm_compute. reflexivity. Defined.

(** ** Listings *)

#[local] Instance uploadedAt_desc_total : Total uploadedAt_desc.
Proof. intros a b. unfold uploadedAt_desc. lia. Qed.

#[local] Instance uploadedAt_desc_trans : Transitive uploadedAt_desc.
Proof. intros a b c. unfold uploadedAt_desc. lia. Qed.

#[local] Instance createdAt_desc_total : Total createdAt_desc.
Proof. intros a b. unfold createdAt_desc. lia. Qed.

#[local] Instance createdAt_desc_trans : Transitive createdAt_desc.
Proof. intros a b c. unfold createdAt_desc. lia. Qed.

Lemma truthy_string_nonempty (s : string) : s ≠ "" → truthy_string s = true.
Proof. by destruct s. Qed.

(** C9 — for a user (a non-empty identity), [getAudioFiles] returns
    exactly the rows of [audioFiles] uploaded by that user, newest upload
    first, and [getMergeJobs] exactly the rows of [mergeJobs] created by
    that user, newest creation first; no row of another owner is in
    either result. *)
Theorem listings_by_owner (w : World) (userId : string) :
  userId ≠ "" →
  let files := (getAudioFiles (Some userId) w).1 in
  let jobs := (getMergeJobs (Some userId) w).1 in
  (files ≡ₚ filter (λ f, AudioFile.uploadedBy f = userId) (audioFiles w)
   ∧ StronglySorted uploadedAt_desc files
   ∧ Forall (λ f, AudioFile.uploadedBy f = userId) files)
  ∧ (jobs ≡ₚ filter (λ j, MergeJob.createdBy j = userId) (mergeJobs w)
     ∧ StronglySorted createdAt_desc jobs
     ∧ Forall (λ j, MergeJob.createdBy j = userId) jobs).
Proof.
  intros Hu. unfold getAudioFiles, getMergeJobs. run_M.
  rewrite truthy_string_nonempty by done. cbv zeta. split.
  - split_and!.
    + apply merge_sort_Permutation.
    + apply StronglySorted_merge_sort; apply _.
    + rewrite merge_sort_Permutation. apply Forall_forall.
      intros f Hf. apply list_elem_of_filter in Hf. tauto.
  - split_and!.
    + apply merge_sort_Permutation.
    + apply StronglySorted_merge_sort; apply _.
    + rewrite merge_sort_Permutation. apply Forall_forall.
      intros j Hj. apply list_elem_of_filter in Hj. tauto.
Qed.

Lemma listings_by_owner_witness :
  let w := world Sample.finished in
  let files := (getAudioFiles (Some "alice") w).1 in
  let jobs := (getMergeJobs (Some "alice") w).1 in
  (files ≡ₚ filter (λ f, AudioFile.uploadedBy f = "alice") (audioFiles w)
   ∧ StronglySorted uploadedAt_desc files
   ∧ Forall (λ f, AudioFile.uploadedBy f = "alice") files)
  ∧ (jobs ≡ₚ filter (λ j, MergeJob.createdBy j = "alice") (mergeJobs w)
     ∧ StronglySorted createdAt_desc jobs
     ∧ Forall (λ j, MergeJob.createdBy j = "alice") jobs).
Proof. apply (listings_by_owner (world Sample.finished) "alice"). discriminate. Defined.

Example getAudioFiles_newest_first :
  AudioFile.id <$> (getAudioFiles (Some "alice") (world Sample.uploaded)).1 = [3; 1].
Proof. vm_compute. reflexivity. Qed.

(** ** Deleting an audio file *)

Lemma filter_all {A : Type} (P : A → Prop) `{!∀ x, Decision (P x)} (l : list A) :
  Forall P l → filter P l = l.
Proof.
  induction 1 as [|x l Hx _ IH]; [done|]. by rewrite filter_cons_True, IH.
Qed.

Lemma filter_none {A : Type} (P : A → Prop) `{!∀ x, Decision (P x)} (l : list A) :
  Forall (λ x, ¬ P x) l → filter P l = [].
Proof.
  induction 1 as [|x l Hx _ IH]; [done|]. by rewrite filter_cons_False.
Qed.

Lemma filter_ext_elem_of {A : Type} (P Q : A → Prop)
    `{!∀ x, Decision (P x), !∀ x, Decision (Q x)} (l : list A) :
  (∀ x, x ∈ l → P x ↔ Q x) → filter P l = filter Q l.
Proof.
  induction l as [|x l IH]; intros Hext; [done|].
  rewrite !filter_cons, IH by (intros; apply Hext; by right).
  destruct (Hext x (list_elem_of_here _ _)).
  destruct (decide (P x)), (decide (Q x)); tauto.
Qed.

Lemma filter_nonempty {A : Type} (P : A → Prop) `{!∀ x, Decision (P x)}
    (l : list A) (x : A) :
  x ∈ l → P x → (0 < Z.of_nat (length (filter P l))).
Proof.
  intros Hin HP. assert (x ∈ filter P l) as Hx by by apply list_elem_of_filter.
  destruct (filter P l); [by apply elem_of_nil in Hx|]. cbn [length]. lia.
Qed.

(** C10 — [DELETE /api/mixmerge/files/:id], ids being unique in
    [audioFiles]: without a row of that id the answer is 404 and nothing
    changes; with a row owned by somebody else the answer is 403 and
    neither the row nor any file on disk is removed; for the owner the
    row is deleted and then the backing file [uploads/<filename>] is
    removed, so the disk changes only together with the deletion of the
    row. *)
Theorem route_delete_file_cases (req : Request) (w : World) :
  NoDup (AudioFile.id <$> audioFiles w) →
  route_delete_file req w =
    match (getAudioFile (params_id req) w).1 with
    | None => (Message 404 "File not found", w)
    | Some f =>
        if decide (AudioFile.uploadedBy f = user_sub req)
        then (Message 200 "File deleted successfully",
              mkWorld (filter (λ g, AudioFile.id g ≠ params_id req) (audioFiles w))
                (mergeJobs w) (mergeJobFiles w) (audioFiles_seq w) (mergeJobs_seq w)
                (filter (λ p, p ≠ "uploads/" +:+ AudioFile.filename f) (disk w)))
        else (Message 403 "Access denied", w)
    end.
Proof.
  intros Hnd. unfold route_delete_file, getAudioFile, deleteAudioFile, deleteFile,
    unlink_if_exists. run_M.
  destruct (head (filter _ (audioFiles w))) as [f|] eqn:Hsel; [|done].
  pose proof (select_Some _ _ _ _ Hsel) as [Hin Hid].
  assert (∀ g, g ∈ audioFiles w → AudioFile.id g = params_id req → g = f) as Huniq
    by (intros g ??; by eapply (select_unique AudioFile.id)).
  case_decide as Hown.
  - rewrite bool_decide_eq_true_2
      by (by apply (filter_nonempty _ _ f)).
    cbn [negb disk audioFiles mergeJobs mergeJobFiles audioFiles_seq mergeJobs_seq].
    do 2 f_equal. apply filter_ext_elem_of. intros g Hg. split; [|tauto].
    intros Hhit Hgid. apply Hhit. split; [done|]. by rewrite (Huniq g).
  - rewrite filter_none, filter_all.
    + by destruct w.
    + apply Forall_forall. intros g Hg [Hgid Hgown]. apply Hown.
      by rewrite <-(Huniq g).
    + apply Forall_forall. intros g Hg [Hgid Hgown]. apply Hown.
      by rewrite <-(Huniq g).
Qed.

Lemma route_delete_file_cases_witness :
  NoDup (AudioFile.id <$> audioFiles (world Sample.uploaded))
  ∧ route_delete_file (Sample.on_id "bob" 3) (world Sample.uploaded)
    = (Message 403 "Access denied", world Sample.uploaded).
Proof.
  assert (NoDup (AudioFile.id <$> audioFiles (world Sample.uploaded))) as Hnd
    by (apply (bool_decide_unpack _); vm_compute; exact I).
  split; [exact Hnd|].
  exact (route_delete_file_cases (Sample.on_id "bob" 3) (world Sample.uploaded) Hnd).
Defined.

Example route_delete_file_owner :
  let w := (route_delete_file (Sample.on_id "alice" 3) (world Sample.uploaded)).2 in
  AudioFile.id <$> audioFiles w = [1; 2] ∧ disk w = ["uploads/b1.mp3"; "uploads/a1.mp3"].
Proof. vm_compute. split; reflexivity. Qed.

Example route_delete_file_missing :
  route_delete_file (Sample.on_id "alice" 9) (world Sample.uploaded)
  = (Message 404 "File not found", world Sample.uploaded).
Proof. vm_compute. reflexivity. Qed.

(** ** Reading and deleting a merge job *)

Lemma deleteMergeJob_cases (id : Z) (userId : string) (w : World) :
  deleteMergeJob id userId w =
    match (getMergeJob id w).1 with
    | Some job =>
        if decide (MergeJob.createdBy job = userId)
        then (true, without_job job w) else (false, w)
    | None => (false, w)
    end.
Proof.
  unfold deleteMergeJob, getMergeJob, unlink_if_exists. run_M.
  destruct (head (filter _ (mergeJobs w))) as [job|] eqn:Hsel; [|done].
  pose proof (select_Some _ _ _ _ Hsel) as [Hin Hid].
  destruct (decide (MergeJob.createdBy job ≠ userId)) as [Hne|Heq].
  { by rewrite decide_False. }
  rewrite decide_True by (by destruct (decide (MergeJob.createdBy job = userId))).
  unfold without_job. rewrite Hid.
  destruct (MergeJob.outputFile job) as [f|]; [destruct (truthy_string f)|];
    cbn [mergeJobs audioFiles mergeJobFiles audioFiles_seq mergeJobs_seq disk];
    (rewrite bool_decide_eq_true_2; [done|]);
    by apply (filter_nonempty _ _ job).
Qed.

Lemma route_delete_job_cases (req : Request) (w : World) :
  route_delete_job req w =
    match (getMergeJob (params_id req) w).1 with
    | Some job =>
        if decide (MergeJob.createdBy job = user_sub req)
        then (Message 200 "Job deleted successfully", without_job job w)
        else (Message 404 "Job not found or access denied", w)
    | None => (Message 404 "Job not found or access denied", w)
    end.
Proof.
  unfold route_delete_job. run_M. rewrite deleteMergeJob_cases.
  destruct (getMergeJob (params_id req) w).1 as [job|]; [|done].
  by case_decide.
Qed.

(** C2 (amended) — [DELETE /api/mixmerge/jobs/:id] deletes the job (the
    row, its links and its output file) exactly when the row exists and
    its [createdBy] is the requester; otherwise it answers 404 and changes
    nothing.  [GET /api/mixmerge/jobs/:id] does not look at the
    requester: it returns the row of that id, whoever created it. *)
Theorem job_read_and_delete (req : Request) (w : World) :
  route_get_job req w =
    (match (getMergeJob (params_id req) w).1 with
     | Some job => JsonJob job
     | None => Message 404 "Job not found"
     end, w)
  ∧ route_delete_job req w =
      match (getMergeJob (params_id req) w).1 with
      | Some job =>
          if decide (MergeJob.createdBy job = user_sub req)
          then (Message 200 "Job deleted successfully", without_job job w)
          else (Message 404 "Job not found or access denied", w)
      | None => (Message 404 "Job not found or access denied", w)
      end.
Proof.
  split.
  - unfold route_get_job, getMergeJob. run_M. by destruct (head _).
  - apply route_delete_job_cases.
Qed.

(** C2, as stated, fails: Bob reads Alice's job. *)
Lemma job_read_by_other_user :
  ∃ job,
    (route_get_job (Sample.on_id "bob" 1) (world Sample.finished)).1 = JsonJob job
    ∧ MergeJob.createdBy job = "alice"
    ∧ MergeJob.createdBy job ≠ user_sub (Sample.on_id "bob" 1).
Proof. vm_compute. eexists. split_and!; [reflexivity|reflexivity|discriminate]. Qed.

Example job_delete_by_other_user :
  route_delete_job (Sample.on_id "bob" 1) (world Sample.finished)
  = (Message 404 "Job not found or access denied", world Sample.finished).
Proof. vm_compute. reflexivity. Qed.

Example job_delete_by_owner :
  let w := (route_delete_job (Sample.on_id "alice" 1) (world Sample.finished)).2 in
  mergeJobs w = [] ∧ mergeJobFiles w = []
  ∧ disk w = ["uploads/a2.mp3"; "uploads/b1.mp3"; "uploads/a1.mp3"].
Proof. vm_compute. split_and!; reflexivity. Qed.

(** ** Creating a merge job *)


Lemma route_post_merge_accepted (req : Request) (now : Z) (w : World) (ids : list Z) :
  fileIds_guard (body_fileIds (body req)) = Some ids →
  let job :=
    MergeJob.mk (mergeJobs_seq w)
      (or_string (body_name (body req)) "Untitled Merge") pending 0 None
      (or_false (body_removeSilence (body req)))
      (or_string (body_outputFormat (body req)) "mp3")
      (user_sub req) now None in
  post_merge_create req now w
  = (inr job,
     mkWorld (audioFiles w) (mergeJobs w ++ [job]) (mergeJobFiles w)
       (audioFiles_seq w) (mergeJobs_seq w + 1) (disk w))
  ∧ route_post_merge req now w
    = ((Some (mkTask job ids (body_removeSilence (body req)) Queued), JsonJob job),
       mkWorld (audioFiles w) (mergeJobs w ++ [job])
         (mergeJobFiles w ++ (MergeJobFile.mk (mergeJobs_seq w) <$> ids))
         (audioFiles_seq w) (mergeJobs_seq w + 1) (disk w)).
Proof.
  intros Hg. unfold route_post_merge, post_merge_create, post_merge_link,
    createMergeJob, addJobFiles, mergeJobs_defaults. run_M. by rewrite !Hg.
Qed.




(** C8 (amended) — the merge route inserts the job row first, without
    links, and inserts the links with a second statement, outside any
    transaction; once the route has run to its end, the links of the new
    job are the requested file ids, in the order of the request. *)
Theorem links_follow_job (req : Request) (now : Z) (w : World) (ids : list Z) :
  fileIds_guard (body_fileIds (body req)) = Some ids →
  Forall (λ l, MergeJobFile.jobId l < mergeJobs_seq w) (mergeJobFiles w) →
  ∃ job,
    (post_merge_create req now w).1 = inr job
    ∧ job ∈ mergeJobs (post_merge_create req now w).2
    ∧ links_of (post_merge_create req now w).2 (MergeJob.id job) = []
    ∧ job ∈ mergeJobs (route_post_merge req now w).2
    ∧ links_of (route_post_merge req now w).2 (MergeJob.id job) = ids.
Proof.
  intros Hg Hfresh.
  destruct (route_post_merge_accepted req now w ids Hg) as [Hc Hr].
  rewrite Hc, Hr. eexists. split; [reflexivity|].
  cbn [fst snd mergeJobs mergeJobFiles MergeJob.id].
  assert (filter (λ l, MergeJobFile.jobId l = mergeJobs_seq w) (mergeJobFiles w) = [])
    as Hold.
  { apply filter_none. eapply Forall_impl; [exact Hfresh|]. cbn. intros; lia. }
  unfold links_of. cbn [mergeJobFiles].
  split; [apply elem_of_app; right; apply list_elem_of_here|].
  split; [by rewrite Hold|].
  split; [apply elem_of_app; right; apply list_elem_of_here|].
  rewrite filter_app, Hold, app_nil_l, filter_all.
  - rewrite <-list_fmap_compose. apply list_fmap_id.
  - apply Forall_fmap, Forall_forall. by intros.
Qed.

Lemma links_follow_job_witness :
  ∃ job,
    (post_merge_create (Sample.merge_of "alice" [1; 3] "wav") 200
       (world Sample.uploaded)).1 = inr job
    ∧ job ∈ mergeJobs (post_merge_create (Sample.merge_of "alice" [1; 3] "wav") 200
                          (world Sample.uploaded)).2
    ∧ links_of (post_merge_create (Sample.merge_of "alice" [1; 3] "wav") 200
                  (world Sample.uploaded)).2 (MergeJob.id job) = []
    ∧ job ∈ mergeJobs (route_post_merge (Sample.merge_of "alice" [1; 3] "wav") 200
                          (world Sample.uploaded)).2
    ∧ links_of (route_post_merge (Sample.merge_of "alice" [1; 3] "wav") 200
                  (world Sample.uploaded)).2 (MergeJob.id job) = [1; 3].
Proof.
  apply (links_follow_job (Sample.merge_of "alice" [1; 3] "wav") 200
           (world Sample.uploaded) [1; 3]).
  - vm_compute. reflexivity.
  - vm_compute. constructor.
Defined.

(** C8, as stated, fails: between the two statements of the route the job
    row is in the table, listed to its owner, and has no link. *)
Lemma job_listed_without_links :
  let req := Sample.merge_of "alice" [1; 3] "wav" in
  let s := run boot (Sample.uploads ++ [EvMerge req 200]) in
  ∃ job,
    suspended s = [(req, job)]
    ∧ (route_get_jobs (Sample.on_id "alice" 0) (world s)).1 = JsonJobs [job]
    ∧ links_of (world s) (MergeJob.id job) = []
    ∧ fileIds_guard (body_fileIds (body req)) = Some [1; 3].
Proof. vm_compute. eexists. split_and!; reflexivity. Qed.

(** ** The effect of a step *)

Lemma mapM_getAudioFile_world (ids : list Z) (w : World) :
  (mapM_M getAudioFile ids w).2 = w.
Proof.
  induction ids as [|id ids IH]; [reflexivity|].
  cbn [mapM_M]. unfold mbind, M_bind, mret, M_ret.
  change (getAudioFile id w) with
    (head (filter (λ f, AudioFile.id f = id) (audioFiles w)), w).
  cbv beta iota. by destruct (mapM_M getAudioFile ids w).
Qed.

Lemma task_resolve_world (t : Task) (stamp : string) (w : World) :
  (task_resolve t stamp w).2 = w.
Proof.
  unfold task_resolve. run_M.
  pose proof (mapM_getAudioFile_world (task_fileIds t) w) as Hw.
  by destruct (mapM_M getAudioFile (task_fileIds t) w).
Qed.


Lemma updateMergeJob_world (id : Z) (p : JobPatch.t) (w : World) :
  (updateMergeJob id p w).2
  = mkWorld (audioFiles w) (set_where_id id p <$> mergeJobs w) (mergeJobFiles w)
      (audioFiles_seq w) (mergeJobs_seq w) (disk w).
Proof. done. Qed.

Lemma find_task_Some (id : Z) (ts : list Task) (t : Task) :
  find_task id ts = Some t → t ∈ ts ∧ task_id t = id.
Proof. apply (select_Some task_id). Qed.

Lemma route_upload_jobs (req : Request) (md : option Q) (now : Z) (w : World) :
  mergeJobs (route_upload req md now w).2 = mergeJobs w
  ∧ mergeJobs_seq (route_upload req md now w).2 = mergeJobs_seq w.
Proof.
  unfold route_upload, createAudioFile. run_M. by destruct (file req), md.
Qed.

Lemma route_delete_file_jobs (req : Request) (w : World) :
  mergeJobs (route_delete_file req w).2 = mergeJobs w
  ∧ mergeJobs_seq (route_delete_file req w).2 = mergeJobs_seq w.
Proof.
  unfold route_delete_file, getAudioFile, deleteAudioFile, deleteFile,
    unlink_if_exists. run_M.
  destruct (head (filter _ (audioFiles w))); [|done]. by destruct (negb _).
Qed.

Lemma step_has_effect (s : Server) (e : Event) : step_effect s (step s e) e.
Proof.
  destruct e as [req md now|req|req now|jobId|req|jobId|jobId stamp|jobId p|jobId p
                |jobId p|jobId now|jobId|jobId|jobId encoded];
    cbn [step].
  - apply effect_frame; try done; cbn [world];
      [rewrite (proj1 (route_upload_jobs _ _ _ _))
      |rewrite (proj2 (route_upload_jobs _ _ _ _))]; by destruct (file req).
  - apply effect_frame; try done; apply route_delete_file_jobs.
  - destruct (fileIds_guard (body_fileIds (body req))) as [ids|] eqn:Hg.
    + destruct (route_post_merge_accepted req now (world s) ids Hg) as [Hc _].
      rewrite Hc. cbv beta iota.
      match goal with
      | |- step_effect _ (mkServer _ (_ ++ [(_, ?j)]) _ _ _) _ =>
          apply (effect_insert _ _ req now j); reflexivity
      end.
    + unfold post_merge_create. rewrite Hg. run_M. by apply effect_frame.
  - destruct (find_suspended jobId (suspended s)) as [[req job]|] eqn:Hf;
      [|by apply effect_frame].
    apply (select_Some (λ r : Request * MergeJob.t, MergeJob.id r.2)) in Hf as [Hin <-].
    unfold post_merge_link, addJobFiles. run_M.
    match goal with
    | |- step_effect _ (mkServer _ _ (_ ++ [?t]) _ _) _ =>
        apply (effect_resume _ _ req job t); [exact Hin|reflexivity..]
    end.
  - rewrite route_delete_job_cases.
    destruct (getMergeJob (params_id req) (world s)).1 as [job|] eqn:Hsel;
      [|by apply effect_frame].
    case_decide; [|by apply effect_frame].
    apply (select_Some MergeJob.id) in Hsel as [_ Hid].
    apply effect_delete; try done. cbn [snd world]. unfold without_job.
    by rewrite Hid.
  - destruct (find_task jobId (tasks s)) as [t|] eqn:Hf; [|by apply effect_frame].
    apply find_task_Some in Hf as [Hin <-].
    destruct (task_stage t) eqn:Hst; try by apply effect_frame.
    by apply effect_start.
  - destruct (find_task jobId (tasks s)) as [t|] eqn:Hf; [|by apply effect_frame].
    apply find_task_Some in Hf as [Hin <-].
    destruct (task_stage t) eqn:Hst; try by apply effect_frame.
    pose proof (task_resolve_world t stamp (world s)) as Hw.
    destruct (task_resolve t stamp (world s)) as [[filePaths outputFilename] w'].
    cbn [snd] in Hw. subst w'. by eapply effect_resolve.
  - destruct (find_task jobId (tasks s)) as [t|] eqn:Hf; [|by apply effect_frame].
    destruct (task_stage t); by apply effect_frame.
  - case_decide; [|by apply effect_frame]. by apply effect_land.
  - case_decide; by apply effect_frame.
  - destruct (find_task jobId (tasks s)) as [t|] eqn:Hf; [|by apply effect_frame].
    apply find_task_Some in Hf as [Hin <-].
    destruct (task_stage t) eqn:Hst; try by apply effect_frame.
    eapply effect_resolved; try done. by rewrite Hst.
  - destruct (find_task jobId (tasks s)) as [t|] eqn:Hf; [|by apply effect_frame].
    apply find_task_Some in Hf as [Hin <-]. by apply effect_rejected.
  - destruct (find_task jobId (tasks s)) as [t|] eqn:Hf; [|by apply effect_frame].
    apply find_task_Some in Hf as [Hin <-].
    destruct (task_stage t) eqn:Hst; try by apply effect_frame.
    apply effect_unsaved; try done. by rewrite Hst.
  - destruct encoded.
    + destruct (find_task jobId (tasks s)) as [t|] eqn:Hf; [|by apply effect_frame].
      apply find_task_Some in Hf as [Hin <-].
      destruct (task_stage t) eqn:Hst; try by apply effect_frame.
      by apply effect_escaped.
    + destruct (find_task jobId (tasks s)) as [t|] eqn:Hf; [|by apply effect_frame].
      apply find_task_Some in Hf as [Hin <-]. by apply effect_escaped.
Qed.

(** ** The invariant *)

Lemma set_where_id_cases (id : Z) (p : JobPatch.t) (j : MergeJob.t) :
  (MergeJob.id j = id ∧ set_where_id id p j = JobPatch.apply p j)
  ∨ (MergeJob.id j ≠ id ∧ set_where_id id p j = j).
Proof. unfold set_where_id. case_decide; auto. Qed.

Lemma elem_of_set_where_id (id : Z) (p : JobPatch.t) (l : list MergeJob.t) (j' : MergeJob.t) :
  j' ∈ set_where_id id p <$> l →
  ∃ j, j ∈ l ∧ MergeJob.id j' = MergeJob.id j
       ∧ ((MergeJob.id j = id ∧ j' = JobPatch.apply p j) ∨ (MergeJob.id j ≠ id ∧ j' = j)).
Proof.
  intros (j & -> & Hj)%list_elem_of_fmap. exists j. split; [done|].
  split; [apply set_where_id_id|].
  destruct (set_where_id_cases id p j) as [[? ->]|[? ->]]; auto.
Qed.

Lemma elem_of_set_stage (id : Z) (st : Stage) (ts : list Task) (t' : Task) :
  t' ∈ set_stage id st ts →
  ∃ t, t ∈ ts ∧ task_id t' = task_id t
       ∧ ((task_id t = id ∧ task_stage t' = st) ∨ (task_id t ≠ id ∧ t' = t)).
Proof.
  intros (t & -> & Ht)%list_elem_of_fmap. exists t. split; [done|].
  case_decide; auto.
Qed.

Lemma invariant_boot : invariant boot.
Proof.
  constructor; cbn; try constructor; intros ? ? Hin; by apply elem_of_nil in Hin.
Qed.

Lemma job_sound_not_completed (j : MergeJob.t) :
  job_sound j → MergeJob.status j ≠ completed → MergeJob.outputFile j = None.
Proof.
  intros [Hout _] Hst. destruct (MergeJob.outputFile j) eqn:E; [|done].
  destruct Hst. apply Hout. by eexists.
Qed.

Lemma job_sound_patch (p : JobPatch.t) (j : MergeJob.t) :
  job_sound j →
  match JobPatch.status p with
  | Some completed =>
      is_Some (JobPatch.outputFile p) ∧ is_Some (JobPatch.completedAt p)
  | Some _ => MergeJob.status j ≠ completed ∧ JobPatch.outputFile p = None
  | None => JobPatch.outputFile p = None
  end →
  job_sound (JobPatch.apply p j).
Proof.
  intros Hok Hp. unfold job_sound, JobPatch.apply. cbn.
  destruct (JobPatch.status p) as [[]|] eqn:Est; cbn.
  1,2,4: destruct Hp as [Hnc ->]; rewrite (job_sound_not_completed j Hok Hnc);
    (split; [split; [by intros [? ?]|done] | done]).
  - destruct Hp as ([f ->] & [d ->]). cbn. split; [split; eauto|eauto].
  - rewrite Hp. destruct Hok as [Hout Hdone]. split; [done|].
    intros Hst. destruct (JobPatch.completedAt p); [by eexists|by apply Hdone].
Qed.

Lemma stage_status_live (st : Stage) : stage_status st ≠ completed.
Proof. by destruct st. Qed.

Lemma invariant_step_effect (s s' : Server) (e : Event) :
  invariant s → step_effect s s' e → invariant s'.
Proof.
  intros [Fj Fs Ft A Ok S T] Heff.
  destruct Heff as
    [e Hj Hq Hs Ht
    |req now job Hid Hst Hpr Hout Hj Hq Hs Ht
    |req job t Hin Htj Hstage Hj Hq Hs Ht
    |req Hj Hq Hs Ht
    |t Hin Hstage Hj Hq Hs Ht
    |t stamp filePaths outputFilename Hin Hstage Hj Hq Hs Ht
    |i p Hfl Hj Hq Hs Ht
    |t now outputFilename Hin Hstage Hj Hq Hs Ht
    |t Hin Hj Hq Hs Ht
    |t Hin Hstage Hj Hq Hs Ht
    |t encoded Hin Hj Hq Hs Ht];
    constructor; rewrite ?Hj, ?Hq, ?Hs, ?Ht; try done.
  (* the insertion of a new row *)
  - apply Forall_app. split; [eapply Forall_impl; [exact Fj|]; cbn; intros; lia|].
    apply Forall_singleton. lia.
  - apply Forall_app. split; [eapply Forall_impl; [exact Fs|]; cbn; intros; lia|].
    apply Forall_singleton. cbn. lia.
  - eapply Forall_impl; [exact Ft|]; cbn; intros; lia.
  - intros r t [Hr|Hr%list_elem_of_singleton]%elem_of_app Hint; [by apply A|].
    subst r. cbn. rewrite Forall_forall in Ft. specialize (Ft t Hint). cbn in Ft. lia.
  - apply Forall_app. split; [done|]. apply Forall_singleton.
    unfold job_sound. rewrite Hst, Hout. split; [split; [by intros [? ?]|done]|done].
  - rewrite Forall_forall in Fj.
    intros r j [Hr|Hr%list_elem_of_singleton]%elem_of_app
      [Hjin|Hjin%list_elem_of_singleton]%elem_of_app Heq; subst.
    + by eapply S.
    + done.
    + cbn in Heq. specialize (Fj j Hjin). cbn in Fj. lia.
    + done.
  - rewrite Forall_forall in Ft.
    intros t j Hint [Hjin|Hjin%list_elem_of_singleton]%elem_of_app Heq; [by eapply T|].
    subst j. specialize (Ft t Hint). cbn in Ft. lia.
  (* a suspended request resumes and queues its task *)
  - unfold drop_suspended. rewrite Forall_forall in Fs |- *.
    intros r Hr%list_elem_of_filter. apply Fs. tauto.
  - apply Forall_app. split; [done|]. apply Forall_singleton.
    rewrite Forall_forall in Fs. unfold task_id. rewrite Htj. apply (Fs _ Hin).
  - intros r t0 [Hne Hr]%list_elem_of_filter
      [Hint|Hint%list_elem_of_singleton]%elem_of_app; [by apply A|].
    subst t0. unfold task_id. by rewrite Htj.
  - intros r j [Hne Hr]%list_elem_of_filter. by eapply S.
  - intros t0 j [Hint|Hint%list_elem_of_singleton]%elem_of_app Hjin Heq; [by eapply T|].
    subst t0. rewrite Hstage. cbn. apply (S _ _ Hin Hjin).
    cbn. unfold task_id in Heq. by rewrite Htj in Heq.
  (* the deletion of a job *)
  - rewrite Forall_forall in Fj |- *. intros j Hjin%list_elem_of_filter. apply Fj. tauto.
  - rewrite Forall_forall in Ok |- *. intros j Hjin%list_elem_of_filter. apply Ok. tauto.
  - intros r j Hr [Hne Hjin]%list_elem_of_filter. by eapply S.
  - intros t j Hint [Hne Hjin]%list_elem_of_filter. by eapply T.
  (* a task starts *)
  - rewrite Forall_forall in Fj |- *.
    intros j' (j & Hjin & Hid & _)%elem_of_set_where_id. rewrite Hid. by apply Fj.
  - rewrite Forall_forall in Ft |- *.
    intros t' (t0 & Hint & Hid & _)%elem_of_set_stage. rewrite Hid. by apply Ft.
  - intros r t' Hr (t0 & Hint & Hid & _)%elem_of_set_stage. rewrite Hid. by apply A.
  - rewrite Forall_forall in Ok |- *.
    intros j' (j & Hjin & Hid & [[Hmatch ->]|[_ ->]])%elem_of_set_where_id; [|by apply Ok].
    apply job_sound_patch; [by apply Ok|]. cbn.
    rewrite (T t j Hin Hjin Hmatch), Hstage. done.
  - intros r j' Hr (j & Hjin & Hid & [[Hmatch ->]|[_ ->]])%elem_of_set_where_id Heq.
    + exfalso. apply (A r t Hr Hin). cbn in Heq. congruence.
    + by eapply S.
  - intros t' j' (t0 & Hint & Hidt & Ht0)%elem_of_set_stage
      (j & Hjin & Hid & Hj0)%elem_of_set_where_id Heq.
    rewrite Hid, Hidt in Heq.
    destruct Ht0 as [[Hm ->]|[Hm ->]], Hj0 as [[Hmj ->]|[Hmj ->]]; try congruence.
    + done.
    + by eapply T.
  (* a task has its paths *)
  - rewrite Forall_forall in Ft |- *.
    intros t' (t0 & Hint & Hid & _)%elem_of_set_stage. rewrite Hid. by apply Ft.
  - intros r t' Hr (t0 & Hint & Hid & _)%elem_of_set_stage. rewrite Hid. by apply A.
  - intros t' j (t0 & Hint & Hidt & [[Hm ->]|[Hm ->]])%elem_of_set_stage Hjin Heq.
    + cbn. rewrite (T t j Hin Hjin) by congruence. by rewrite Hstage.
    + by eapply T.
  (* a progress write lands *)
  - rewrite Forall_forall in Fj |- *.
    intros j' (j & Hjin & Hid & _)%elem_of_set_where_id. rewrite Hid. by apply Fj.
  - rewrite Forall_forall in Ok |- *.
    intros j' (j & Hjin & Hid & [[Hmatch ->]|[_ ->]])%elem_of_set_where_id; [|by apply Ok].
    apply job_sound_patch; [by apply Ok|]. done.
  - intros r j' Hr (j & Hjin & Hid & [[Hmatch ->]|[_ ->]])%elem_of_set_where_id Heq.
    + cbn in *. by eapply S.
    + by eapply S.
  - intros t0 j' Hint (j & Hjin & Hid & [[Hmatch ->]|[_ ->]])%elem_of_set_where_id Heq.
    + cbn in *. by eapply T.
    + by eapply T.
  (* the encoder is done *)
  - rewrite Forall_forall in Fj |- *.
    intros j' (j & Hjin & Hid & _)%elem_of_set_where_id. rewrite Hid. by apply Fj.
  - unfold drop_task. rewrite Forall_forall in Ft |- *.
    intros t0 Hint%list_elem_of_filter. apply Ft. tauto.
  - intros r t0 Hr Hint%list_elem_of_filter. apply A; tauto.
  - rewrite Forall_forall in Ok |- *.
    intros j' (j & Hjin & Hid & [[Hmatch ->]|[_ ->]])%elem_of_set_where_id; [|by apply Ok].
    apply job_sound_patch; [by apply Ok|]. cbn. eauto.
  - intros r j' Hr (j & Hjin & Hid & [[Hmatch ->]|[_ ->]])%elem_of_set_where_id Heq.
    + exfalso. apply (A r t Hr Hin). cbn in Heq. congruence.
    + by eapply S.
  - intros t0 j' [Hne Hint]%list_elem_of_filter
      (j & Hjin & Hid & [[Hmatch ->]|[_ ->]])%elem_of_set_where_id Heq.
    + cbn in Heq. congruence.
    + by eapply T.
  (* the try block has thrown and the catch block has written *)
  - rewrite Forall_forall in Fj |- *.
    intros j' (j & Hjin & Hid & _)%elem_of_set_where_id. rewrite Hid. by apply Fj.
  - unfold drop_task. rewrite Forall_forall in Ft |- *.
    intros t0 Hint%list_elem_of_filter. apply Ft. tauto.
  - intros r t0 Hr Hint%list_elem_of_filter. apply A; tauto.
  - rewrite Forall_forall in Ok |- *.
    intros j' (j & Hjin & Hid & [[Hmatch ->]|[_ ->]])%elem_of_set_where_id; [|by apply Ok].
    apply job_sound_patch; [by apply Ok|]. cbn.
    rewrite (T t j Hin Hjin Hmatch). split; [apply stage_status_live|done].
  - intros r j' Hr (j & Hjin & Hid & [[Hmatch ->]|[_ ->]])%elem_of_set_where_id Heq.
    + exfalso. apply (A r t Hr Hin). cbn in Heq. congruence.
    + by eapply S.
  - intros t0 j' [Hne Hint]%list_elem_of_filter
      (j & Hjin & Hid & [[Hmatch ->]|[_ ->]])%elem_of_set_where_id Heq.
    + cbn in Heq. congruence.
    + by eapply T.
  (* the final update was rejected and the catch block has written *)
  - rewrite Forall_forall in Fj |- *.
    intros j' (j & Hjin & Hid & _)%elem_of_set_where_id. rewrite Hid. by apply Fj.
  - unfold drop_task. rewrite Forall_forall in Ft |- *.
    intros t0 Hint%list_elem_of_filter. apply Ft. tauto.
  - intros r t0 Hr Hint%list_elem_of_filter. apply A; tauto.
  - rewrite Forall_forall in Ok |- *.
    intros j' (j & Hjin & Hid & [[Hmatch ->]|[_ ->]])%elem_of_set_where_id; [|by apply Ok].
    apply job_sound_patch; [by apply Ok|]. cbn.
    rewrite (T t j Hin Hjin Hmatch). split; [apply stage_status_live|done].
  - intros r j' Hr (j & Hjin & Hid & [[Hmatch ->]|[_ ->]])%elem_of_set_where_id Heq.
    + exfalso. apply (A r t Hr Hin). cbn in Heq. congruence.
    + by eapply S.
  - intros t0 j' [Hne Hint]%list_elem_of_filter
      (j & Hjin & Hid & [[Hmatch ->]|[_ ->]])%elem_of_set_where_id Heq.
    + cbn in Heq. congruence.
    + by eapply T.
  (* the catch block has failed too *)
  - unfold drop_task. rewrite Forall_forall in Ft |- *.
    intros t0 Hint%list_elem_of_filter. apply Ft. tauto.
  - intros r t0 Hr Hint%list_elem_of_filter. apply A; tauto.
  - intros t0 j [Hne Hint]%list_elem_of_filter Hjin Heq. by eapply T.
Qed.

Lemma invariant_step (s : Server) (e : Event) : invariant s → invariant (step s e).
Proof. intros Hinv. eapply invariant_step_effect; [done|apply step_has_effect]. Qed.

Lemma run_cons (s : Server) (e : Event) (es : list Event) :
  run s (e :: es) = run (step s e) es.
Proof. done. Qed.

Lemma run_app (s : Server) (es1 es2 : list Event) :
  run s (es1 ++ es2) = run (run s es1) es2.
Proof. apply foldl_app. Qed.

Lemma invariant_run (s : Server) (es : list Event) : invariant s → invariant (run s es).
Proof.
  revert s. induction es as [|e es IH]; intros s Hinv; [done|].
  rewrite run_cons. apply IH. by apply invariant_step.
Qed.

(** ** What a poll sees along a trace *)

Lemma poll_Some_elem (s : Server) (i : Z) (j : MergeJob.t) :
  poll s i = Some j → j ∈ mergeJobs (world s) ∧ MergeJob.id j = i.
Proof. apply (select_Some MergeJob.id). Qed.

Lemma poll_update (s s' : Server) (id i : Z) (p : JobPatch.t) :
  mergeJobs (world s') = set_where_id id p <$> mergeJobs (world s) →
  poll s' i = set_where_id id p <$> poll s i.
Proof.
  intros Hj. unfold poll, getMergeJob. run_M. rewrite Hj.
  apply (select_fmap MergeJob.id). intros j. apply set_where_id_id.
Qed.

Lemma poll_frame (s s' : Server) (i : Z) :
  mergeJobs (world s') = mergeJobs (world s) → poll s' i = poll s i.
Proof. intros Hj. unfold poll, getMergeJob. run_M. by rewrite Hj. Qed.

Lemma stage_status_cases (st : Stage) :
  stage_status st = pending ∨ stage_status st = processing.
Proof. destruct st; auto. Qed.

(** A row that is there either goes away or moves as [job_move] tells. *)
Lemma effect_poll_Some (s s' : Server) (e : Event) (i : Z) (j : MergeJob.t) :
  invariant s → step_effect s s' e → poll s i = Some j →
  poll s' i = None ∨ ∃ j', poll s' i = Some j' ∧ job_move (inflight s) i e j j'.
Proof.
  intros Hinv Heff Hp. pose proof (poll_Some_elem _ _ _ Hp) as [Hjin Hji].
  pose proof (inv_tasks _ Hinv) as T.
  destruct Heff as
    [e' Hj Hq Hs Ht
    |req now job Hid Hst Hpr Hout Hj Hq Hs Ht
    |req job t Hin Htj Hstage Hj Hq Hs Ht
    |req Hj Hq Hs Ht
    |t Hin Hstage Hj Hq Hs Ht
    |t stamp filePaths outputFilename Hin Hstage Hj Hq Hs Ht
    |i' p Hfl Hj Hq Hs Ht
    |t now outputFilename Hin Hstage Hj Hq Hs Ht
    |t Hin Hj Hq Hs Ht
    |t Hin Hstage Hj Hq Hs Ht
    |t encoded Hin Hj Hq Hs Ht].
  1,3,6,11: right; exists j; split; [by rewrite (poll_frame _ _ _ Hj)|constructor].
  - right. exists j. split; [|constructor].
    unfold poll, getMergeJob in *. run_M. rewrite Hj.
    by rewrite (select_app MergeJob.id), Hp.
  - unfold poll, getMergeJob in *. run_M. rewrite Hj.
    rewrite (select_delete MergeJob.id). case_decide; [by left|].
    right. exists j. split; [done|constructor].
  - right. rewrite (poll_update _ _ _ _ _ Hj), Hp. cbn [fmap option_fmap option_map].
    destruct (set_where_id_cases (task_id t) patch_processing j) as [[Hm ->]|[_ ->]];
      (eexists; split; [done|]); [|constructor].
    assert (task_id t = i) as -> by congruence. apply move_start.
    by rewrite (T t j Hin Hjin Hm), Hstage.
  - right. rewrite (poll_update _ _ _ _ _ Hj), Hp. cbn [fmap option_fmap option_map].
    destruct (set_where_id_cases i' (patch_progress p) j) as [[Hm ->]|[_ ->]];
      (eexists; split; [done|]); [|constructor].
    assert (i' = i) as -> by congruence. by apply move_land.
  - right. rewrite (poll_update _ _ _ _ _ Hj), Hp. cbn [fmap option_fmap option_map].
    destruct (set_where_id_cases (task_id t) (patch_completed outputFilename now) j)
      as [[Hm ->]|[_ ->]]; (eexists; split; [done|]); [|constructor].
    assert (task_id t = i) as -> by congruence. apply move_resolved.
    by rewrite (T t j Hin Hjin Hm), Hstage.
  - right. rewrite (poll_update _ _ _ _ _ Hj), Hp. cbn [fmap option_fmap option_map].
    destruct (set_where_id_cases (task_id t) patch_failed j) as [[Hm ->]|[_ ->]];
      (eexists; split; [done|]); [|constructor].
    assert (task_id t = i) as -> by congruence. apply move_rejected.
    rewrite (T t j Hin Hjin Hm). apply stage_status_cases.
  - right. rewrite (poll_update _ _ _ _ _ Hj), Hp. cbn [fmap option_fmap option_map].
    destruct (set_where_id_cases (task_id t) patch_failed j) as [[Hm ->]|[_ ->]];
      (eexists; split; [done|]); [|constructor].
    assert (task_id t = i) as -> by congruence. apply move_unsaved.
    by rewrite (T t j Hin Hjin Hm), Hstage.
Qed.

(** A row that is not there stays away, unless the step inserts it: as the
    next id of the counter, pending, with progress 0. *)
Lemma effect_poll_None (s s' : Server) (e : Event) (i : Z) :
  step_effect s s' e → poll s i = None →
  poll s' i = None
  ∨ ∃ j', poll s' i = Some j' ∧ i = mergeJobs_seq (world s)
          ∧ MergeJob.status j' = pending ∧ MergeJob.progress j' = 0.
Proof.
  intros Heff Hp.
  destruct Heff as
    [e' Hj Hq Hs Ht
    |req now job Hid Hst Hpr Hout Hj Hq Hs Ht
    |req job t Hin Htj Hstage Hj Hq Hs Ht
    |req Hj Hq Hs Ht
    |t Hin Hstage Hj Hq Hs Ht
    |t stamp filePaths outputFilename Hin Hstage Hj Hq Hs Ht
    |i' p Hfl Hj Hq Hs Ht
    |t now outputFilename Hin Hstage Hj Hq Hs Ht
    |t Hin Hj Hq Hs Ht
    |t Hin Hstage Hj Hq Hs Ht
    |t encoded Hin Hj Hq Hs Ht].
  1,3,6,11: left; by rewrite (poll_frame _ _ _ Hj).
  - unfold poll, getMergeJob in *. run_M. rewrite Hj.
    rewrite (select_app MergeJob.id), Hp, filter_cons, filter_nil.
    destruct (decide (MergeJob.id job = i)) as [Heq|Hne]; [right|by left].
    exists job. split_and!; [done|congruence..].
  - left. unfold poll, getMergeJob in *. run_M. rewrite Hj.
    rewrite (select_delete MergeJob.id). by case_decide.
  - left. by rewrite (poll_update _ _ _ _ _ Hj), Hp.
  - left. by rewrite (poll_update _ _ _ _ _ Hj), Hp.
  - left. by rewrite (poll_update _ _ _ _ _ Hj), Hp.
  - left. by rewrite (poll_update _ _ _ _ _ Hj), Hp.
  - left. by rewrite (poll_update _ _ _ _ _ Hj), Hp.
Qed.

Lemma step_poll_Some (s : Server) (e : Event) (i : Z) (j : MergeJob.t) :
  invariant s → poll s i = Some j →
  poll (step s e) i = None
  ∨ ∃ j', poll (step s e) i = Some j' ∧ job_move (inflight s) i e j j'.
Proof. intros Hinv. apply effect_poll_Some; [done|apply step_has_effect]. Qed.

Lemma step_poll_None (s : Server) (e : Event) (i : Z) :
  poll s i = None →
  poll (step s e) i = None
  ∨ ∃ j', poll (step s e) i = Some j' ∧ i = mergeJobs_seq (world s)
          ∧ MergeJob.status j' = pending ∧ MergeJob.progress j' = 0.
Proof. apply (effect_poll_None _ _ e), step_has_effect. Qed.

Lemma effect_seq_mono (s s' : Server) (e : Event) :
  step_effect s s' e → mergeJobs_seq (world s) ≤ mergeJobs_seq (world s').
Proof. destruct 1; lia. Qed.

Lemma step_seq_mono (s : Server) (e : Event) :
  mergeJobs_seq (world s) ≤ mergeJobs_seq (world (step s e)).
Proof. apply (effect_seq_mono _ _ e), step_has_effect. Qed.

Lemma poll_Some_fresh (s : Server) (i : Z) (j : MergeJob.t) :
  invariant s → poll s i = Some j → i < mergeJobs_seq (world s).
Proof.
  intros Hinv [Hin <-]%poll_Some_elem.
  pose proof (inv_jobs_fresh _ Hinv) as Fj. rewrite Forall_forall in Fj. by apply Fj.
Qed.

(** Ids are not reused: a deleted job does not come back. *)
Lemma gone_forever (es : list Event) (s : Server) (i : Z) :
  i < mergeJobs_seq (world s) → poll s i = None → poll (run s es) i = None.
Proof.
  revert s. induction es as [|e es IH]; intros s Hlt Hp; [done|].
  rewrite run_cons. apply IH.
  - pose proof (step_seq_mono s e). lia.
  - destruct (step_poll_None s e i Hp) as [?|(j' & _ & ? & _)]; [done|lia].
Qed.

(** ** What a move keeps *)

Lemma job_move_status (fl : list (Z * Q)) (i : Z) (e : Event) (j j' : MergeJob.t) :
  job_move fl i e j j' →
  MergeJob.status j' = MergeJob.status j
  ∨ status_next (MergeJob.status j) (MergeJob.status j').
Proof.
  intros Hm. destruct Hm as [| ? Hs | | ? ? ? Hs | ? [Hs|Hs] | ? Hs]; cbn; rewrite ?Hs;
    auto using status_next.
Qed.

(** A row in a terminal state keeps its status, its output file and its
    completion time; only a write that lands late still changes it, and
    only its progress. *)
Lemma job_move_terminal (fl : list (Z * Q)) (i : Z) (e : Event) (j j' : MergeJob.t) :
  job_move fl i e j j' → terminal (MergeJob.status j) →
  MergeJob.status j' = MergeJob.status j
  ∧ MergeJob.outputFile j' = MergeJob.outputFile j
  ∧ MergeJob.completedAt j' = MergeJob.completedAt j
  ∧ (j' = j ∨ ∃ p, e = EvLand i p ∧ (i, p) ∈ fl
                   ∧ MergeJob.progress j' = Qfloor p).
Proof.
  intros Hm [Ht|Ht]; destruct Hm as [| ? Hs | | ? ? ? Hs | ? [Hs|Hs] | ? Hs];
    try congruence; try (split_and!; [done..|by left]);
    (split_and!; [done..|right; by eexists]).
Qed.

Lemma job_move_progress (fl : list (Z * Q)) (i : Z) (e : Event) (j j' : MergeJob.t) :
  job_move fl i e j j' →
  MergeJob.progress j' = MergeJob.progress j
  ∨ (MergeJob.progress j' = 100 ∧ MergeJob.status j' = completed)
  ∨ ∃ p, e = EvLand i p ∧ (i, p) ∈ fl ∧ MergeJob.progress j' = Qfloor p
         ∧ MergeJob.status j' = MergeJob.status j.
Proof.
  intros Hm. destruct Hm; cbn; auto.
  right. right. by eexists.
Qed.

Lemma job_move_columns (fl : list (Z * Q)) (i : Z) (e : Event) (j j' : MergeJob.t) :
  job_move fl i e j j' →
  MergeJob.id j' = MergeJob.id j
  ∧ MergeJob.name j' = MergeJob.name j
  ∧ MergeJob.removeSilence j' = MergeJob.removeSilence j
  ∧ MergeJob.outputFormat j' = MergeJob.outputFormat j
  ∧ MergeJob.createdBy j' = MergeJob.createdBy j
  ∧ MergeJob.createdAt j' = MergeJob.createdAt j.
Proof. intros Hm. by destruct Hm. Qed.

(** ** The writes in flight *)

Lemma elem_of_settle (x y : Z * Q) (l : list (Z * Q)) :
  y ∈ settle x l → y ∈ l.
Proof.
  induction l as [|z l IH]; cbn [settle]; [done|].
  case_decide; intros Hy; [by right|].
  apply elem_of_cons in Hy as [->|Hy]; [by left|right; by apply IH].
Qed.

(** A write is in flight only if the encoder of that job reported the
    value. *)
Lemma inflight_step (s : Server) (e : Event) (i : Z) (p : Q) :
  (i, p) ∈ inflight (step s e) → (i, p) ∈ inflight s ∨ e = EvReport i p.
Proof.
  destruct e as [req md now|req|req now|jobId|req|jobId|jobId stamp|jobId q|jobId q
                |jobId q|jobId now|jobId|jobId|jobId [|]];
    cbn [step]; try (by left).
  - destruct (post_merge_create req now (world s)) as [[?|?] ?]; by left.
  - destruct (find_suspended jobId (suspended s)) as [[req job]|]; [|by left].
    destruct (post_merge_link req job (world s)) as [[? ?] ?]. by left.
  - destruct (find_task jobId (tasks s)) as [t|]; [|by left].
    destruct (task_stage t); by left.
  - destruct (find_task jobId (tasks s)) as [t|]; [|by left].
    destruct (task_stage t); try (by left).
    destruct (task_resolve t stamp (world s)) as [[? ?] ?]. by left.
  - destruct (find_task jobId (tasks s)) as [t|] eqn:Hf; [|by left].
    apply find_task_Some in Hf as [_ <-].
    destruct (task_stage t); try (by left).
    cbn [inflight]. unfold task_progress.
    intros [?|Hin%list_elem_of_singleton]%elem_of_app; [by left|right]. congruence.
  - case_decide; [|by left]. cbn [inflight]. intros ?%elem_of_settle. by left.
  - case_decide; [|by left]. cbn [inflight]. intros ?%elem_of_settle. by left.
  - destruct (find_task jobId (tasks s)) as [t|]; [|by left].
    destruct (task_stage t); by left.
  - destruct (find_task jobId (tasks s)) as [t|]; by left.
  - destruct (find_task jobId (tasks s)) as [t|]; [|by left].
    destruct (task_stage t); by left.
  - destruct (find_task jobId (tasks s)) as [t|]; [|by left].
    destruct (task_stage t); by left.
  - destruct (find_task jobId (tasks s)) as [t|]; by left.
Qed.

Lemma reports_of_cons (i : Z) (e : Event) (es : list Event) :
  reports_of i (e :: es)
  = match e with
    | EvReport i' p => if decide (i' = i) then p :: reports_of i es else reports_of i es
    | _ => reports_of i es
    end.
Proof. destruct e; try done. unfold reports_of. cbn. by case_decide. Qed.

Lemma reports_of_app (i : Z) (es1 es2 : list Event) :
  reports_of i (es1 ++ es2) = reports_of i es1 ++ reports_of i es2.
Proof. apply omap_app. Qed.

(** The value of every write in flight was reported by the encoder of
    that job. *)
Lemma inflight_origin (es : list Event) (i : Z) (p : Q) :
  (i, p) ∈ inflight (run boot es) → p ∈ reports_of i es.
Proof.
  induction es as [|e es IH] using rev_ind; [by intros ?%elem_of_nil|].
  rewrite run_app, reports_of_app.
  change (run (run boot es) [e]) with (step (run boot es) e).
  intros [Hin| ->]%inflight_step; apply elem_of_app; [left; by apply IH|right].
  rewrite reports_of_cons, decide_True by done. apply list_elem_of_here.
Qed.

(** ** The primary key of [mergeJobs] *)

Lemma jobs_unique_effect (s s' : Server) (e : Event) :
  invariant s → step_effect s s' e →
  NoDup (MergeJob.id <$> mergeJobs (world s)) →
  NoDup (MergeJob.id <$> mergeJobs (world s')).
Proof.
  intros Hinv Heff Hnd.
  assert (∀ id p (l : list MergeJob.t),
            MergeJob.id <$> (set_where_id id p <$> l) = MergeJob.id <$> l) as Hset.
  { intros id p l. rewrite <-list_fmap_compose. apply list_fmap_ext.
    intros ? x _. apply set_where_id_id. }
  destruct Heff as
    [e Hj _ _ _
    |req now job Hid _ _ _ Hj _ _ _
    |req job t _ _ _ Hj _ _ _
    |req Hj _ _ _
    |t _ _ Hj _ _ _
    |t stamp filePaths outputFilename _ _ Hj _ _ _
    |i p _ Hj _ _ _
    |t now outputFilename _ _ Hj _ _ _
    |t _ Hj _ _ _
    |t _ _ Hj _ _ _
    |t encoded _ Hj _ _ _]; rewrite Hj, ?Hset; try done.
  - rewrite fmap_app. apply NoDup_app. split_and!; [done| |apply NoDup_singleton].
    intros i (g & -> & Hg)%list_elem_of_fmap Hi%list_elem_of_singleton.
    pose proof (inv_jobs_fresh _ Hinv) as Fj. rewrite Forall_forall in Fj.
    specialize (Fj g Hg). cbn in Hi, Fj. lia.
  - eapply sublist_NoDup; [exact Hnd|]. apply fmap_sublist, sublist_filter.
Qed.



(** ** Status and progress along a trace *)

(** The status of a row walks along the state machine, and what a
    terminal row has besides its progress it keeps. *)
Lemma status_path (es : list Event) (s : Server) (i : Z) (j1 j2 : MergeJob.t) :
  invariant s → poll s i = Some j1 → poll (run s es) i = Some j2 →
  rtc status_next (MergeJob.status j1) (MergeJob.status j2)
  ∧ (terminal (MergeJob.status j1) →
     MergeJob.status j2 = MergeJob.status j1
     ∧ MergeJob.outputFile j2 = MergeJob.outputFile j1
     ∧ MergeJob.completedAt j2 = MergeJob.completedAt j1).
Proof.
  revert s j1. induction es as [|e es IH]; intros s j1 Hinv Hp Hp2.
  { cbn in Hp2. assert (j2 = j1) as -> by congruence. by split. }
  rewrite run_cons in Hp2.
  destruct (step_poll_Some s e i j1 Hinv Hp) as [Hgone|(j1' & Hp1 & Hm)].
  { rewrite (gone_forever es (step s e) i) in Hp2; [done| |done].
    pose proof (poll_Some_fresh s i j1 Hinv Hp). pose proof (step_seq_mono s e). lia. }
  destruct (IH (step s e) j1' (invariant_step s e Hinv) Hp1 Hp2) as [Hrtc Hterm].
  split.
  - destruct (job_move_status _ _ _ _ _ Hm) as [Heq|Hnext].
    + by rewrite <-Heq.
    + by eapply rtc_l.
  - intros Ht. destruct (job_move_terminal _ _ _ _ _ Hm Ht) as (Hst & Hout & Hdone & _).
    destruct Hterm as (Hst2 & Hout2 & Hdone2); [by rewrite Hst|]. split_and!; congruence.
Qed.

(** Where the progress of a row comes from: the insert, the final
    update, or a report of the job's encoder. *)
Lemma progress_origin (es : list Event) (i : Z) (j : MergeJob.t) :
  poll (run boot es) i = Some j →
  (MergeJob.progress j = 0 ∧ MergeJob.status j ≠ completed)
  ∨ MergeJob.progress j = 100
  ∨ ∃ p, p ∈ reports_of i es ∧ MergeJob.progress j = Qfloor p.
Proof.
  revert j. induction es as [|e es IH] using rev_ind; intros j Hp; [done|].
  rewrite run_app in Hp. change (run (run boot es) [e]) with (step (run boot es) e) in Hp.
  pose proof (invariant_run boot es invariant_boot) as Hinv.
  rewrite reports_of_app.
  destruct (poll (run boot es) i) as [j0|] eqn:Hp0.
  - destruct (step_poll_Some _ e i j0 Hinv Hp0) as [Hgone|(j' & Hp' & Hm)]; [congruence|].
    assert (j' = j) as -> by congruence.
    assert ((MergeJob.progress j0 = 0 ∧ MergeJob.status j0 ≠ completed)
            ∨ MergeJob.progress j0 = 100
            ∨ ∃ p, p ∈ reports_of i es ++ reports_of i [e]
                    ∧ MergeJob.progress j0 = Qfloor p) as Hkeep.
    { destruct (IH j0 eq_refl) as [?|[?|(p & Hin & ?)]]; [by left|by right; left|].
      right. right. exists p. split; [|done]. apply elem_of_app. by left. }
    destruct Hm as [e j0|j0 Hst|j0 p Hfl|j0 f now Hst|j0 Hst|j0 Hst]; cbn.
    + done.
    + destruct Hkeep as [[? _]|[?|?]]; [left; by split|by right; left|by right; right].
    + right. right. exists p. split; [|done]. apply elem_of_app. left.
      by apply inflight_origin.
    + right. by left.
    + destruct Hkeep as [[? _]|[?|?]]; [left; by split|by right; left|by right; right].
    + destruct Hkeep as [[? _]|[?|?]]; [left; by split|by right; left|by right; right].
  - destruct (step_poll_None _ e i Hp0) as [Hgone|(j' & Hp' & _ & Hst & Hpr)]; [congruence|].
    assert (j' = j) as -> by congruence. left. by rewrite Hst.
Qed.






(** ** Rejections that nothing handles *)

(** C6, evaluated where it fails.  The database cannot be reached once
    the task of job 1 has started: the file lookups reject, the [catch]
    block is entered and its own update rejects as well; the rejection
    leaves the callback, nothing handles it, and the row stays
    [processing].  And a progress write that is rejected while the
    encoder runs has no handler either. *)
Theorem failure_escapes :
  let lookups_fail := Sample.queued ++ [EvStart 1; EvEscaped 1 false] in
  let write_fails :=
    Sample.queued ++ [EvStart 1; EvResolve 1 "s"; EvReport 1 (25 # 2)%Q;
                      EvLost 1 (25 # 2)%Q] in
  unhandled (run boot lookups_fail) = [1]
  ∧ tasks (run boot lookups_fail) = []
  ∧ (∃ j, poll (run boot lookups_fail) 1 = Some j ∧ MergeJob.status j = processing)
  ∧ unhandled (run boot write_fails) = [1]
  ∧ unhandled (run boot Sample.merged) = [].
Proof. vm_compute. split_and!; try reflexivity. eexists. split; reflexivity. Qed.

(** ** Reading after an update *)

Lemma getMergeJob_update (id : Z) (p : JobPatch.t) (w : World) :
  (getMergeJob id (updateMergeJob id p w).2).1 = JobPatch.apply p <$> (getMergeJob id w).1.
Proof.
  rewrite updateMergeJob_world. unfold getMergeJob. run_M. cbn [mergeJobs].
  rewrite (select_fmap MergeJob.id) by (intros; apply set_where_id_id).
  destruct (head (filter _ (mergeJobs w))) as [j|] eqn:Hsel; [|done].
  apply (select_Some MergeJob.id) in Hsel as [_ Hid]. cbn.
  unfold set_where_id. by rewrite decide_True.
Qed.

(** ** The primary key of [audioFiles] *)

Lemma step_audioFiles (s : Server) (e : Event) :
  (audioFiles_seq (world (step s e)) = audioFiles_seq (world s)
   ∧ audioFiles (world (step s e)) `sublist_of` audioFiles (world s))
  ∨ ∃ f, audioFiles (world (step s e)) = audioFiles (world s) ++ [f]
         ∧ AudioFile.id f = audioFiles_seq (world s)
         ∧ audioFiles_seq (world (step s e)) = audioFiles_seq (world s) + 1.
Proof.
  destruct e as [req md now|req|req now|jobId|req|jobId|jobId stamp|jobId p|jobId p
                |jobId p|jobId now|jobId|jobId|jobId [|]];
    cbn [step].
  - unfold upload_single, route_upload, createAudioFile. run_M.
    destruct (file req) as [f|]; [|by left]. destruct md as [d|]; [|by left].
    right. by eexists.
  - left. unfold route_delete_file, getAudioFile, deleteAudioFile, deleteFile,
      unlink_if_exists. run_M.
    destruct (head (filter _ (audioFiles (world s)))); [|done].
    destruct (negb _); (split; [done|apply sublist_filter]).
  - left. unfold post_merge_create, createMergeJob. run_M.
    by destruct (fileIds_guard _).
  - left. destruct (find_suspended jobId (suspended s)) as [[req job]|]; done.
  - left. rewrite route_delete_job_cases.
    destruct (getMergeJob (params_id req) (world s)).1; [|done]. by case_decide.
  - left. destruct (find_task jobId (tasks s)) as [t|]; [|done].
    by destruct (task_stage t).
  - left. destruct (find_task jobId (tasks s)) as [t|]; [|done].
    destruct (task_stage t); try done.
    pose proof (task_resolve_world t stamp (world s)) as Hw.
    destruct (task_resolve t stamp (world s)) as [[filePaths outputFilename] w'].
    cbn [snd] in Hw. by subst w'.
  - left. destruct (find_task jobId (tasks s)) as [t|]; [|done].
    by destruct (task_stage t).
  - left. by case_decide.
  - left. by case_decide.
  - left. destruct (find_task jobId (tasks s)) as [t|]; [|done].
    by destruct (task_stage t).
  - left. by destruct (find_task jobId (tasks s)) as [t|].
  - left. destruct (find_task jobId (tasks s)) as [t|]; [|done].
    by destruct (task_stage t).
  - left. destruct (find_task jobId (tasks s)) as [t|]; [|done].
    by destruct (task_stage t).
  - left. by destruct (find_task jobId (tasks s)) as [t|].
Qed.

Lemma files_ok_step (s : Server) (e : Event) :
  files_ok (world s) → files_ok (world (step s e)).
Proof.
  intros [Hlt Hnd]. unfold files_ok.
  destruct (step_audioFiles s e) as [[-> Hsub]|(f & -> & Hid & ->)].
  - split.
    + rewrite Forall_forall in Hlt |- *. intros f Hf. apply Hlt.
      by eapply elem_of_sublist.
    + eapply sublist_NoDup; [exact Hnd|]. by apply fmap_sublist.
  - split.
    + apply Forall_app. split; [eapply Forall_impl; [exact Hlt|]; cbn; intros; lia|].
      apply Forall_singleton. lia.
    + rewrite fmap_app. apply NoDup_app. split_and!; [done| |apply NoDup_singleton].
      intros i (g & -> & Hg)%list_elem_of_fmap Hi%list_elem_of_singleton.
      rewrite Forall_forall in Hlt. specialize (Hlt g Hg). cbn in Hi. lia.
Qed.

(** In every state the server reaches, the ids of [audioFiles] are
    unique. *)
Lemma audioFiles_ids_unique (es : list Event) :
  NoDup (AudioFile.id <$> audioFiles (world (run boot es))).
Proof.
  cut (files_ok (world (run boot es))); [by intros [_ ?]|].
  assert (files_ok (world boot)) as Hboot by (split; constructor).
  revert Hboot. generalize boot.
  induction es as [|e es IH]; intros s Hs; [done|].
  rewrite run_cons. apply IH. by apply files_ok_step.
Qed.

(** ** Links point to jobs that were created *)

Lemma links_fresh_step (s : Server) (e : Event) :
  invariant s →
  Forall (λ l, MergeJobFile.jobId l < mergeJobs_seq (world s)) (mergeJobFiles (world s)) →
  Forall (λ l, MergeJobFile.jobId l < mergeJobs_seq (world (step s e)))
    (mergeJobFiles (world (step s e))).
Proof.
  intros Hinv Hl.
  destruct e as [req md now|req|req now|jobId|req|jobId|jobId stamp|jobId p|jobId p
                |jobId p|jobId now|jobId|jobId|jobId [|]];
    cbn [step].
  - unfold upload_single, route_upload, createAudioFile. run_M.
    by destruct (file req), md.
  - unfold route_delete_file, getAudioFile, deleteAudioFile, deleteFile,
      unlink_if_exists. run_M.
    destruct (head (filter _ (audioFiles (world s)))); [|done]. by destruct (negb _).
  - unfold post_merge_create, createMergeJob. run_M.
    destruct (fileIds_guard _); [|done]. cbn.
    eapply Forall_impl; [exact Hl|]. cbn. intros; lia.
  - destruct (find_suspended jobId (suspended s)) as [[req job]|] eqn:Hf; [|done].
    apply (select_Some (λ r : Request * MergeJob.t, MergeJob.id r.2)) in Hf as [Hin _].
    pose proof (inv_suspended_fresh _ Hinv) as Fs. rewrite Forall_forall in Fs.
    specialize (Fs _ Hin). cbn in Fs |- *.
    apply Forall_app. split; [done|]. apply Forall_fmap, Forall_forall. by intros.
  - rewrite route_delete_job_cases.
    destruct (getMergeJob (params_id req) (world s)).1 as [job|]; [|done].
    case_decide; [|done]. cbn.
    rewrite Forall_forall in Hl |- *. intros l Hin%list_elem_of_filter. apply Hl. tauto.
  - destruct (find_task jobId (tasks s)) as [t|]; [|done].
    by destruct (task_stage t).
  - destruct (find_task jobId (tasks s)) as [t|]; [|done].
    destruct (task_stage t); try done.
    pose proof (task_resolve_world t stamp (world s)) as Hw.
    destruct (task_resolve t stamp (world s)) as [[filePaths outputFilename] w'].
    cbn [snd] in Hw. by subst w'.
  - destruct (find_task jobId (tasks s)) as [t|]; [|done].
    by destruct (task_stage t).
  - by case_decide.
  - by case_decide.
  - destruct (find_task jobId (tasks s)) as [t|]; [|done].
    by destruct (task_stage t).
  - by destruct (find_task jobId (tasks s)) as [t|].
  - destruct (find_task jobId (tasks s)) as [t|]; [|done].
    by destruct (task_stage t).
  - destruct (find_task jobId (tasks s)) as [t|]; [|done].
    by destruct (task_stage t).
  - by destruct (find_task jobId (tasks s)) as [t|].
Qed.

(** In every state the server reaches, the links refer to job ids the
    counter has passed. *)
Lemma links_fresh (es : list Event) :
  Forall (λ l, MergeJobFile.jobId l < mergeJobs_seq (world (run boot es)))
    (mergeJobFiles (world (run boot es))).
Proof.
  induction es as [|e es IH] using rev_ind; [constructor|].
  rewrite run_app. change (run (run boot es) [e]) with (step (run boot es) e).
  apply links_fresh_step; [|done]. apply invariant_run, invariant_boot.
Qed.

(** ** The merge route inside the server *)





Example merge_then_encode :
  let s3 := run boot (Sample.queued ++ [EvStart 1; EvResolve 1 "stamp"; EvResolved 1 300]) in
  disk (world s3)
  = ["uploads/merged_stamp.wav"; "uploads/a2.mp3"; "uploads/b1.mp3"; "uploads/a1.mp3"]
  ∧ poll s3 1
    = Some (MergeJob.mk 1 "mix" completed 100 (Some "merged_stamp.wav") true "wav" "alice"
              200 (Some 300)).
Proof. vm_compute. split; reflexivity. Qed.

(** * Further properties of the audio routes *)

(** ** Uploading *)

(** X1 — a successful upload answers with the new row, whose duration is
    the probed duration rounded down and whose owner is the requester;
    the row is then found by its id and is in the requester's listing, and
    the primary key is kept. *)
Theorem upload_then_fetch (req : Request) (f : UploadedFile) (d : Q) (now : Z) (w : World) :
  files_ok w →
  file req = Some f →
  ∃ row,
    (route_upload req (Some d) now w).1 = JsonFile row
    ∧ AudioFile.duration row = Qfloor d
    ∧ AudioFile.uploadedBy row = user_sub req
    ∧ AudioFile.filename row = file_filename f
    ∧ (getAudioFile (AudioFile.id row) (route_upload req (Some d) now w).2).1 = Some row
    ∧ row ∈ (getAudioFiles (Some (user_sub req)) (route_upload req (Some d) now w).2).1
    ∧ files_ok (route_upload req (Some d) now w).2.
Proof.
  intros [Hlt Hnd] Hf. unfold route_upload, createAudioFile. run_M. rewrite Hf.
  cbn [fst snd]. eexists. split; [reflexivity|]. cbn [audioFiles_defaults AudioFile.duration
    AudioFile.uploadedBy AudioFile.filename AudioFile.id InsertAudioFile.duration
    InsertAudioFile.uploadedBy InsertAudioFile.filename].
  split_and!; try reflexivity.
  - unfold getAudioFile. run_M. cbn [audioFiles].
    rewrite (select_app AudioFile.id).
    assert (head (filter (λ g, AudioFile.id g = audioFiles_seq w) (audioFiles w)) = None) as ->.
    { apply (select_None AudioFile.id). eapply Forall_impl; [exact Hlt|]. cbn. intros; lia. }
    by rewrite filter_cons, decide_True.
  - unfold getAudioFiles. run_M. cbn [audioFiles].
    rewrite merge_sort_Permutation.
    destruct (truthy_string (user_sub req)).
    + apply list_elem_of_filter. split; [done|]. apply elem_of_app. right.
      apply list_elem_of_here.
    + apply elem_of_app. right. apply list_elem_of_here.
  - split; cbn [audioFiles audioFiles_seq].
    + apply Forall_app. split; [eapply Forall_impl; [exact Hlt|]; cbn; intros; lia|].
      apply Forall_singleton. cbn. lia.
    + rewrite fmap_app. apply NoDup_app. split_and!; [done| |apply NoDup_singleton].
      intros i (g & -> & Hg)%list_elem_of_fmap Hi%list_elem_of_singleton.
      rewrite Forall_forall in Hlt. specialize (Hlt g Hg). cbn in Hi. lia.
Qed.

Lemma upload_then_fetch_witness :
  ∃ row,
    (route_upload (Sample.upload_of "alice" "a3.mp3") (Some (9 # 2)%Q) 130
       (world Sample.uploaded)).1 = JsonFile row
    ∧ AudioFile.duration row = Qfloor (9 # 2)%Q
    ∧ AudioFile.uploadedBy row = "alice"
    ∧ AudioFile.filename row = "a3.mp3"
    ∧ (getAudioFile (AudioFile.id row)
         (route_upload (Sample.upload_of "alice" "a3.mp3") (Some (9 # 2)%Q) 130
            (world Sample.uploaded)).2).1 = Some row
    ∧ row ∈ (getAudioFiles (Some "alice")
               (route_upload (Sample.upload_of "alice" "a3.mp3") (Some (9 # 2)%Q) 130
                  (world Sample.uploaded)).2).1
    ∧ files_ok (route_upload (Sample.upload_of "alice" "a3.mp3") (Some (9 # 2)%Q) 130
                  (world Sample.uploaded)).2.
Proof.
  apply (upload_then_fetch (Sample.upload_of "alice" "a3.mp3")
           (mkUploadedFile "a3.mp3" "a3.mp3" 4096 "audio/mpeg") (9 # 2)%Q 130
           (world Sample.uploaded)).
  - split.
    + vm_compute. repeat constructor.
    + apply (bool_decide_unpack _). vm_compute. exact I.
  - reflexivity.
Defined.

(** ** Deleting a file, deleting a job *)

Lemma route_delete_file_by_owner (req : Request) (w : World) (f : AudioFile.t) :
  NoDup (AudioFile.id <$> audioFiles w) →
  (getAudioFile (params_id req) w).1 = Some f →
  AudioFile.uploadedBy f = user_sub req →
  route_delete_file req w
  = (Message 200 "File deleted successfully",
     mkWorld (filter (λ g, AudioFile.id g ≠ params_id req) (audioFiles w))
       (mergeJobs w) (mergeJobFiles w) (audioFiles_seq w) (mergeJobs_seq w)
       (filter (λ p, p ≠ "uploads/" +:+ AudioFile.filename f) (disk w))).
Proof.
  intros Hnd Hsel Hown. unfold route_delete_file, getAudioFile, deleteAudioFile, deleteFile,
    unlink_if_exists in *. run_M. rewrite Hsel.
  pose proof (select_Some _ _ _ _ Hsel) as [Hin Hid].
  rewrite bool_decide_eq_true_2 by (by apply (filter_nonempty _ _ f)).
  cbn [negb disk audioFiles mergeJobs mergeJobFiles audioFiles_seq mergeJobs_seq].
  do 2 f_equal. apply filter_ext_elem_of. intros g Hg. split; [|tauto].
  intros Hhit Hgid. apply Hhit. split; [done|].
  by rewrite (select_unique AudioFile.id _ _ f g Hnd Hsel Hg Hgid).
Qed.

(** X2 — after the owner has deleted an audio file, the id resolves to
    nothing, the row is out of the owner's listing and the stored file is
    no longer served; every other file resolves as before, and the merge
    jobs and their links are left as they were (no cascade from files to
    links). *)
Theorem delete_file_then (req : Request) (w : World) (f : AudioFile.t) :
  files_ok w →
  (getAudioFile (params_id req) w).1 = Some f →
  AudioFile.uploadedBy f = user_sub req →
  let w' := (route_delete_file req w).2 in
  (getAudioFile (params_id req) w').1 = None
  ∧ ¬ (f ∈ (getAudioFiles (Some (user_sub req)) w').1)
  ∧ route_get_upload (AudioFile.filename f) w' = FileNotFound
  ∧ (∀ i, i ≠ params_id req → (getAudioFile i w').1 = (getAudioFile i w).1)
  ∧ mergeJobs w' = mergeJobs w
  ∧ mergeJobFiles w' = mergeJobFiles w
  ∧ files_ok w'.
Proof.
  intros [Hlt Hnd] Hsel Hown w'. subst w'.
  rewrite (route_delete_file_by_owner req w f Hnd Hsel Hown). cbn [snd].
  pose proof (select_Some _ _ _ _ Hsel) as [Hin Hid].
  split_and!; try done.
  - unfold getAudioFile. run_M. cbn [audioFiles].
    by rewrite (select_delete AudioFile.id), decide_True.
  - unfold getAudioFiles. run_M. cbn [audioFiles]. rewrite merge_sort_Permutation.
    intros Hf. assert (f ∈ filter (λ g, AudioFile.id g ≠ params_id req) (audioFiles w)) as Hf'.
    { destruct (truthy_string (user_sub req)); [|done].
      apply list_elem_of_filter in Hf. tauto. }
    apply list_elem_of_filter in Hf' as [Hne _]. by apply Hne.
  - unfold route_get_upload. cbn [disk]. rewrite decide_False; [done|].
    intros [Hne _]%list_elem_of_filter. by apply Hne.
  - intros i Hi. unfold getAudioFile. run_M. cbn [audioFiles].
    by rewrite (select_delete AudioFile.id), decide_False.
  - split; cbn [audioFiles audioFiles_seq].
    + rewrite Forall_forall in Hlt |- *. intros g Hg%list_elem_of_filter. apply Hlt. tauto.
    + eapply sublist_NoDup; [exact Hnd|]. apply fmap_sublist, sublist_filter.
Qed.

Lemma delete_file_then_witness :
  let req := Sample.on_id "alice" 3 in
  let w := world Sample.finished in
  let f := AudioFile.mk 3 "a2.mp3" "a2.mp3" 4096 3 "audio/mpeg" "alice" 120 in
  let w' := (route_delete_file req w).2 in
  (getAudioFile (params_id req) w').1 = None
  ∧ ¬ (f ∈ (getAudioFiles (Some (user_sub req)) w').1)
  ∧ route_get_upload (AudioFile.filename f) w' = FileNotFound
  ∧ (∀ i, i ≠ params_id req → (getAudioFile i w').1 = (getAudioFile i w).1)
  ∧ mergeJobs w' = mergeJobs w
  ∧ mergeJobFiles w' = mergeJobFiles w
  ∧ files_ok w'.
Proof.
  intros req w f.
  apply (delete_file_then req w f).
  - split.
    + vm_compute. repeat constructor.
    + apply (bool_decide_unpack _). vm_compute. exact I.
  - vm_compute. reflexivity.
  - reflexivity.
Defined.

Lemma deleteMergeJob_loaded_cases (loading : Loading) (id : Z) (userId : string)
    (w : World) :
  deleteMergeJob_loaded loading id userId w =
    match (getMergeJob id w).1 with
    | Some job =>
        if decide (MergeJob.createdBy job = userId)
        then match loading, MergeJob.outputFile job with
             | ESModule, Some f => if truthy_string f then (false, w)
                                   else (true, without_job job w)
             | _, _ => (true, without_job job w)
             end
        else (false, w)
    | None => (false, w)
    end.
Proof.
  unfold deleteMergeJob_loaded, getMergeJob, unlink_if_exists. run_M.
  destruct (head (filter _ (mergeJobs w))) as [job|] eqn:Hsel; [|done].
  pose proof (select_Some _ _ _ _ Hsel) as [Hin Hid].
  destruct (decide (MergeJob.createdBy job ≠ userId)) as [Hne|Heq].
  { by rewrite decide_False. }
  rewrite decide_True by (by destruct (decide (MergeJob.createdBy job = userId))).
  unfold without_job. rewrite Hid.
  destruct loading, (MergeJob.outputFile job) as [f|]; [destruct (truthy_string f)| |
    destruct (truthy_string f)|]; try done;
    cbn [mergeJobs audioFiles mergeJobFiles audioFiles_seq mergeJobs_seq disk];
    (rewrite bool_decide_eq_true_2; [done|]);
    by apply (filter_nonempty _ _ job).
Qed.

(** Loaded as CommonJS, the method and the route are the ones of the
    server above. *)
Lemma route_delete_job_commonjs (req : Request) (w : World) :
  deleteMergeJob_loaded CommonJS (params_id req) (user_sub req) w
  = deleteMergeJob (params_id req) (user_sub req) w
  ∧ route_delete_job_loaded CommonJS req w = route_delete_job req w.
Proof.
  assert (deleteMergeJob_loaded CommonJS (params_id req) (user_sub req) w
          = deleteMergeJob (params_id req) (user_sub req) w) as Heq.
  { rewrite deleteMergeJob_loaded_cases, deleteMergeJob_cases.
    destruct (getMergeJob (params_id req) w).1 as [job|]; [|done].
    case_decide; [|done]. by destruct (MergeJob.outputFile job). }
  split; [exact Heq|]. unfold route_delete_job_loaded, route_delete_job. run_M.
  by rewrite Heq.
Qed.

(** X3 — the owner deletes a merge job.  When the job has no output
    file, or the storage module is loaded as CommonJS, the answer is 200
    and afterwards the id resolves to nothing, the job has no links left
    and its output file, if it had one, is no longer served; every other
    job keeps its row and its links, and the audio files are left as they
    were.  When the job has an output file and the module is loaded as an
    ES module, [require] throws, the method's [catch] returns false, and
    the answer is 404 with nothing deleted. *)
Theorem delete_job_then (loading : Loading) (req : Request) (w : World)
    (job : MergeJob.t) :
  (getMergeJob (params_id req) w).1 = Some job →
  MergeJob.createdBy job = user_sub req →
  let r := route_delete_job_loaded loading req w in
  let w' := r.2 in
  match loading, MergeJob.outputFile job with
  | ESModule, Some (String _ _) =>
      r = (Message 404 "Job not found or access denied", w)
  | _, _ =>
      r.1 = Message 200 "Job deleted successfully"
      ∧ (getMergeJob (params_id req) w').1 = None
      ∧ links_of w' (params_id req) = []
      ∧ (∀ out, MergeJob.outputFile job = Some out → out ≠ "" →
         route_get_upload out w' = FileNotFound)
      ∧ (∀ i, i ≠ params_id req →
         ((getMergeJob i w').1 = (getMergeJob i w).1) ∧ (links_of w' i = links_of w i))
      ∧ audioFiles w' = audioFiles w
  end.
Proof.
  intros Hsel Hown r w'.
  assert (r = match loading, MergeJob.outputFile job with
              | ESModule, Some (String _ _) =>
                  (Message 404 "Job not found or access denied", w)
              | _, _ => (Message 200 "Job deleted successfully", without_job job w)
              end) as Hr.
  { unfold r, route_delete_job_loaded. run_M. rewrite deleteMergeJob_loaded_cases, Hsel.
    rewrite decide_True by done.
    by destruct loading, (MergeJob.outputFile job) as [[|c f]|]. }
  assert (r = (Message 200 "Job deleted successfully", without_job job w) →
          r.1 = Message 200 "Job deleted successfully"
          ∧ (getMergeJob (params_id req) w').1 = None
          ∧ links_of w' (params_id req) = []
          ∧ (∀ out, MergeJob.outputFile job = Some out → out ≠ "" →
             route_get_upload out w' = FileNotFound)
          ∧ (∀ i, i ≠ params_id req →
             ((getMergeJob i w').1 = (getMergeJob i w).1) ∧ (links_of w' i = links_of w i))
          ∧ audioFiles w' = audioFiles w) as Hdone.
  { intros Heq. unfold w'. rewrite Heq. cbn [fst snd].
    pose proof (select_Some MergeJob.id _ _ _ Hsel) as [Hin Hid].
    unfold without_job. rewrite Hid. split_and!; try done.
    - unfold getMergeJob. run_M. cbn [mergeJobs].
      by rewrite (select_delete MergeJob.id), decide_True.
    - unfold links_of. cbn [mergeJobFiles]. rewrite filter_none; [done|].
      apply Forall_forall. intros l [Hne _]%list_elem_of_filter. done.
    - intros out Hout Hne. rewrite Hout. unfold route_get_upload. cbn [disk].
      rewrite truthy_string_nonempty by done. rewrite decide_False; [done|].
      intros [Hp _]%list_elem_of_filter. by apply Hp.
    - intros i Hi. split.
      + unfold getMergeJob. run_M. cbn [mergeJobs].
        by rewrite (select_delete MergeJob.id), decide_False.
      + unfold links_of. cbn [mergeJobFiles]. f_equal.
        rewrite list_filter_filter. apply list_filter_iff. intros l. split; [tauto|].
        intros Hl. split; [done|]. congruence. }
  destruct loading, (MergeJob.outputFile job) as [[|c f]|]; by (apply Hdone || exact Hr).
Qed.

Lemma delete_job_then_witness :
  let req := Sample.on_id "alice" 1 in
  let w := world Sample.finished in
  route_delete_job_loaded ESModule req w
  = (Message 404 "Job not found or access denied", w).
Proof.
  intros req w.
  apply (delete_job_then ESModule req w
           (MergeJob.mk 1 "mix" completed 100 (Some "merged_1700000000000_k3j9x0q2a.wav")
              true "wav" "alice" 200 (Some 300))).
  - vm_compute. reflexivity.
  - reflexivity.
Defined.

Example delete_job_commonjs :
  let req := Sample.on_id "alice" 1 in
  let r := route_delete_job_loaded CommonJS req (world Sample.finished) in
  r = route_delete_job req (world Sample.finished)
  ∧ r.1 = Message 200 "Job deleted successfully"
  ∧ mergeJobs r.2 = []
  ∧ route_get_upload "merged_1700000000000_k3j9x0q2a.wav" r.2 = FileNotFound.
Proof. vm_compute. split_and!; reflexivity. Qed.

Example delete_job_esmodule_processing :
  let w := world Sample.encoding in
  (route_delete_job_loaded ESModule (Sample.on_id "alice" 1) w).1
  = Message 200 "Job deleted successfully".
Proof. vm_compute. reflexivity. Qed.

(** ** The paths given to the encoder *)

Lemma mapM_getAudioFile_result (ids : list Z) (w : World) :
  (mapM_M getAudioFile ids w).1 = (λ id, (getAudioFile id w).1) <$> ids.
Proof.
  induction ids as [|id ids IH]; [reflexivity|].
  cbn [mapM_M]. unfold mbind, M_bind, mret, M_ret.
  change (getAudioFile id w) with
    (head (filter (λ f, AudioFile.id f = id) (audioFiles w)), w).
  cbv beta iota. rewrite fmap_cons, <-IH.
  by destruct (mapM_M getAudioFile ids w).
Qed.

(** X4 — the callback gives the encoder one path per requested file id,
    in the order of the request: [uploads/<filename>] of the file the id
    resolves to at that moment, [uploads/undefined] for an id that
    resolves to nothing; the output name ends in [.wav] for format
    ["wav"] and in [.mp3] for every other format; nothing is written. *)
Theorem task_resolve_in_order (t : Task) (stamp : string) (w : World) :
  let paths := (task_resolve t stamp w).1.1 in
  length paths = length (task_fileIds t)
  ∧ (∀ k id, task_fileIds t !! k = Some id →
     paths !! k
     = Some (match (getAudioFile id w).1 with
             | Some f => "uploads/" +:+ AudioFile.filename f
             | None => "uploads/undefined"
             end))
  ∧ (task_resolve t stamp w).1.2
    = "merged_" +:+ stamp +:+
      (if decide (MergeJob.outputFormat (task_job t) = "wav") then ".wav" else ".mp3")
  ∧ (task_resolve t stamp w).2 = w.
Proof.
  pose proof (mapM_getAudioFile_result (task_fileIds t) w) as Hres.
  pose proof (mapM_getAudioFile_world (task_fileIds t) w) as Hw.
  unfold task_resolve. run_M.
  destruct (mapM_M getAudioFile (task_fileIds t) w) as [files w'].
  cbn [fst snd] in *. subst files w'. split_and!; [| |by case_decide|done].
  - by rewrite !length_fmap.
  - intros k id Hk. rewrite !list_lookup_fmap, Hk. cbn.
    unfold upload_path. by destruct (getAudioFile id w).1.
Qed.

Example task_resolve_missing_file :
  (task_resolve (mkTask (MergeJob.mk 7 "mix" pending 0 None false "ogg" "alice" 200 None)
                   [3; 42; 1] None Started) "s" (world Sample.uploaded)).1
  = (["uploads/a2.mp3"; "uploads/undefined"; "uploads/a1.mp3"], "merged_s.mp3").
Proof. vm_compute. reflexivity. Qed.

(** ** Updating a job that is there *)

Lemma select_fmap_other {A : Type} (key : A → Z) (f : A → A) (l : list A) (id i : Z) :
  (∀ x, key (f x) = key x) → (∀ x, key x ≠ id → f x = x) → i ≠ id →
  head (filter (λ x, key x = i) (f <$> l)) = head (filter (λ x, key x = i) l).
Proof.
  intros Hk Hf Hi. rewrite (select_fmap key) by done.
  destruct (head (filter _ l)) as [x|] eqn:Hsel; [|done].
  apply (select_Some key) in Hsel as [_ Hx]. cbn. rewrite Hf; [done|congruence].
Qed.

(** X5 — [updateMergeJob] on an id that has a row returns that row with
    the given columns set, and a later [getMergeJob] finds the same; the
    id and the creation time of the row stay, every other job is found as
    before, and no table other than [mergeJobs] and no file is touched. *)
Theorem updateMergeJob_present (w : World) (id : Z) (p : JobPatch.t) (j : MergeJob.t) :
  (getMergeJob id w).1 = Some j →
  let r := updateMergeJob id p w in
  r.1 = Some (JobPatch.apply p j)
  ∧ (getMergeJob id r.2).1 = Some (JobPatch.apply p j)
  ∧ MergeJob.id (JobPatch.apply p j) = id
  ∧ MergeJob.createdAt (JobPatch.apply p j) = MergeJob.createdAt j
  ∧ (∀ i, i ≠ id → (getMergeJob i r.2).1 = (getMergeJob i w).1)
  ∧ length (mergeJobs r.2) = length (mergeJobs w)
  ∧ audioFiles r.2 = audioFiles w
  ∧ mergeJobFiles r.2 = mergeJobFiles w
  ∧ disk r.2 = disk w.
Proof.
  intros Hj r. subst r.
  pose proof (getMergeJob_update id p w) as Hupd. rewrite Hj in Hupd. cbn in Hupd.
  pose proof (select_Some MergeJob.id _ _ _ Hj) as [_ Hid].
  split; [exact Hupd|]. split; [exact Hupd|]. split; [exact Hid|].
  split; [reflexivity|]. split; [|split; [|by split_and!]].
  - intros i Hi. rewrite updateMergeJob_world. unfold getMergeJob. run_M.
    cbn [mergeJobs].
    apply (select_fmap_other MergeJob.id _ _ id); [apply set_where_id_id| |done].
    intros x Hx. unfold set_where_id. by rewrite decide_False.
  - rewrite updateMergeJob_world. cbn [mergeJobs]. by rewrite length_fmap.
Qed.

Lemma updateMergeJob_present_witness :
  let w := world Sample.encoding in
  let j := MergeJob.mk 1 "mix" processing 60 None true "wav" "alice" 200 None in
  let r := updateMergeJob 1 (patch_progress (151 # 2)%Q) w in
  r.1 = Some (JobPatch.apply (patch_progress (151 # 2)%Q) j)
  ∧ (getMergeJob 1 r.2).1 = Some (JobPatch.apply (patch_progress (151 # 2)%Q) j)
  ∧ MergeJob.id (JobPatch.apply (patch_progress (151 # 2)%Q) j) = 1
  ∧ MergeJob.createdAt (JobPatch.apply (patch_progress (151 # 2)%Q) j) = MergeJob.createdAt j
  ∧ (∀ i, i ≠ 1 → (getMergeJob i r.2).1 = (getMergeJob i w).1)
  ∧ length (mergeJobs r.2) = length (mergeJobs w)
  ∧ audioFiles r.2 = audioFiles w
  ∧ mergeJobFiles r.2 = mergeJobFiles w
  ∧ disk r.2 = disk w.
Proof.
  intros w j.
  apply (updateMergeJob_present w 1 (patch_progress (151 # 2)%Q) j).
  vm_compute. reflexivity.
Defined.

(** ** Listings without a user *)

(** X6 — called without a user id, or with the empty string,
    [getAudioFiles] and [getMergeJobs] apply no filter: they return every
    row of the table, of every owner, newest first. *)
Theorem listings_unfiltered (w : World) (userId : option string) :
  userId = None ∨ userId = Some "" →
  ((getAudioFiles userId w).1 ≡ₚ audioFiles w
   ∧ StronglySorted uploadedAt_desc (getAudioFiles userId w).1)
  ∧ ((getMergeJobs userId w).1 ≡ₚ mergeJobs w
     ∧ StronglySorted createdAt_desc (getMergeJobs userId w).1).
Proof.
  intros Hu. unfold getAudioFiles, getMergeJobs. run_M.
  assert (match userId with
          | Some u => truthy_string u = false
          | None => True
          end) as Hfalsy by (by destruct Hu as [->| ->]).
  destruct userId as [u|]; [rewrite Hfalsy|];
    (split; (split; [apply merge_sort_Permutation|apply StronglySorted_merge_sort; apply _])).
Qed.

Lemma listings_unfiltered_witness :
  ((getAudioFiles None (world Sample.finished)).1 ≡ₚ audioFiles (world Sample.finished)
   ∧ StronglySorted uploadedAt_desc (getAudioFiles None (world Sample.finished)).1)
  ∧ ((getMergeJobs None (world Sample.finished)).1 ≡ₚ mergeJobs (world Sample.finished)
     ∧ StronglySorted createdAt_desc (getMergeJobs None (world Sample.finished)).1).
Proof. apply (listings_unfiltered (world Sample.finished) None). by left. Defined.

Example getAudioFiles_all_owners :
  AudioFile.uploadedBy <$> (getAudioFiles (Some "") (world Sample.uploaded)).1
  = ["alice"; "bob"; "alice"].
Proof. vm_compute. reflexivity. Qed.

(** * Further properties of the server *)

(** ** The primary key of [mergeJobs] *)

(** X7 — in every state the server reaches, no two rows of [mergeJobs]
    share an id, every id is below the serial counter, and the counter
    never decreases: ids are not reused, also after deletions. *)
Theorem job_ids_unique (es : list Event) (e : Event) :
  NoDup (MergeJob.id <$> mergeJobs (world (run boot es)))
  ∧ Forall (λ j, MergeJob.id j < mergeJobs_seq (world (run boot es)))
      (mergeJobs (world (run boot es)))
  ∧ mergeJobs_seq (world (run boot es)) ≤ mergeJobs_seq (world (run boot (es ++ [e]))).
Proof.
  split_and!.
  - induction es as [|e' es IH] using rev_ind; [constructor|].
    rewrite run_app. change (run (run boot es) [e']) with (step (run boot es) e').
    eapply jobs_unique_effect; [|apply step_has_effect|exact IH].
    apply invariant_run, invariant_boot.
  - apply inv_jobs_fresh, invariant_run, invariant_boot.
  - rewrite run_app. apply step_seq_mono.
Qed.

(** ** Deleting a job while its task runs *)



(** ** Who writes to a job *)

(** X9 — in every state the server reaches, a step that changes the row
    of a job is a step of that job's own task (its start, one of its
    progress writes landing, the end of the encoding or a failure); no
    request of any user and no other job's task changes it.  Whatever the
    step, the id, the name, the options, the owner and the creation time
    of the row stay. *)
Theorem row_changes_only_by_task (es : list Event) (e : Event) (i : Z) (j j' : MergeJob.t) :
  poll (run boot es) i = Some j →
  poll (step (run boot es) e) i = Some j' →
  (j' ≠ j →
   e = EvStart i ∨ (∃ p, e = EvLand i p) ∨ (∃ now, e = EvResolved i now)
   ∨ e = EvRejected i ∨ e = EvUnsaved i)
  ∧ MergeJob.id j' = MergeJob.id j
  ∧ MergeJob.name j' = MergeJob.name j
  ∧ MergeJob.removeSilence j' = MergeJob.removeSilence j
  ∧ MergeJob.outputFormat j' = MergeJob.outputFormat j
  ∧ MergeJob.createdBy j' = MergeJob.createdBy j
  ∧ MergeJob.createdAt j' = MergeJob.createdAt j.
Proof.
  intros Hp Hp'. pose proof (invariant_run boot es invariant_boot) as Hinv.
  destruct (step_poll_Some _ e i j Hinv Hp) as [?|(j1 & Hp1 & Hm)]; [congruence|].
  assert (j1 = j') as -> by congruence.
  split; [|by eapply job_move_columns].
  destruct Hm as [e j|j Hst|j p Hfl|j f now Hst|j Hst|j Hst]; intros Hne.
  - done.
  - by left.
  - right. left. by eexists.
  - right. right. left. by eexists.
  - do 3 right. by left.
  - by do 4 right.
Qed.

Lemma row_changes_only_by_task_witness :
  let j := MergeJob.mk 1 "mix" processing 60 None true "wav" "alice" 200 None in
  let j' := MergeJob.mk 1 "mix" failed 60 None true "wav" "alice" 200 None in
  (j' ≠ j →
   EvRejected 1 = EvStart 1 ∨ (∃ p, EvRejected 1 = EvLand 1 p)
   ∨ (∃ now, EvRejected 1 = EvResolved 1 now) ∨ EvRejected 1 = EvRejected 1
   ∨ EvRejected 1 = EvUnsaved 1)
  ∧ MergeJob.id j' = MergeJob.id j
  ∧ MergeJob.name j' = MergeJob.name j
  ∧ MergeJob.removeSilence j' = MergeJob.removeSilence j
  ∧ MergeJob.outputFormat j' = MergeJob.outputFormat j
  ∧ MergeJob.createdBy j' = MergeJob.createdBy j
  ∧ MergeJob.createdAt j' = MergeJob.createdAt j.
Proof.
  intros j j'.
  apply (row_changes_only_by_task Sample.merging (EvRejected 1) 1 j j').
  - vm_compute. reflexivity.
  - vm_compute. reflexivity.
Defined.

(** ** A successful run of the background task *)

(** X10 — when the encoder of a job resolves and the final update is
    applied, the output file is on disk and the row of the job, if it
    exists, is [completed], with progress 100, the output name the task
    computed and the completion time of the update.  Whatever happens
    afterwards, the row keeps that status, output name and completion
    time for as long as it exists; its progress stays 100 unless a write
    issued during the encoding lands late, and is then the rounded-down
    value of a report of the job's encoder. *)
Theorem success_completes (es es' : list Event) (t : Task) (filePaths : list string)
    (outputFilename : string) (now : Z) (j j' : MergeJob.t) :
  find_task (task_id t) (tasks (run boot es)) = Some t →
  task_stage t = Encoding filePaths outputFilename →
  poll (run boot es) (task_id t) = Some j →
  let s1 := step (run boot es) (EvResolved (task_id t) now) in
  ("uploads/" +:+ outputFilename) ∈ disk (world s1)
  ∧ poll s1 (task_id t) = Some (JobPatch.apply (patch_completed outputFilename now) j)
  ∧ (poll (run s1 es') (task_id t) = Some j' →
     MergeJob.status j' = completed
     ∧ MergeJob.outputFile j' = Some outputFilename
     ∧ MergeJob.completedAt j' = Some now
     ∧ (MergeJob.progress j' = 100
        ∨ ∃ p, p ∈ reports_of (task_id t) (es ++ EvResolved (task_id t) now :: es')
               ∧ MergeJob.progress j' = Qfloor p)).
Proof.
  intros Hf Hstage Hp s1.
  pose proof (invariant_run boot es invariant_boot) as Hinv.
  assert (s1 = mkServer
                 (task_complete t outputFilename now
                    (after_encoding t filePaths outputFilename (world (run boot es)))).2
                 (suspended (run boot es)) (drop_task (task_id t) (tasks (run boot es)))
                 (inflight (run boot es)) (unhandled (run boot es))) as Hs1.
  { unfold s1. cbn [step]. by rewrite Hf, Hstage. }
  assert (poll s1 (task_id t)
          = Some (JobPatch.apply (patch_completed outputFilename now) j)) as Hp1.
  { rewrite (poll_update (run boot es) s1 (task_id t) (task_id t)
               (patch_completed outputFilename now)) by (by rewrite Hs1).
    rewrite Hp. cbn. apply poll_Some_elem in Hp as [_ Hid].
    unfold set_where_id. by rewrite decide_True. }
  split; [rewrite Hs1; apply list_elem_of_here|]. split; [done|].
  intros Hp'.
  destruct (status_path es' s1 (task_id t) _ j' (invariant_step _ _ Hinv) Hp1 Hp')
    as [_ Hterm].
  destruct Hterm as (Hst & Hout & Hdone); [by left|]. cbn in Hst, Hout, Hdone.
  split_and!; [done..|].
  assert (run s1 es' = run boot (es ++ EvResolved (task_id t) now :: es')) as Hrun
    by (by rewrite run_app, run_cons).
  rewrite Hrun in Hp'.
  destruct (progress_origin _ _ j' Hp') as [[_ ?]|[?|?]]; auto. done.
Qed.

Lemma success_completes_witness :
  let t := mkTask (MergeJob.mk 1 "mix" pending 0 None true "wav" "alice" 200 None)
             [1; 3] (Some true)
             (Encoding ["uploads/a1.mp3"; "uploads/a2.mp3"]
                "merged_1700000000000_k3j9x0q2a.wav") in
  let es := Sample.merging ++ [EvReport 1 (199 # 2)%Q] in
  let j' := MergeJob.mk 1 "mix" completed 99 (Some "merged_1700000000000_k3j9x0q2a.wav")
              true "wav" "alice" 200 (Some 300) in
  let s1 := step (run boot es) (EvResolved (task_id t) 300) in
  ("uploads/" +:+ "merged_1700000000000_k3j9x0q2a.wav") ∈ disk (world s1)
  ∧ poll s1 (task_id t)
    = Some (JobPatch.apply (patch_completed "merged_1700000000000_k3j9x0q2a.wav" 300)
              (MergeJob.mk 1 "mix" processing 60 None true "wav" "alice" 200 None))
  ∧ (poll (run s1 [EvLand 1 (199 # 2)%Q]) (task_id t) = Some j' →
     MergeJob.status j' = completed
     ∧ MergeJob.outputFile j' = Some "merged_1700000000000_k3j9x0q2a.wav"
     ∧ MergeJob.completedAt j' = Some 300
     ∧ (MergeJob.progress j' = 100
        ∨ ∃ p, p ∈ reports_of (task_id t)
                   (es ++ EvResolved (task_id t) 300 :: [EvLand 1 (199 # 2)%Q])
               ∧ MergeJob.progress j' = Qfloor p)).
Proof.
  intros t es j'.
  apply (success_completes es [EvLand 1 (199 # 2)%Q] t
           ["uploads/a1.mp3"; "uploads/a2.mp3"] "merged_1700000000000_k3j9x0q2a.wav" 300
           (MergeJob.mk 1 "mix" processing 60 None true "wav" "alice" 200 None) j').
  - vm_compute. reflexivity.
  - reflexivity.
  - vm_compute. reflexivity.
Defined.

Example late_write_after_success :
  poll (run boot Sample.overtaken) 1
  = Some (MergeJob.mk 1 "mix" completed 99 (Some "merged_1700000000000_k3j9x0q2a.wav")
            true "wav" "alice" 200 (Some 300)).
Proof. vm_compute. reflexivity. Qed.

(** * Properties of the todo ticks *)

Lemma head_filter_the {A : Type} (P : A → Prop) `{!∀ x, Decision (P x)}
    (l : list A) (x : A) :
  x ∈ l → P x → (∀ y, y ∈ l → P y → y = x) → head (filter P l) = Some x.
Proof.
  intros Hin HP Huniq.
  assert (x ∈ filter P l) as Hx by by apply list_elem_of_filter.
  destruct (filter P l) as [|y k] eqn:E; [by apply elem_of_nil in Hx|].
  assert (y ∈ filter P l) as Hy by (rewrite E; apply list_elem_of_here).
  apply list_elem_of_filter in Hy as [HPy Hy]. cbn. f_equal. by apply Huniq.
Qed.

Lemma key_unique {A : Type} (key : A → Z) (l : list A) (x y : A) :
  NoDup (key <$> l) → x ∈ l → y ∈ l → key y = key x → y = x.
Proof.
  intros Hnd Hx Hy Hk. induction l as [|z l IH]; [by apply elem_of_nil in Hy|].
  rewrite fmap_cons in Hnd. apply NoDup_cons in Hnd as [Hz Hnd].
  apply elem_of_cons in Hx as [->|Hx], Hy as [->|Hy]; auto.
  - exfalso. apply Hz. apply list_elem_of_fmap. exists y. split; [congruence|done].
  - exfalso. apply Hz. apply list_elem_of_fmap. exists x. split; [congruence|done].
Qed.

Lemma addTodoTick_row (todos : list Todo.t) (todo : Todo.t) (now : Z) :
  NoDup (Todo.id <$> todos) → todo ∈ todos →
  let newTicks := Z.min (Todo.currentTicks todo + 1) (Todo.totalTicks todo) in
  let isCompleted := bool_decide (Todo.totalTicks todo ≤ newTicks) in
  let todo' :=
    Todos.set_ticks newTicks (if isCompleted then "completed" else "in_progress")
      (if isCompleted then Some now else None) now todo in
  Todos.addTodoTick (Todo.id todo) (Todo.assignedTo todo) now todos
  = (Some todo',
     (λ r, if decide (Todo.id r = Todo.id todo) then todo' else r) <$> todos).
Proof.
  intros Hnd Hin newTicks isCompleted todo'. unfold Todos.addTodoTick.
  rewrite (head_filter_the _ todos todo); [|done|done|].
  2: { intros y Hy [Hid _]. by apply (key_unique Todo.id todos). }
  fold newTicks isCompleted.
  assert (∀ r, r ∈ todos →
            (if decide (Todo.id r = Todo.id todo)
             then Todos.set_ticks newTicks (if isCompleted then "completed" else "in_progress")
                    (if isCompleted then Some now else None) now r
             else r)
            = (if decide (Todo.id r = Todo.id todo) then todo' else r)) as Hext.
  { intros r Hr. case_decide as Hid; [|done].
    by rewrite (key_unique Todo.id todos todo r Hnd Hin Hr Hid). }
  rewrite (list_fmap_ext _ (λ r, if decide (Todo.id r = Todo.id todo) then todo' else r) todos)
    by (intros ? r Hr%list_elem_of_lookup_2; by apply Hext).
  f_equal.
  rewrite (select_fmap Todo.id) by (intros r; by case_decide).
  rewrite (head_filter_the _ todos todo); [|done|done|].
  - cbn. by rewrite decide_True.
  - intros y Hy Hid. by apply (key_unique Todo.id todos).
Qed.

Lemma ticked_once (now : Z) (r : Todo.t) :
  Todos.set_ticks (Z.min (Todo.currentTicks r + 1) (Todo.totalTicks r))
    (if bool_decide (Todo.totalTicks r ≤ Z.min (Todo.currentTicks r + 1) (Todo.totalTicks r))
     then "completed" else "in_progress")
    (if bool_decide (Todo.totalTicks r ≤ Z.min (Todo.currentTicks r + 1) (Todo.totalTicks r))
     then Some now else None) now r
  = Todos.ticked 1 now r.
Proof.
  unfold Todos.ticked. cbv zeta.
  by rewrite (bool_decide_ext (Todo.totalTicks r ≤ Z.min (Todo.currentTicks r + 1)
                                 (Todo.totalTicks r))
                (Todo.totalTicks r ≤ Todo.currentTicks r + 1)) by lia.
Qed.

Lemma ticked_ticked (k : Z) (now now' : Z) (r : Todo.t) :
  0 ≤ k → Todos.ticked k now' (Todos.ticked 1 now r) = Todos.ticked (k + 1) now' r.
Proof.
  intros Hk. unfold Todos.ticked, Todos.set_ticks. cbn.
  rewrite (bool_decide_ext
             (Todo.totalTicks r ≤ Z.min (Todo.currentTicks r + 1) (Todo.totalTicks r) + k)
             (Todo.totalTicks r ≤ Todo.currentTicks r + (k + 1))) by lia.
  f_equal. lia.
Qed.

Lemma replace_row_fmap (todos : list Todo.t) (todo todo' : Todo.t) :
  Todo.id todo' = Todo.id todo →
  NoDup (Todo.id <$> todos) → todo ∈ todos →
  let todos' := (λ r, if decide (Todo.id r = Todo.id todo) then todo' else r) <$> todos in
  NoDup (Todo.id <$> todos') ∧ todo' ∈ todos'.
Proof.
  intros Hid Hnd Hin todos'. subst todos'. split.
  - rewrite <-list_fmap_compose.
    rewrite (list_fmap_ext _ Todo.id todos); [done|].
    intros ? r _. cbn. case_decide; congruence.
  - apply list_elem_of_fmap. exists todo. split; [by rewrite decide_True|done].
Qed.

Lemma tick_each_row (nows : list Z) (now : Z) (todos : list Todo.t) (todo : Todo.t) :
  NoDup (Todo.id <$> todos) → todo ∈ todos →
  Todos.tick_each (Todo.id todo) (Todo.assignedTo todo) (nows ++ [now]) todos
  = (Some (Todos.ticked (Z.of_nat (length nows) + 1) now todo),
     (λ r, if decide (Todo.id r = Todo.id todo)
           then Todos.ticked (Z.of_nat (length nows) + 1) now todo else r) <$> todos).
Proof.
  revert todos todo. induction nows as [|n nows IH]; intros todos todo Hnd Hin.
  { cbn [app Todos.tick_each length]. rewrite (addTodoTick_row todos todo now Hnd Hin).
    cbv zeta. by rewrite ticked_once. }
  assert (Todos.tick_each (Todo.id todo) (Todo.assignedTo todo) ((n :: nows) ++ [now]) todos
          = Todos.tick_each (Todo.id todo) (Todo.assignedTo todo) (nows ++ [now])
              (Todos.addTodoTick (Todo.id todo) (Todo.assignedTo todo) n todos).2) as ->.
  { cbn [app Todos.tick_each]. by destruct (nows ++ [now]) eqn:E; [destruct nows|]. }
  rewrite (addTodoTick_row todos todo n Hnd Hin). cbv zeta. cbn [snd].
  rewrite ticked_once.
  destruct (replace_row_fmap todos todo (Todos.ticked 1 n todo) eq_refl Hnd Hin)
    as [Hnd' Hin'].
  pose proof (IH _ (Todos.ticked 1 n todo) Hnd' Hin') as Hrec.
  change (Todo.id (Todos.ticked 1 n todo)) with (Todo.id todo) in Hrec.
  change (Todo.assignedTo (Todos.ticked 1 n todo)) with (Todo.assignedTo todo) in Hrec.
  rewrite Hrec, ticked_ticked by lia.
  replace (Z.of_nat (length (n :: nows)) + 1) with (Z.of_nat (length nows) + 1 + 1)
    by (cbn [length]; lia).
  f_equal. rewrite <-list_fmap_compose. apply list_fmap_ext.
  intros ? r _. cbn. destruct (decide (Todo.id r = Todo.id todo)) as [Heq|Hne].
  - by rewrite decide_True.
  - by rewrite decide_False.
Qed.

(** X11 — a tick by the assignee moves [currentTicks] to
    [min(currentTicks + 1, totalTicks)]; the todo is ["completed"], with
    the time of the tick, exactly when that reaches [totalTicks], and
    ["in_progress"] without completion time otherwise; with ticks between
    0 and the total before, they are so after and did not decrease; the
    other todos and the number of rows stay. *)
Theorem addTodoTick_by_assignee (todos : list Todo.t) (todo : Todo.t) (now : Z) :
  NoDup (Todo.id <$> todos) → todo ∈ todos →
  let c := Todo.currentTicks todo in
  let t := Todo.totalTicks todo in
  let r := Todos.addTodoTick (Todo.id todo) (Todo.assignedTo todo) now todos in
  ∃ todo',
    r.1 = Some todo'
    ∧ todo' ∈ r.2
    ∧ Todo.currentTicks todo' = Z.min (c + 1) t
    ∧ Todo.totalTicks todo' = t
    ∧ (if decide (t ≤ c + 1)
       then Todo.status todo' = "completed" ∧ Todo.completedAt todo' = Some now
       else Todo.status todo' = "in_progress" ∧ Todo.completedAt todo' = None)
    ∧ (0 ≤ c ≤ t → c ≤ Todo.currentTicks todo' ≤ t)
    ∧ (∀ x, x ∈ todos → Todo.id x ≠ Todo.id todo → x ∈ r.2)
    ∧ length r.2 = length todos.
Proof.
  intros Hnd Hin c t r. subst r.
  rewrite (addTodoTick_row todos todo now Hnd Hin). cbv zeta. rewrite ticked_once.
  cbn [fst snd]. eexists. split; [reflexivity|].
  split; [by apply (replace_row_fmap todos todo (Todos.ticked 1 now todo))|].
  unfold Todos.ticked, Todos.set_ticks. cbn. fold c t.
  split_and!; try done.
  - case_decide; [by rewrite bool_decide_eq_true_2|by rewrite bool_decide_eq_false_2].
  - lia.
  - intros x Hx Hne. apply list_elem_of_fmap. exists x. by rewrite decide_False.
  - by rewrite length_fmap.
Qed.

Lemma addTodoTick_by_assignee_witness :
  let r := Todos.addTodoTick 1 "bob" 20 TodoSample.todos in
  ∃ todo',
    r.1 = Some todo'
    ∧ todo' ∈ r.2
    ∧ Todo.currentTicks todo' = Z.min (1 + 1) 3
    ∧ Todo.totalTicks todo' = 3
    ∧ (if decide (3 ≤ 1 + 1)
       then Todo.status todo' = "completed" ∧ Todo.completedAt todo' = Some 20
       else Todo.status todo' = "in_progress" ∧ Todo.completedAt todo' = None)
    ∧ (0 ≤ 1 ≤ 3 → 1 ≤ Todo.currentTicks todo' ≤ 3)
    ∧ (∀ x, x ∈ TodoSample.todos → Todo.id x ≠ 1 → x ∈ r.2)
    ∧ length r.2 = length TodoSample.todos.
Proof.
  apply (addTodoTick_by_assignee TodoSample.todos TodoSample.cut 20).
  - apply (bool_decide_unpack _). vm_compute. exact I.
  - apply list_elem_of_here.
Defined.

Lemma todo_not_hit (todos : list Todo.t) (todo : Todo.t) (userId : string) :
  NoDup (Todo.id <$> todos) → todo ∈ todos → Todo.assignedTo todo ≠ userId →
  Forall (λ r, ¬ (Todo.id r = Todo.id todo ∧ Todo.assignedTo r = userId)) todos.
Proof.
  intros Hnd Hin Hne. apply Forall_forall. intros r Hr [Hid Hto]. apply Hne.
  by rewrite <-(key_unique Todo.id todos todo r Hnd Hin Hr Hid).
Qed.

(** X12 — a user who is not the assignee of a todo cannot tick it,
    complete its ticks or mark it complete: the three methods return
    nothing and leave the table as it is.  Deleting is open to the assigner
    as well: such a user deletes the todo exactly when being its
    assigner. *)
Theorem todo_only_assignee_completes (todos : list Todo.t) (todo : Todo.t)
    (userId : string) (now : Z) :
  NoDup (Todo.id <$> todos) → todo ∈ todos → Todo.assignedTo todo ≠ userId →
  Todos.addTodoTick (Todo.id todo) userId now todos = (None, todos)
  ∧ Todos.completeAllTicks (Todo.id todo) userId now todos = (None, todos)
  ∧ Todos.markTodoComplete (Todo.id todo) userId now todos = (None, todos)
  ∧ Todos.deleteTodo (Todo.id todo) userId todos
    = (bool_decide (Todo.assignedBy todo = userId),
       if decide (Todo.assignedBy todo = userId)
       then filter (λ r, Todo.id r ≠ Todo.id todo) todos else todos).
Proof.
  intros Hnd Hin Hne. pose proof (todo_not_hit todos todo userId Hnd Hin Hne) as Hno.
  assert (∀ g : Todo.t → Todo.t,
            (λ r, if decide (Todo.id r = Todo.id todo ∧ Todo.assignedTo r = userId)
                  then g r else r) <$> todos = todos) as Hsame.
  { intros g. rewrite <-(list_fmap_id todos) at 2. apply list_fmap_ext.
    intros ? r Hr%list_elem_of_lookup_2. rewrite Forall_forall in Hno.
    by rewrite decide_False by by apply Hno. }
  split_and!.
  - unfold Todos.addTodoTick. by rewrite filter_none.
  - unfold Todos.completeAllTicks. cbv zeta. by rewrite Hsame, filter_none.
  - unfold Todos.markTodoComplete. cbv zeta. by rewrite Hsame, filter_none.
  - unfold Todos.deleteTodo. cbv zeta.
    assert (∀ r, r ∈ todos →
              (Todo.id r = Todo.id todo
               ∧ (Todo.assignedBy r = userId ∨ Todo.assignedTo r = userId))
              ↔ (Todo.id r = Todo.id todo ∧ Todo.assignedBy todo = userId)) as Hhit.
    { intros r Hr. split.
      - intros [Hid Hor]. split; [done|].
        rewrite (key_unique Todo.id todos todo r Hnd Hin Hr Hid) in Hor. tauto.
      - intros [Hid Hby]. split; [done|].
        rewrite (key_unique Todo.id todos todo r Hnd Hin Hr Hid). tauto. }
    case_decide as Hby.
    + rewrite (bool_decide_eq_true_2 (Todo.assignedBy todo = userId)) by done. f_equal.
      * apply bool_decide_eq_true_2. apply (filter_nonempty _ _ todo); [done|]. tauto.
      * apply filter_ext_elem_of. intros r Hr. specialize (Hhit r Hr). tauto.
    + rewrite (bool_decide_eq_false_2 (Todo.assignedBy todo = userId)) by done. f_equal.
      * apply bool_decide_eq_false_2. rewrite filter_none; [cbn; lia|].
        apply Forall_forall. intros r Hr. specialize (Hhit r Hr). tauto.
      * apply filter_all. apply Forall_forall. intros r Hr. specialize (Hhit r Hr). tauto.
Qed.

Lemma todo_only_assignee_completes_witness :
  Todos.addTodoTick 1 "alice" 20 TodoSample.todos = (None, TodoSample.todos)
  ∧ Todos.completeAllTicks 1 "alice" 20 TodoSample.todos = (None, TodoSample.todos)
  ∧ Todos.markTodoComplete 1 "alice" 20 TodoSample.todos = (None, TodoSample.todos)
  ∧ Todos.deleteTodo 1 "alice" TodoSample.todos
    = (bool_decide ("alice" = "alice"),
       if decide ("alice" = "alice")
       then filter (λ r, Todo.id r ≠ 1) TodoSample.todos else TodoSample.todos).
Proof.
  apply (todo_only_assignee_completes TodoSample.todos TodoSample.cut "alice" 20).
  - apply (bool_decide_unpack _). vm_compute. exact I.
  - apply list_elem_of_here.
  - discriminate.
Defined.

(** X13 — ticks saturate: after [k ≥ 1] ticks by the assignee the todo
    has [min(currentTicks + k, totalTicks)] ticks and is ["completed"]
    exactly when [currentTicks + k] reaches [totalTicks]; further ticks
    never push the count above the total. *)
Theorem ticks_saturate (nows : list Z) (now : Z) (todos : list Todo.t) (todo : Todo.t) :
  NoDup (Todo.id <$> todos) → todo ∈ todos →
  let k := Z.of_nat (length nows) + 1 in
  ∃ todo',
    (Todos.tick_each (Todo.id todo) (Todo.assignedTo todo) (nows ++ [now]) todos).1
    = Some todo'
    ∧ Todo.currentTicks todo' = Z.min (Todo.currentTicks todo + k) (Todo.totalTicks todo)
    ∧ Todo.currentTicks todo' ≤ Todo.totalTicks todo
    ∧ (Todo.status todo' = "completed" ↔ Todo.totalTicks todo ≤ Todo.currentTicks todo + k)
    ∧ (Todo.status todo' = "in_progress" ↔ Todo.currentTicks todo + k < Todo.totalTicks todo).
Proof.
  intros Hnd Hin k. rewrite (tick_each_row nows now todos todo Hnd Hin). fold k.
  eexists. split; [reflexivity|]. unfold Todos.ticked, Todos.set_ticks. cbn.
  split; [done|]. split; [lia|].
  case_bool_decide; split; split; intros; try done; try lia.
Qed.

Lemma ticks_saturate_witness :
  ∃ todo',
    (Todos.tick_each 1 "bob" ([20; 21; 22] ++ [23]) TodoSample.todos).1 = Some todo'
    ∧ Todo.currentTicks todo' = Z.min (1 + (Z.of_nat (length [20; 21; 22]) + 1)) 3
    ∧ Todo.currentTicks todo' ≤ 3
    ∧ (Todo.status todo' = "completed" ↔ 3 ≤ 1 + (Z.of_nat (length [20; 21; 22]) + 1))
    ∧ (Todo.status todo' = "in_progress" ↔ 1 + (Z.of_nat (length [20; 21; 22]) + 1) < 3).
Proof.
  apply (ticks_saturate [20; 21; 22] 23 TodoSample.todos TodoSample.cut).
  - apply (bool_decide_unpack _). vm_compute. exact I.
  - apply list_elem_of_here.
Defined.

(** X14 — completing all ticks is what enough ticks do: for the assignee,
    [completeAllTicks] at a given time leaves the same table, and returns
    the same row, as any run of ticks that ends at that time and is long
    enough to reach the total. *)
Theorem completeAllTicks_as_ticks (nows : list Z) (now : Z) (todos : list Todo.t)
    (todo : Todo.t) :
  NoDup (Todo.id <$> todos) → todo ∈ todos →
  Todo.totalTicks todo ≤ Todo.currentTicks todo + Z.of_nat (length nows) + 1 →
  Todos.completeAllTicks (Todo.id todo) (Todo.assignedTo todo) now todos
  = Todos.tick_each (Todo.id todo) (Todo.assignedTo todo) (nows ++ [now]) todos.
Proof.
  intros Hnd Hin Hk. rewrite (tick_each_row nows now todos todo Hnd Hin).
  set (k := Z.of_nat (length nows) + 1).
  assert (Todos.ticked k now todo
          = Todos.set_ticks (Todo.totalTicks todo) "completed" (Some now) now todo) as Hfin.
  { unfold Todos.ticked. cbv zeta. rewrite bool_decide_eq_true_2 by (unfold k; lia).
    f_equal. unfold k. lia. }
  unfold Todos.completeAllTicks. cbv zeta.
  assert ((λ r, if decide (Todo.id r = Todo.id todo ∧ Todo.assignedTo r = Todo.assignedTo todo)
                then Todos.set_ticks (Todo.totalTicks r) "completed" (Some now) now r
                else r) <$> todos
          = (λ r, if decide (Todo.id r = Todo.id todo) then Todos.ticked k now todo else r)
              <$> todos) as ->.
  { apply list_fmap_ext. intros ? r Hr%list_elem_of_lookup_2.
    destruct (decide (Todo.id r = Todo.id todo)) as [Hid|Hne].
    - rewrite (key_unique Todo.id todos todo r Hnd Hin Hr Hid).
      by rewrite decide_True, Hfin.
    - rewrite decide_False; [done|tauto]. }
  f_equal.
  destruct (replace_row_fmap todos todo (Todos.ticked k now todo) eq_refl Hnd Hin)
    as [Hnd' Hin'].
  apply head_filter_the; [done|done|].
  intros y Hy [Hid _]. by apply (key_unique Todo.id _ _ _ Hnd' Hin' Hy).
Qed.

Lemma completeAllTicks_as_ticks_witness :
  Todos.completeAllTicks 1 "bob" 23 TodoSample.todos
  = Todos.tick_each 1 "bob" ([20; 21] ++ [23]) TodoSample.todos.
Proof.
  apply (completeAllTicks_as_ticks [20; 21] 23 TodoSample.todos TodoSample.cut).
  - apply (bool_decide_unpack _). vm_compute. exact I.
  - apply list_elem_of_here.
  - vm_compute. discriminate.
Defined.

(** X15 — a tick after [markTodoComplete] takes the completion back when
    ticks are still missing: the assignee marks a todo complete, ticks it
    once, and with [currentTicks + 1 < totalTicks] the todo is
    ["in_progress"] again, without completion time. *)
Theorem tick_after_mark_complete (todos : list Todo.t) (todo : Todo.t) (now now' : Z) :
  NoDup (Todo.id <$> todos) → todo ∈ todos →
  Todo.currentTicks todo + 1 < Todo.totalTicks todo →
  let marked := Todos.markTodoComplete (Todo.id todo) (Todo.assignedTo todo) now todos in
  let ticked := Todos.addTodoTick (Todo.id todo) (Todo.assignedTo todo) now' marked.2 in
  (∃ m, marked.1 = Some m ∧ Todo.status m = "completed" ∧ Todo.completedAt m = Some now
        ∧ Todo.currentTicks m = Todo.currentTicks todo)
  ∧ (∃ r, ticked.1 = Some r ∧ Todo.status r = "in_progress" ∧ Todo.completedAt r = None
          ∧ Todo.currentTicks r = Todo.currentTicks todo + 1).
Proof.
  intros Hnd Hin Hlt marked ticked.
  set (m := Todos.set_ticks (Todo.currentTicks todo) "completed" (Some now) now todo).
  assert (marked = (Some m, (λ r, if decide (Todo.id r = Todo.id todo) then m else r) <$> todos))
    as Hm.
  { unfold marked, Todos.markTodoComplete. cbv zeta.
    assert ((λ r, if decide (Todo.id r = Todo.id todo ∧ Todo.assignedTo r = Todo.assignedTo todo)
                  then Todos.set_ticks (Todo.currentTicks r) "completed" (Some now) now r
                  else r) <$> todos
            = (λ r, if decide (Todo.id r = Todo.id todo) then m else r) <$> todos) as ->.
    { apply list_fmap_ext. intros ? r Hr%list_elem_of_lookup_2.
      destruct (decide (Todo.id r = Todo.id todo)) as [Hid|Hne].
      - rewrite (key_unique Todo.id todos todo r Hnd Hin Hr Hid). by rewrite decide_True.
      - rewrite decide_False; [done|tauto]. }
    f_equal.
    destruct (replace_row_fmap todos todo m eq_refl Hnd Hin) as [Hnd' Hin'].
    apply head_filter_the; [done|done|].
    intros y Hy [Hid _]. by apply (key_unique Todo.id _ _ _ Hnd' Hin' Hy). }
  split.
  - exists m. by rewrite Hm.
  - destruct (replace_row_fmap todos todo m eq_refl Hnd Hin) as [Hnd' Hin'].
    subst ticked. rewrite Hm. cbn [snd].
    pose proof (addTodoTick_row _ m now' Hnd' Hin') as Hrow. cbv zeta in Hrow.
    change (Todo.id m) with (Todo.id todo) in Hrow.
    change (Todo.assignedTo m) with (Todo.assignedTo todo) in Hrow.
    rewrite Hrow. cbn [fst]. eexists. split; [reflexivity|].
    unfold Todos.set_ticks. cbn.
    rewrite bool_decide_eq_false_2 by lia. split_and!; [done|done|lia].
Qed.

Lemma tick_after_mark_complete_witness :
  let marked := Todos.markTodoComplete 1 "bob" 20 TodoSample.todos in
  let ticked := Todos.addTodoTick 1 "bob" 21 marked.2 in
  (∃ m, marked.1 = Some m ∧ Todo.status m = "completed" ∧ Todo.completedAt m = Some 20
        ∧ Todo.currentTicks m = 1)
  ∧ (∃ r, ticked.1 = Some r ∧ Todo.status r = "in_progress" ∧ Todo.completedAt r = None
          ∧ Todo.currentTicks r = 1 + 1).
Proof.
  apply (tick_after_mark_complete TodoSample.todos TodoSample.cut 20 21).
  - apply (bool_decide_unpack _). vm_compute. exact I.
  - apply list_elem_of_here.
  - vm_compute. reflexivity.
Defined.

(** * Properties of the poll votes *)

Lemma votePinboardPoll_row (polls : list Poll.t) (poll : Poll.t) (userId : string)
    (k now : Z) :
  NoDup (Poll.id <$> polls) → poll ∈ polls →
  let poll' :=
    Polls.set_votes (<[userId := k]> (default ∅ (Poll.votes poll))) now poll in
  Polls.votePinboardPoll (Poll.id poll) userId k now polls
  = (Some poll', (λ r, if decide (Poll.id r = Poll.id poll) then poll' else r) <$> polls).
Proof.
  intros Hnd Hin poll'. unfold Polls.votePinboardPoll.
  rewrite (head_filter_the _ polls poll); [|done|done|].
  2: { intros y Hy Hid. by apply (key_unique Poll.id polls). }
  cbv zeta.
  rewrite (list_fmap_ext _ (λ r, if decide (Poll.id r = Poll.id poll) then poll' else r) polls).
  2: { intros ? r Hr%list_elem_of_lookup_2. case_decide as Hid; [|done].
       by rewrite (key_unique Poll.id polls poll r Hnd Hin Hr Hid). }
  f_equal.
  rewrite (select_fmap Poll.id) by (intros r; by case_decide).
  rewrite (head_filter_the _ polls poll); [|done|done|].
  - cbn. by rewrite decide_True.
  - intros y Hy Hid. by apply (key_unique Poll.id polls).
Qed.

(** X16 — a vote on an existing poll is stored under the voter's id
    whatever the index (no check against the options): afterwards the
    voter's entry is that index, every other voter's entry is as before,
    the number of voters has grown by one exactly when the voter had no
    entry, and question, options, creator and the other polls are
    untouched. *)
Theorem vote_recorded (polls : list Poll.t) (poll : Poll.t) (userId : string) (k now : Z) :
  NoDup (Poll.id <$> polls) → poll ∈ polls →
  let old := default ∅ (Poll.votes poll) in
  let r := Polls.route_vote (Poll.id poll) userId (Some k) now polls in
  ∃ poll' votes',
    r.1 = Polls.VoteJson poll'
    ∧ poll' ∈ r.2
    ∧ Poll.votes poll' = Some votes'
    ∧ votes' !! userId = Some k
    ∧ (∀ u, u ≠ userId → votes' !! u = old !! u)
    ∧ size votes' = (match old !! userId with Some _ => size old | None => S (size old) end)
    ∧ Poll.question poll' = Poll.question poll
    ∧ Poll.options poll' = Poll.options poll
    ∧ Poll.createdBy poll' = Poll.createdBy poll
    ∧ (∀ x, x ∈ polls → Poll.id x ≠ Poll.id poll → x ∈ r.2)
    ∧ length r.2 = length polls.
Proof.
  intros Hnd Hin old r. subst r. unfold Polls.route_vote.
  rewrite (votePinboardPoll_row polls poll userId k now Hnd Hin). cbv zeta. cbn [fst snd].
  eexists _, _. split; [reflexivity|]. split.
  { apply list_elem_of_fmap. exists poll. by rewrite decide_True. }
  cbn [Polls.set_votes Poll.votes Poll.question Poll.options Poll.createdBy].
  split; [reflexivity|]. fold old. split_and!; try done.
  - apply lookup_insert_eq.
  - intros u Hu. by apply lookup_insert_ne.
  - rewrite map_size_insert. by destruct (old !! userId).
  - intros x Hx Hne. apply list_elem_of_fmap. exists x. by rewrite decide_False.
  - by rewrite length_fmap.
Qed.

Lemma vote_recorded_witness :
  let old : gmap string Z := {[ "alice" := 0 ]} in
  let r := Polls.route_vote 1 "bob" (Some 7) 20 PollSample.polls in
  ∃ poll' votes',
    r.1 = Polls.VoteJson poll'
    ∧ poll' ∈ r.2
    ∧ Poll.votes poll' = Some votes'
    ∧ votes' !! "bob" = Some 7
    ∧ (∀ u, u ≠ "bob" → votes' !! u = old !! u)
    ∧ size votes' = (match old !! "bob" with Some _ => size old | None => S (size old) end)
    ∧ Poll.question poll' = "Lunch?"
    ∧ Poll.options poll' = ["pizza"; "sushi"]
    ∧ Poll.createdBy poll' = "alice"
    ∧ (∀ x, x ∈ PollSample.polls → Poll.id x ≠ 1 → x ∈ r.2)
    ∧ length r.2 = length PollSample.polls.
Proof.
  apply (vote_recorded PollSample.polls PollSample.lunch "bob" 7 20).
  - apply (bool_decide_unpack _). vm_compute. exact I.
  - apply list_elem_of_here.
Defined.

(** X17 — the last vote of a user wins: a second vote by the same user on
    the same poll leaves the table that this vote alone would have left. *)
Theorem vote_again_replaces (polls : list Poll.t) (poll : Poll.t) (userId : string)
    (k1 k2 now1 now2 : Z) :
  NoDup (Poll.id <$> polls) → poll ∈ polls →
  Polls.votePinboardPoll (Poll.id poll) userId k2 now2
    (Polls.votePinboardPoll (Poll.id poll) userId k1 now1 polls).2
  = Polls.votePinboardPoll (Poll.id poll) userId k2 now2 polls.
Proof.
  intros Hnd Hin.
  rewrite (votePinboardPoll_row polls poll userId k1 now1 Hnd Hin). cbv zeta. cbn [snd].
  set (p1 := Polls.set_votes _ now1 poll).
  assert (NoDup (Poll.id <$> ((λ r, if decide (Poll.id r = Poll.id poll) then p1 else r)
                                <$> polls))) as Hnd1.
  { rewrite <-list_fmap_compose. rewrite (list_fmap_ext _ Poll.id polls); [done|].
    intros ? r _. cbn. destruct (decide (Poll.id r = Poll.id poll)) as [Heq|]; [|done].
    by rewrite Heq. }
  assert (p1 ∈ (λ r, if decide (Poll.id r = Poll.id poll) then p1 else r) <$> polls) as Hin1.
  { apply list_elem_of_fmap. exists poll. by rewrite decide_True. }
  pose proof (votePinboardPoll_row _ p1 userId k2 now2 Hnd1 Hin1) as H2.
  change (Poll.id p1) with (Poll.id poll) in H2. rewrite H2.
  rewrite (votePinboardPoll_row polls poll userId k2 now2 Hnd Hin). cbv zeta.
  assert (Polls.set_votes (<[userId:=k2]> (default ∅ (Poll.votes p1))) now2 p1
          = Polls.set_votes (<[userId:=k2]> (default ∅ (Poll.votes poll))) now2 poll) as ->.
  { unfold p1, Polls.set_votes. cbn. by rewrite insert_insert_eq. }
  f_equal. rewrite <-list_fmap_compose. apply list_fmap_ext.
  intros ? r _. cbn. destruct (decide (Poll.id r = Poll.id poll)) as [Heq|Hne].
  - by rewrite decide_True.
  - by rewrite decide_False.
Qed.

Lemma vote_again_replaces_witness :
  Polls.votePinboardPoll 1 "bob" 0 21
    (Polls.votePinboardPoll 1 "bob" 1 20 PollSample.polls).2
  = Polls.votePinboardPoll 1 "bob" 0 21 PollSample.polls.
Proof.
  apply (vote_again_replaces PollSample.polls PollSample.lunch "bob" 1 0 20 21).
  - apply (bool_decide_unpack _). vm_compute. exact I.
  - apply list_elem_of_here.
Defined.

(** X18 — a vote that cannot be taken changes nothing: without a numeric
    [optionIndex] the answer is 400, for an id without poll it is 404, and
    in both cases the table is as before. *)
Theorem vote_rejected (pollId : Z) (userId : string) (optionIndex : option Z) (now : Z)
    (polls : list Poll.t) :
  optionIndex = None ∨ Forall (λ r, Poll.id r ≠ pollId) polls →
  Polls.route_vote pollId userId optionIndex now polls
  = (match optionIndex with
     | None => Polls.VoteMessage 400 "Option index is required"
     | Some _ => Polls.VoteMessage 404 "Poll not found"
     end, polls).
Proof.
  intros Hcase. unfold Polls.route_vote, Polls.votePinboardPoll.
  destruct optionIndex as [k|]; [|done].
  destruct Hcase as [?|Hnone]; [done|].
  by rewrite filter_none.
Qed.

Lemma vote_rejected_witness :
  Polls.route_vote 9 "bob" (Some 0) 20 PollSample.polls
  = (Polls.VoteMessage 404 "Poll not found", PollSample.polls).
Proof.
  apply (vote_rejected 9 "bob" (Some 0) 20 PollSample.polls).
  right. repeat constructor; discriminate.
Defined.

(** * Properties of the system settings *)

Lemma string_length_app (s t : string) :
  String.length (s +:+ t) = (String.length s + String.length t)%nat.
Proof.
  induction s as [|a s IH]; [done|].
  change (S (String.length (s +:+ t)) = S (String.length s + String.length t)).
  by rewrite IH.
Qed.

Lemma string_app_inj_r (s1 s2 t : string) : s1 +:+ t = s2 +:+ t → s1 = s2.
Proof.
  revert s2. induction s1 as [|a s1 IH]; intros [|b s2] H.
  - done.
  - apply (f_equal String.length) in H. rewrite !string_length_app in H. cbn in H. lia.
  - apply (f_equal String.length) in H. rewrite !string_length_app in H. cbn in H. lia.
  - change (String a (s1 +:+ t) = String b (s2 +:+ t)) in H.
    injection H as -> H. f_equal. by apply IH.
Qed.

Lemma legacy_role_key_inj (k1 k2 : string) :
  Settings.legacy_role_key k1 = Settings.legacy_role_key k2 → k1 = k2.
Proof.
  unfold Settings.legacy_role_key. intros H.
  apply (inj (String.append "legacy_role_")) in H. by apply string_app_inj_r in H.
Qed.

Lemma setting_select_fmap (f : SystemSetting.t → SystemSetting.t)
    (rows : list SystemSetting.t) (key : string) :
  (∀ r, SystemSetting.key (f r) = SystemSetting.key r) →
  head (filter (λ r, SystemSetting.key r = key) (f <$> rows))
  = f <$> head (filter (λ r, SystemSetting.key r = key) rows).
Proof.
  intros Hf. induction rows as [|x rows IH]; [done|].
  rewrite fmap_cons, !filter_cons, Hf. by case_decide.
Qed.

Lemma getSystemSetting_set (rows : list SystemSetting.t) (key value key' : string) (now : Z) :
  Settings.getSystemSetting key' (Settings.setSystemSetting key value now rows).2
  = if decide (key' = key) then Some (SystemSetting.mk key value now)
    else Settings.getSystemSetting key' rows.
Proof.
  unfold Settings.setSystemSetting, Settings.getSystemSetting.
  destruct (head (filter (λ r, SystemSetting.key r = key) rows)) as [old|] eqn:Hold;
    cbv zeta; cbn [snd].
  - rewrite setting_select_fmap by (intros r; by case_decide).
    destruct (decide (key' = key)) as [->|Hk].
    + rewrite Hold. cbn.
      apply head_Some_elem_of, list_elem_of_filter in Hold as [Hk _].
      rewrite decide_True by done. by rewrite Hk.
    + destruct (head (filter (λ r, SystemSetting.key r = key') rows)) as [x|] eqn:Hx; [|done].
      apply head_Some_elem_of, list_elem_of_filter in Hx as [Hx _].
      cbn. rewrite decide_False by congruence. done.
  - rewrite filter_app, head_app. rewrite filter_cons, filter_nil. cbn [SystemSetting.key].
    destruct (decide (key' = key)) as [->|Hk].
    + apply head_None in Hold. rewrite Hold. by rewrite decide_True.
    + rewrite decide_False by congruence.
      destruct (head (filter (λ r, SystemSetting.key r = key') rows)); reflexivity.
Qed.

(** X19 — a setting that was written is the one read back: after
    [setSystemSetting(key, value)] the lookup of [key] gives a row with
    that value, which is also the row returned, and the lookup of every
    other key gives what it gave before; no key is lost from the table. *)
Theorem setting_round_trip (rows : list SystemSetting.t) (key value : string) (now : Z) :
  let r := Settings.setSystemSetting key value now rows in
  r.1 = Some (SystemSetting.mk key value now)
  ∧ Settings.getSystemSetting key r.2 = r.1
  ∧ (∀ key', key' ≠ key →
      Settings.getSystemSetting key' r.2 = Settings.getSystemSetting key' rows)
  ∧ (∀ x, x ∈ rows → SystemSetting.key x ∈ SystemSetting.key <$> r.2).
Proof.
  intros r.
  pose proof (getSystemSetting_set rows key value key now) as Hget.
  rewrite decide_True in Hget by done. fold r in Hget.
  assert (r.1 = Some (SystemSetting.mk key value now)) as H1.
  { subst r. unfold Settings.setSystemSetting in *.
    destruct (Settings.getSystemSetting key rows); [exact Hget|done]. }
  split; [done|]. split; [by rewrite H1|]. split.
  - intros key' Hne. subst r. rewrite getSystemSetting_set. by rewrite decide_False.
  - intros x Hx. subst r. unfold Settings.setSystemSetting.
    destruct (Settings.getSystemSetting key rows); cbv zeta; cbn [snd].
    + rewrite <-list_fmap_compose. apply list_elem_of_fmap. exists x. split; [|done].
      cbn. by case_decide.
    + rewrite fmap_app. apply elem_of_app. left. by apply list_elem_of_fmap_2.
Qed.

(** X20 — writing a setting keeps one row per key: on a table where no
    key occurs twice, [setSystemSetting] leaves such a table, one row
    longer when the key was absent and of the same length when it was
    present. *)
Theorem setting_keys_unique (rows : list SystemSetting.t) (key value : string) (now : Z) :
  NoDup (SystemSetting.key <$> rows) →
  let rows' := (Settings.setSystemSetting key value now rows).2 in
  NoDup (SystemSetting.key <$> rows')
  ∧ length rows' = (if decide (key ∈ SystemSetting.key <$> rows)
                    then length rows else S (length rows)).
Proof.
  intros Hnd rows'. subst rows'. unfold Settings.setSystemSetting, Settings.getSystemSetting.
  destruct (head (filter (λ r, SystemSetting.key r = key) rows)) as [old|] eqn:Hold;
    cbv zeta; cbn [snd].
  - apply head_Some_elem_of, list_elem_of_filter in Hold as [Hk Hin].
    rewrite decide_True by (apply list_elem_of_fmap; by exists old).
    rewrite length_fmap. split; [|done].
    rewrite <-list_fmap_compose. rewrite (list_fmap_ext _ SystemSetting.key rows); [done|].
    intros ? r _. cbn. by case_decide.
  - apply head_None in Hold.
    assert (key ∉ SystemSetting.key <$> rows) as Hnot.
    { intros (x & Hx & Hin)%list_elem_of_fmap.
      assert (x ∈ filter (λ r, SystemSetting.key r = key) rows) as Hf
        by by apply list_elem_of_filter.
      rewrite Hold in Hf. by apply elem_of_nil in Hf. }
    rewrite decide_False by done. rewrite length_app, fmap_app. cbn.
    split; [|lia]. apply NoDup_app. split; [done|]. split.
    + intros x Hx Hx'. apply list_elem_of_singleton in Hx'. by subst x.
    + apply NoDup_singleton.
Qed.

Lemma setting_keys_unique_witness :
  let rows' := (Settings.setSystemSetting "theme" "dark" 5 SettingSample.rows).2 in
  NoDup (SystemSetting.key <$> rows')
  ∧ length rows' = (if decide ("theme" ∈ SystemSetting.key <$> SettingSample.rows)
                    then length SettingSample.rows else S (length SettingSample.rows)).
Proof.
  apply (setting_keys_unique SettingSample.rows "theme" "dark" 5).
  apply (bool_decide_unpack _). vm_compute. exact I.
Defined.

Lemma or_string_truthy (x : option string) (d : string) :
  truthy_string d = true → truthy_string (or_string x d) = true.
Proof.
  intros Hd. unfold or_string. destruct x as [s|]; [|done].
  by destruct (truthy_string s) eqn:Hs.
Qed.

Lemma settings_queries_invalidate (key : list string) (cache : list Cache.Query) :
  ¬ (key `prefix_of` ["/api/system-settings"]) →
  Cache.settings_queries (Cache.invalidateQueries key cache) = Cache.settings_queries cache.
Proof.
  intros Hkey. unfold Cache.settings_queries, Cache.invalidateQueries.
  induction cache as [|q cache IH]; [done|].
  rewrite fmap_cons, !filter_cons, IH.
  destruct (decide (key `prefix_of` Cache.queryKey q)) as [Hpre|Hpre]; [|done].
  cbn [Cache.queryKey].
  destruct (decide (Cache.queryKey q = ["/api/system-settings"])) as [Hq|Hq]; [|done].
  exfalso. apply Hkey. by rewrite <-Hq.
Qed.

(** X21 — an admin renames a legacy role with
    [PUT /api/admin/legacy-roles/:roleKey].  A settings listing fetched
    after that gives the hook the new name for that role when the name
    is not empty, the built-in default when it is, and for every other
    role what it gave before.  The hook itself reads its cached listing,
    and the two invalidations of the mutation's [onSuccess] match
    neither its key nor its data: until the query is fetched again the
    hook shows what it showed before the rename.  A request without
    session is answered 401 and one of a user who is not admin 403, and
    both leave the settings as they were. *)
Theorem legacy_role_rename (session : option SessionUser) (roleKey name : string) (now : Z)
    (rows : list SystemSetting.t) (cache : list Cache.Query) :
  let r := Settings.route_put_legacy_role session roleKey name now rows in
  match session with
  | None => r = ((401, "Not authenticated"), rows)
  | Some user =>
      if decide (session_role user = "admin") then
        r.1 = (200, "Legacy role name updated successfully")
        ∧ Settings.getLegacyRoleName (Settings.getSystemSettings r.2) roleKey
          = (if truthy_string name then name else Settings.getLegacyRoleName [] roleKey)
        ∧ (∀ other, other ≠ roleKey →
            Settings.getLegacyRoleName (Settings.getSystemSettings r.2) other
            = Settings.getLegacyRoleName (Settings.getSystemSettings rows) other)
        ∧ Cache.settings_queries (Cache.updateRoleName_onSuccess cache)
          = Cache.settings_queries cache
        ∧ (∀ k, Settings.getLegacyRoleName
                  (Cache.systemSettings (Cache.updateRoleName_onSuccess cache)) k
                = Settings.getLegacyRoleName (Cache.systemSettings cache) k)
      else r = ((403, "Admin access required"), rows)
  end.
Proof.
  intros r. subst r. unfold Settings.route_put_legacy_role.
  destruct session as [user|]; [|done].
  destruct (decide (session_role user = "admin")) as [Hadmin|Hother].
  - rewrite decide_False by (intros Hne; by apply Hne). cbn [fst snd].
    assert (Cache.settings_queries (Cache.updateRoleName_onSuccess cache)
            = Cache.settings_queries cache) as Hcache.
    { unfold Cache.updateRoleName_onSuccess.
      rewrite !settings_queries_invalidate; [done|by intros [k [=]]..]. }
    split; [done|]. unfold Settings.getLegacyRoleName at 1, Settings.getSystemSettings.
    split; [|split; [|split; [exact Hcache|]]].
    + fold (Settings.getSystemSetting (Settings.legacy_role_key roleKey)
              (Settings.setSystemSetting (Settings.legacy_role_key roleKey) name now rows).2).
      rewrite getSystemSetting_set, decide_True by done. cbn [fmap option_fmap option_map].
      cbn [SystemSetting.value or_string]. by destruct (truthy_string name).
    + intros other Hne. unfold Settings.getLegacyRoleName.
      fold (Settings.getSystemSetting (Settings.legacy_role_key other)
              (Settings.setSystemSetting (Settings.legacy_role_key roleKey) name now rows).2).
      rewrite getSystemSetting_set.
      rewrite decide_False by (intros Heq; by apply legacy_role_key_inj in Heq).
      done.
    + intros k. unfold Cache.systemSettings. by rewrite Hcache.
  - by rewrite decide_True.
Qed.

Example rename_not_shown :
  let cache :=
    [ Cache.mkQuery ["/api/system-settings"] false SettingSample.rows;
      Cache.mkQuery ["/api/admin/system-settings"] false SettingSample.rows ] in
  let rows' :=
    (Settings.route_put_legacy_role (Some SettingSample.admin) "manager" "Lead" 9
       SettingSample.rows).2 in
  Settings.getLegacyRoleName (Settings.getSystemSettings rows') "manager" = "Lead"
  ∧ Settings.getLegacyRoleName
      (Cache.systemSettings (Cache.updateRoleName_onSuccess cache)) "manager" = "Producer"
  ∧ Cache.isInvalidated <$> Cache.updateRoleName_onSuccess cache = [false; true].
Proof. vm_compute. split_and!; reflexivity. Qed.

(** X22 — the hook never shows an empty role name: whatever rows the
    settings listing holds, also one with an empty value for the role's
    key, and whatever the role key, [getLegacyRoleName] gives a non-empty
    string. *)
Theorem legacy_role_name_not_empty (systemSettings : list SystemSetting.t) (roleKey : string) :
  Settings.getLegacyRoleName systemSettings roleKey ≠ "".
Proof.
  assert (truthy_string (Settings.getLegacyRoleName systemSettings roleKey) = true) as H.
  { unfold Settings.getLegacyRoleName. cbv zeta. by do 2 apply or_string_truthy. }
  intros Heq. by rewrite Heq in H.
Qed.

(** * Properties of roles and permissions *)

(** X23 — a system role is never deleted: whoever asks and whatever the
    id, every system role of the table is still there after
    [DELETE /api/admin/roles/:id]; the answer is 200 only when the table
    held a role of that id, which is then gone while all other roles
    stay, and with any other answer the table is as before. *)
Theorem system_role_never_deleted (session : option SessionUser) (id : Z)
    (roles : list Role.t) :
  NoDup (Role.id <$> roles) →
  let r := Roles.route_delete_role session id roles in
  (∀ x, x ∈ roles → Role.isSystem x = Some true → x ∈ r.2)
  ∧ (r.1.1 ≠ 200 → r.2 = roles)
  ∧ (r.1.1 = 200 →
       id ∈ Role.id <$> roles
       ∧ ¬ (id ∈ Role.id <$> r.2)
       ∧ ∀ x, x ∈ roles → Role.id x ≠ id → x ∈ r.2).
Proof.
  intros Hnd r. subst r. unfold Roles.route_delete_role.
  destruct session as [user|]; [|by cbn].
  case_decide; [by cbn|]. unfold Roles.deleteRole, Roles.getRole.
  destruct (head (filter (λ r, Role.id r = id) roles)) as [role|] eqn:Hrole; [|by cbn].
  destruct (or_false (Role.isSystem role)) eqn:Hsys; [by cbn|]. cbn [fst snd].
  pose proof Hrole as [Hk Hin]%head_Some_elem_of%list_elem_of_filter.
  split; [|split; [done|intros _; split; [|split]]].
  - intros x Hx Hxs. apply list_elem_of_filter. split; [|done].
    intros Hid. assert (x = role) as -> by (apply (key_unique Role.id roles); congruence).
    by rewrite Hxs in Hsys.
  - apply list_elem_of_fmap. by exists role.
  - intros (x & Hx & [Hne _]%list_elem_of_filter)%list_elem_of_fmap. by apply Hne.
  - intros x Hx Hne. by apply list_elem_of_filter.
Qed.

Lemma system_role_never_deleted_witness :
  let r := Roles.route_delete_role (Some RoleSample.admin) 1 RoleSample.roles in
  (∀ x, x ∈ RoleSample.roles → Role.isSystem x = Some true → x ∈ r.2)
  ∧ (r.1.1 ≠ 200 → r.2 = RoleSample.roles)
  ∧ (r.1.1 = 200 →
       1 ∈ Role.id <$> RoleSample.roles
       ∧ ¬ (1 ∈ Role.id <$> r.2)
       ∧ ∀ x, x ∈ RoleSample.roles → Role.id x ≠ 1 → x ∈ r.2).
Proof.
  apply (system_role_never_deleted (Some RoleSample.admin) 1 RoleSample.roles).
  apply (bool_decide_unpack _). vm_compute. exact I.
Defined.

Lemma getUserRoles_elem (userId : string) (userRoles : list UserRole.t)
    (roles : list Role.t) (ur : UserRole.t) (o : option Role.t) :
  (ur, o) ∈ Roles.getUserRoles userId userRoles roles
  ↔ ur ∈ userRoles ∧ UserRole.userId ur = userId
    ∧ match o with
      | Some r => r ∈ roles ∧ Role.id r = UserRole.roleId ur
      | None => Forall (λ r, Role.id r ≠ UserRole.roleId ur) roles
      end.
Proof.
  unfold Roles.getUserRoles. rewrite list_elem_of_filter, list_elem_of_bind. cbn [fst].
  split.
  - intros (Hu & ur' & Hin & Hur').
    destruct (filter (λ r, Role.id r = UserRole.roleId ur') roles) as [|r0 rs] eqn:Hf.
    + apply list_elem_of_singleton in Hin. injection Hin as -> ->.
      split; [done|]. split; [done|]. apply Forall_forall. intros r Hr Hid.
      by apply (filter_nil_not_elem_of _ _ r Hf).
    + apply list_elem_of_fmap in Hin as (r & Heq & Hr). injection Heq as -> ->.
      split; [done|]. split; [done|]. rewrite <-Hf in Hr.
      apply list_elem_of_filter in Hr. tauto.
  - intros (Hin & Hu & Ho). split; [done|]. exists ur. split; [|done].
    destruct o as [r|].
    + destruct Ho as [Hr Hid].
      assert (r ∈ filter (λ r, Role.id r = UserRole.roleId ur) roles) as Hf
        by by apply list_elem_of_filter.
      destruct (filter _ roles) as [|r0 rs]; [by apply elem_of_nil in Hf|].
      apply list_elem_of_fmap. by exists r.
    + rewrite filter_none by done. apply list_elem_of_here.
Qed.

Lemma set_add_fold (ps acc : list string) :
  (NoDup acc → NoDup (foldl Roles.set_add acc ps))
  ∧ ∀ p, p ∈ foldl Roles.set_add acc ps ↔ p ∈ acc ∨ p ∈ ps.
Proof.
  revert acc. induction ps as [|q ps IH]; intros acc; cbn [foldl].
  - split; [done|]. intros p. rewrite elem_of_nil. tauto.
  - destruct (IH (Roles.set_add acc q)) as [Hnd Hmem]. unfold Roles.set_add in *. split.
    + intros Hacc. apply Hnd. case_decide; [done|].
      apply NoDup_app. split; [done|]. split; [|apply NoDup_singleton].
      intros x Hx Hx'. apply list_elem_of_singleton in Hx'. by subst x.
    + intros p. rewrite Hmem, elem_of_cons. case_decide as Hq.
      * split; [tauto|]. intros [?|[->|?]]; tauto.
      * rewrite elem_of_app, list_elem_of_singleton. tauto.
Qed.

Lemma collect_fold (items : list (UserRole.t * option Role.t)) (acc : list string) :
  let res := foldl (λ acc userRole, acc ≫= λ permissions, Roles.collect permissions userRole)
               (Some acc) items in
  if decide (Forall (λ item, is_Some item.2) items) then
    ∃ permissions, res = Some permissions
      ∧ (NoDup acc → NoDup permissions)
      ∧ ∀ p, p ∈ permissions ↔
          p ∈ acc ∨ ∃ item r ps, item ∈ items ∧ item.2 = Some r
                                 ∧ Role.permissions r = Some ps ∧ p ∈ ps
  else res = None.
Proof.
  revert acc. induction items as [|[ur o] items IH]; intros acc; cbn [foldl].
  - rewrite decide_True by constructor. exists acc. split; [done|]. split; [done|].
    intros p. split; [tauto|]. intros [?|(item & ? & ? & Hin & _)]; [done|].
    by apply elem_of_nil in Hin.
  - destruct o as [r|]; cbn [mbind option_bind Roles.collect snd].
    + set (acc' := match Role.permissions r with
                   | Some ps => foldl Roles.set_add acc ps | None => acc end).
      specialize (IH acc'). cbv zeta in IH.
      destruct (decide (Forall (λ item, is_Some item.2) items)) as [Hall|Hnot].
      * rewrite decide_True by (constructor; [by eexists|done]).
        destruct IH as (permissions & Hres & Hnd & Hmem).
        exists permissions. split; [done|]. split.
        { intros Hacc. apply Hnd. unfold acc'. destruct (Role.permissions r) as [ps|]; [|done].
          by apply set_add_fold. }
        intros p. rewrite Hmem. unfold acc'. split.
        { intros [Hp|(item & r' & ps & Hin & Hr & Hps & Hp)].
          - destruct (Role.permissions r) as [ps|] eqn:Hps; [|by left].
            apply set_add_fold in Hp as [Hp|Hp]; [by left|].
            right. exists (ur, Some r), r, ps. split; [apply list_elem_of_here|done].
          - right. exists item, r', ps. split; [by apply list_elem_of_further|done]. }
        { intros [Hp|(item & r' & ps & Hin & Hr & Hps & Hp)].
          - left. destruct (Role.permissions r); [|done]. apply set_add_fold. by left.
          - apply elem_of_cons in Hin as [->|Hin].
            + left. cbn in Hr. injection Hr as ->. rewrite Hps. apply set_add_fold. by right.
            + right. by exists item, r', ps. }
      * rewrite decide_False by (intros [_ ?]%Forall_cons; done). exact IH.
    + rewrite decide_False by (intros [[? [=]] _]%Forall_cons).
      clear IH. induction items as [|? items IH]; [done|]. exact IH.
Qed.

(** X24 — the permissions of a user are the union of the permissions of
    the user's roles, each listed once: when every role assignment of the
    user points to an existing role, a permission is in the answer of
    [getUserPermissions] exactly when one of the user's roles has it, and
    the answer has no duplicates. *)
Theorem user_permissions_union (userId : string) (userRoles : list UserRole.t)
    (roles : list Role.t) :
  (∀ ur, ur ∈ userRoles → UserRole.userId ur = userId →
         UserRole.roleId ur ∈ Role.id <$> roles) →
  let permissions := Roles.getUserPermissions userId userRoles roles in
  NoDup permissions
  ∧ ∀ p, p ∈ permissions ↔
      ∃ ur r ps, ur ∈ userRoles ∧ UserRole.userId ur = userId
                 ∧ r ∈ roles ∧ Role.id r = UserRole.roleId ur
                 ∧ Role.permissions r = Some ps ∧ p ∈ ps.
Proof.
  intros Hlinks permissions. subst permissions. unfold Roles.getUserPermissions. cbv zeta.
  pose proof (collect_fold (Roles.getUserRoles userId userRoles roles) []) as Hfold.
  cbv zeta in Hfold. rewrite decide_True in Hfold.
  2: { apply Forall_forall. intros [ur [r|]] Hin; [by eexists|]. exfalso.
       apply getUserRoles_elem in Hin as (Hur & Hu & Hnone).
       apply Hlinks in Hur; [|done]. apply list_elem_of_fmap in Hur as (r & Hid & Hr).
       rewrite Forall_forall in Hnone. by apply (Hnone r). }
  destruct Hfold as (permissions & -> & Hnd & Hmem). cbn [default].
  split; [apply Hnd, NoDup_nil_2|]. intros p. rewrite Hmem. split.
  - intros [Hp|([ur o] & r & ps & Hin & Hr & Hps & Hp)]; [by apply elem_of_nil in Hp|].
    cbn in Hr. subst o. apply getUserRoles_elem in Hin as (Hur & Hu & Hr & Hid).
    by exists ur, r, ps.
  - intros (ur & r & ps & Hur & Hu & Hr & Hid & Hps & Hp). right.
    exists (ur, Some r), r, ps. split; [|done]. by apply getUserRoles_elem.
Qed.

Lemma user_permissions_union_witness :
  let permissions := Roles.getUserPermissions "ann" RoleSample.userRoles RoleSample.roles in
  NoDup permissions
  ∧ ∀ p, p ∈ permissions ↔
      ∃ ur r ps, ur ∈ RoleSample.userRoles ∧ UserRole.userId ur = "ann"
                 ∧ r ∈ RoleSample.roles ∧ Role.id r = UserRole.roleId ur
                 ∧ Role.permissions r = Some ps ∧ p ∈ ps.
Proof.
  apply (user_permissions_union "ann" RoleSample.userRoles RoleSample.roles).
  intros ur Hur _. unfold RoleSample.userRoles in Hur.
  repeat (apply elem_of_cons in Hur as [->|Hur]); try (by apply elem_of_nil in Hur);
    apply (bool_decide_unpack _); vm_compute; exact I.
Defined.

(** X25 — one assignment to a role that no longer exists hides all
    permissions of the user: the left join gives that assignment a null
    role, reading its permissions throws, and [getUserPermissions]
    answers with the empty list, whatever the user's other roles grant. *)
Theorem user_permissions_dangling (userId : string) (userRoles : list UserRole.t)
    (roles : list Role.t) (ur : UserRole.t) :
  ur ∈ userRoles → UserRole.userId ur = userId →
  ¬ (UserRole.roleId ur ∈ Role.id <$> roles) →
  Roles.getUserPermissions userId userRoles roles = [].
Proof.
  intros Hur Hu Hnot. unfold Roles.getUserPermissions. cbv zeta.
  pose proof (collect_fold (Roles.getUserRoles userId userRoles roles) []) as Hfold.
  cbv zeta in Hfold. rewrite decide_False in Hfold; [by rewrite Hfold|].
  intros Hall. rewrite Forall_forall in Hall.
  assert ((ur, None) ∈ Roles.getUserRoles userId userRoles roles) as Hin.
  { apply getUserRoles_elem. split; [done|]. split; [done|].
    apply Forall_forall. intros r Hr Hid. apply Hnot. apply list_elem_of_fmap. by exists r. }
  apply Hall in Hin. by destruct Hin as [? [=]].
Qed.

Lemma user_permissions_dangling_witness :
  Roles.getUserPermissions "ann" (RoleSample.userRoles ++ [UserRole.mk "ann" 9])
    RoleSample.roles = [].
Proof.
  apply (user_permissions_dangling "ann" _ RoleSample.roles (UserRole.mk "ann" 9)).
  - apply elem_of_app. right. apply list_elem_of_here.
  - reflexivity.
  - apply (bool_decide_unpack _). vm_compute. exact I.
Defined.

(** * Properties of the MixMerge page *)

(** X26 — ticking a file's box flips that file and no other: after
    [toggleFileSelection] the file is selected exactly when it was not
    before, every other file is selected exactly when it was before, and a
    selection without repeated ids stays without repeated ids. *)
Theorem toggle_flips_one (fileId : Z) (prev : list Z) :
  NoDup prev →
  let next := MixMerge.toggleFileSelection fileId prev in
  NoDup next
  ∧ (fileId ∈ next ↔ ¬ (fileId ∈ prev))
  ∧ ∀ other, other ≠ fileId → (other ∈ next ↔ other ∈ prev).
Proof.
  intros Hnd next. subst next. unfold MixMerge.toggleFileSelection.
  destruct (decide (fileId ∈ prev)) as [Hin|Hnot].
  - split; [by apply NoDup_filter|]. split.
    + rewrite list_elem_of_filter. tauto.
    + intros other Hne. rewrite list_elem_of_filter. tauto.
  - split.
    + apply NoDup_app. split; [done|]. split; [|apply NoDup_singleton].
      intros x Hx Hx'. apply list_elem_of_singleton in Hx'. by subst x.
    + split.
      * rewrite elem_of_app, list_elem_of_singleton. tauto.
      * intros other Hne. rewrite elem_of_app, list_elem_of_singleton. tauto.
Qed.

Lemma toggle_flips_one_witness :
  let next := MixMerge.toggleFileSelection 2 [1; 2; 3] in
  NoDup next
  ∧ (2 ∈ next ↔ ¬ (2 ∈ [1; 2; 3]))
  ∧ ∀ other, other ≠ 2 → (other ∈ next ↔ other ∈ [1; 2; 3]).
Proof.
  apply (toggle_flips_one 2 [1; 2; 3]).
  apply (bool_decide_unpack _). vm_compute. exact I.
Defined.

Lemma total_fold (audioFiles : list AudioFile.t) (col : AudioFile.t → Z)
    (fs : list AudioFile.t) (acc : Z) :
  NoDup (AudioFile.id <$> audioFiles) → fs ⊆ audioFiles →
  foldl (λ total fileId,
           let file := head (filter (λ f, AudioFile.id f = fileId) audioFiles) in
           total + match file with Some f => col f | None => 0 end)
    acc (AudioFile.id <$> fs)
  = acc + foldr (λ f total, col f + total) 0 fs.
Proof.
  intros Hnd. revert acc. induction fs as [|f fs IH]; intros acc Hsub; cbn [fmap list_fmap foldl foldr].
  - lia.
  - change (map AudioFile.id fs) with (AudioFile.id <$> fs).
    rewrite IH by (intros x Hx; apply Hsub; by apply list_elem_of_further).
    cbv zeta. rewrite (head_filter_the _ audioFiles f).
    + lia.
    + apply Hsub, list_elem_of_here.
    + done.
    + intros y Hy Hid. apply (key_unique AudioFile.id audioFiles); [done| |done|done].
      apply Hsub, list_elem_of_here.
Qed.

(** X27 — "select all" selects every listed file and the totals shown are
    those of the whole list: from a selection whose length differs from
    the number of files, [handleSelectAll] gives the ids of all files in
    list order, [getTotalDuration] and [getTotalSize] are then the sums
    over all files, and a second [handleSelectAll] clears the
    selection. *)
Theorem select_all_totals (audioFiles : list AudioFile.t) (selectedFiles : list Z) :
  NoDup (AudioFile.id <$> audioFiles) →
  length selectedFiles ≠ length audioFiles →
  let all := MixMerge.handleSelectAll audioFiles selectedFiles in
  all = AudioFile.id <$> audioFiles
  ∧ MixMerge.getTotalDuration audioFiles all
    = foldr (λ f total, AudioFile.duration f + total) 0 audioFiles
  ∧ MixMerge.getTotalSize audioFiles all
    = foldr (λ f total, AudioFile.size f + total) 0 audioFiles
  ∧ MixMerge.handleSelectAll audioFiles all = [].
Proof.
  intros Hnd Hlen all. subst all. unfold MixMerge.handleSelectAll at 1 2 3.
  rewrite decide_False by done. split; [done|].
  unfold MixMerge.getTotalDuration, MixMerge.getTotalSize.
  pose proof (total_fold audioFiles AudioFile.duration audioFiles 0 Hnd) as Hd.
  pose proof (total_fold audioFiles AudioFile.size audioFiles 0 Hnd) as Hs.
  cbv zeta in Hd, Hs. rewrite Hd, Hs by done.
  split; [lia|]. split; [lia|].
  unfold MixMerge.handleSelectAll.
  destruct (decide (length selectedFiles = length audioFiles)); [done|].
  by rewrite decide_True by apply length_fmap.
Qed.

Lemma select_all_totals_witness :
  let all := MixMerge.handleSelectAll MixMergeSample.audioFiles [2] in
  all = AudioFile.id <$> MixMergeSample.audioFiles
  ∧ MixMerge.getTotalDuration MixMergeSample.audioFiles all
    = foldr (λ f total, AudioFile.duration f + total) 0 MixMergeSample.audioFiles
  ∧ MixMerge.getTotalSize MixMergeSample.audioFiles all
    = foldr (λ f total, AudioFile.size f + total) 0 MixMergeSample.audioFiles
  ∧ MixMerge.handleSelectAll MixMergeSample.audioFiles all = [].
Proof.
  apply (select_all_totals MixMergeSample.audioFiles [2]).
  - apply (bool_decide_unpack _). vm_compute. exact I.
  - cbn. lia.
Defined.

(** X28 — what the page sends, the server takes: [handleMerge] sends
    nothing for a selection of fewer than two files; for any other
    selection it sends a body that passes the guard of the merge route,
    which answers with the new pending job, named after the job-name field
    or "Untitled Merge" when that is empty, and links the selected files
    to the job in the order of the selection. *)
Theorem page_merge_accepted (st : MixMerge.State) (userId : string) (id now : Z)
    (w : World) :
  match MixMerge.handleMerge st with
  | None => (length (MixMerge.selectedFiles st) < 2)%nat
  | Some body =>
      let r := route_post_merge (mkRequest userId id body None) now w in
      let job :=
        MergeJob.mk (mergeJobs_seq w)
          (if truthy_string (MixMerge.jobName st) then MixMerge.jobName st
           else "Untitled Merge")
          pending 0 None (MixMerge.removeSilence st)
          (if truthy_string (MixMerge.outputFormat st) then MixMerge.outputFormat st
           else "mp3")
          userId now None in
      (2 ≤ length (MixMerge.selectedFiles st))%nat
      ∧ r.1.2 = JsonJob job
      ∧ mergeJobs r.2 = mergeJobs w ++ [job]
      ∧ mergeJobFiles r.2
        = mergeJobFiles w
          ++ (MergeJobFile.mk (MergeJob.id job) <$> MixMerge.selectedFiles st)
  end.
Proof.
  unfold MixMerge.handleMerge. case_decide as Hlen; [done|]. cbv zeta.
  split; [lia|].
  destruct (route_post_merge_accepted
              (mkRequest userId id
                 (mkMergeBody (FidsArray (MixMerge.selectedFiles st))
                    (Some (MixMerge.removeSilence st)) (Some (MixMerge.outputFormat st))
                    (Some (or_string (Some (MixMerge.jobName st)) "Untitled Merge")))
                 None) now w (MixMerge.selectedFiles st)) as [_ Hr].
  { cbn. destruct (MixMerge.selectedFiles st); [cbn in Hlen; lia|done]. }
  rewrite Hr. cbn [fst snd mergeJobs mergeJobFiles body body_name body_removeSilence
                   body_outputFormat user_sub or_false default MergeJob.id].
  assert (or_string (Some (or_string (Some (MixMerge.jobName st)) "Untitled Merge"))
            "Untitled Merge"
          = if truthy_string (MixMerge.jobName st) then MixMerge.jobName st
            else "Untitled Merge") as ->.
  { unfold or_string. by destruct (truthy_string (MixMerge.jobName st)) eqn:E; [rewrite E|]. }
  done.
Qed.
